(** * get-locksmith-eta: a shallow embedding of the dispatch ETA estimator

    The development follows the source modules:
    - [PyStr], [Re]: the fragment of Python's [str] and [re] that
      [address_utils.py] uses;
    - [AddressUtils]: the address transforms of [address_utils.py];
    - the effectful part ([metrics.py], [travel_time.py], [dynamo_utils.py])
      over an explicit world, in a state-and-exception monad;
    - [LambdaFunction]: the handler of [lambda_function.py], with
      [process_metrics_batch] and [flush_metrics] of [metrics.py]. *)

From Stdlib Require Import List Bool Arith NArith ZArith Lia.
From Stdlib Require Import Ascii String.
From Stdlib Require Import PrimFloat FloatOps FloatAxioms SpecFloat.
Import ListNotations.

Close Scope string_scope.
Open Scope nat_scope.
Open Scope list_scope.

Set Implicit Arguments.

(* ================================================================== *)
(** ** Python strings *)

(** A Python [str] is a sequence of Unicode code points.  The case and class
    tables below are Python's on the code points this development uses: the
    ASCII range and U+212A KELVIN SIGN.  On every other code point they are the
    identity / [false]; the tables of the rest of Unicode are not embedded, so
    universally quantified statements about case mapping carry [ascii_str]. *)
Module PyStr.

Definition str := list N.

Definition of_string (s : string) : str :=
  List.map N_of_ascii (list_ascii_of_string s).

Arguments of_string s%_string.

Definition KELVIN : N := 8490%N.

Definition between (lo hi c : N) : bool := (N.leb lo c && N.leb c hi)%bool.

Definition ascii_upper (c : N) : bool := between 65 90 c.
Definition ascii_lower (c : N) : bool := between 97 122 c.
Definition ascii_digit (c : N) : bool := between 48 57 c.

Definition is_ascii (c : N) : bool := N.ltb c 128.
Definition ascii_str (s : str) : Prop := Forall (fun c => is_ascii c = true) s.

(** [str.upper], [str.lower] and the title-case mapping, per code point. *)
Definition cp_upper (c : N) : N := if ascii_lower c then (c - 32)%N else c.
Definition cp_lower (c : N) : N :=
  if ascii_upper c then (c + 32)%N
  else if N.eqb c KELVIN then 107%N else c.
Definition cp_title (c : N) : N := cp_upper c.

(** [_PyUnicode_IsCased]. *)
Definition cp_cased (c : N) : bool :=
  (ascii_upper c || ascii_lower c || N.eqb c KELVIN)%bool.

(** [\w] of a [str] pattern: alphanumerics and the underscore. *)
Definition cp_word (c : N) : bool :=
  (ascii_upper c || ascii_lower c || ascii_digit c || N.eqb c 95
   || N.eqb c KELVIN)%bool.

(** [\s] of a [str] pattern, which is also what [str.strip] removes. *)
Definition cp_space (c : N) : bool := (between 9 13 c || between 28 32 c)%bool.

(** [\d] of a [str] pattern. *)
Definition cp_digit (c : N) : bool := ascii_digit c.

Definition upper (s : str) : str := List.map cp_upper s.

(** [str.title]: a character that follows a cased character is lowered, any
    other character is title-cased. *)
Fixpoint title_from (previous_is_cased : bool) (s : str) : str :=
  match s with
  | [] => []
  | c :: r =>
      (if previous_is_cased then cp_lower c else cp_title c)
        :: title_from (cp_cased c) r
  end.

Definition title (s : str) : str := title_from false s.

Fixpoint lstrip (s : str) : str :=
  match s with
  | c :: r => if cp_space c then lstrip r else s
  | [] => []
  end.

Definition rstrip (s : str) : str := rev (lstrip (rev s)).
Definition strip (s : str) : str := rstrip (lstrip s).

Fixpoint eqb (a b : str) : bool :=
  match a, b with
  | [], [] => true
  | x :: a', y :: b' => (N.eqb x y && eqb a' b')%bool
  | _, _ => false
  end.

(** Truth value of a string: [if s]. *)
Definition truthy (s : str) : bool :=
  match s with [] => false | _ => true end.

(** [s.split(sep, 1)[0]] for a one-character separator. *)
Fixpoint before_first (sep : N) (s : str) : str :=
  match s with
  | [] => []
  | c :: r => if N.eqb c sep then [] else c :: before_first sep r
  end.

End PyStr.

(* ================================================================== *)
(** ** Regular expressions *)

(** The part of [re] the source's patterns are written in, with Python's
    backtracking order: alternatives left to right, greedy repetition longest
    first, lazy repetition shortest first.  Repetition is over one-character
    items, which is all the patterns need. *)
Module Re.
Import PyStr.

Inductive regex : Type :=
| Eps
| Chr (p : N -> bool)              (* one character of a class *)
| Cat (r1 r2 : regex)
| Alt (r1 r2 : regex)
| Opt (r : regex)                  (* (?:r)? *)
| Star (greedy : bool) (p : N -> bool)
| Group (n : nat) (r : regex)      (* capturing group number n *)
| WordB                            (* \b *)
| Dollar.                          (* $ without MULTILINE *)

Definition captures := list (nat * str).

Fixpoint star_match {A} (greedy : bool) (p : N -> bool)
    (prev : option N) (s : str) (k : option N -> str -> option A) : option A :=
  match s with
  | c :: s' =>
      if p c then
        if greedy then
          match star_match greedy p (Some c) s' k with
          | Some a => Some a
          | None => k prev s
          end
        else
          match k prev s with
          | Some a => Some a
          | None => star_match greedy p (Some c) s' k
          end
      else k prev s
  | [] => k prev s
  end.

Definition word_opt (c : option N) : bool :=
  match c with Some x => cp_word x | None => false end.

Definition at_boundary (prev : option N) (s : str) : bool :=
  xorb (word_opt prev) (word_opt (hd_error s)).

(** [$] matches at the end of the string and before a newline that ends it. *)
Definition at_dollar (s : str) : bool :=
  match s with
  | [] => true
  | [c] => N.eqb c 10
  | _ => false
  end.

(** [rmatch r prev s caps k]: match [r] at the position whose previous
    character is [prev] and whose remaining input is [s]; [k] continues with
    the rest and decides whether the whole match succeeds. *)
Fixpoint rmatch {A} (r : regex) (prev : option N) (s : str) (caps : captures)
    (k : option N -> str -> captures -> option A) : option A :=
  match r with
  | Eps => k prev s caps
  | Chr p =>
      match s with
      | c :: s' => if p c then k (Some c) s' caps else None
      | [] => None
      end
  | Cat r1 r2 =>
      rmatch r1 prev s caps (fun prev' s' caps' => rmatch r2 prev' s' caps' k)
  | Alt r1 r2 =>
      match rmatch r1 prev s caps k with
      | Some a => Some a
      | None => rmatch r2 prev s caps k
      end
  | Opt r1 =>
      match rmatch r1 prev s caps k with
      | Some a => Some a
      | None => k prev s caps
      end
  | Star greedy p =>
      star_match greedy p prev s (fun prev' s' => k prev' s' caps)
  | Group n r1 =>
      rmatch r1 prev s caps
        (fun prev' s' caps' =>
           k prev' s' ((n, firstn (List.length s - List.length s') s) :: caps'))
  | WordB => if at_boundary prev s then k prev s caps else None
  | Dollar => if at_dollar s then k prev s caps else None
  end.

(** A successful match: the last character consumed (or the one before the
    match when it is empty), the rest of the input, the groups. *)
Definition match_at (r : regex) (prev : option N) (s : str)
  : option (option N * str * captures) :=
  rmatch r prev s [] (fun prev' s' caps => Some (prev', s', caps)).

(** [re.match]. *)
Definition re_match (r : regex) (s : str) : option captures :=
  match match_at r None s with
  | Some (_, _, caps) => Some caps
  | None => None
  end.

(** [re.search]: the leftmost position at which the pattern matches. *)
Fixpoint search_from (r : regex) (prev : option N) (s : str) : option captures :=
  match match_at r prev s with
  | Some (_, _, caps) => Some caps
  | None =>
      match s with
      | [] => None
      | c :: s' => search_from r (Some c) s'
      end
  end.

Definition re_search (r : regex) (s : str) : option captures :=
  search_from r None s.

Fixpoint group (n : nat) (caps : captures) : str :=
  match caps with
  | [] => []
  | (m, v) :: rest => if Nat.eqb m n then v else group n rest
  end.

(** [re.sub] for a pattern that never matches the empty string, which holds
    of every pattern the source substitutes.  The scan goes left to right;
    [skip] counts the characters of the current match still to be dropped. *)
Fixpoint sub_go (r : regex) (repl : str) (prev : option N) (s : str)
    (skip : nat) : str :=
  match s with
  | [] => []
  | c :: s' =>
      match skip with
      | S n => sub_go r repl (Some c) s' n
      | O =>
          match match_at r prev s with
          | Some (_, rest, _) =>
              match List.length s - List.length rest with
              | S n => repl ++ sub_go r repl (Some c) s' n
              | O => c :: sub_go r repl (Some c) s' 0
              end
          | None => c :: sub_go r repl (Some c) s' 0
          end
      end
  end.

Definition re_sub (r : regex) (repl : str) (s : str) : str :=
  sub_go r repl None s 0.

(** *** Pattern syntax *)

Definition lit (c : N) : regex := Chr (N.eqb c).

(** A literal under [re.IGNORECASE]. *)
Definition lit_i (c : N) : regex :=
  Chr (fun x => N.eqb (cp_lower x) (cp_lower c)).

Fixpoint lits (s : str) : regex :=
  match s with
  | [] => Eps
  | c :: r => Cat (lit c) (lits r)
  end.

Fixpoint lits_i (s : str) : regex :=
  match s with
  | [] => Eps
  | c :: r => Cat (lit_i c) (lits_i r)
  end.

Fixpoint times (n : nat) (r : regex) : regex :=
  match n with
  | O => Eps
  | S m => Cat r (times m r)
  end.

Definition plus (p : N -> bool) : regex := Cat (Chr p) (Star true p).

(** [.] without DOTALL. *)
Definition dot (c : N) : bool := negb (N.eqb c 10).

End Re.


(* ================================================================== *)
(** ** Exceptions and the [math] module *)

Module Py.

(** The exceptions that occur: two of the [math] module and of float
    arithmetic, and [BotoCoreError] for an exception of the AWS client that is
    not a [ClientError] ([NoCredentialsError], [EndpointConnectionError],
    ...). *)
Inductive Exn : Type := ValueError | OverflowError | BotoCoreError.

(** The outcome of a Python call: a value, or an exception that propagates. *)
Inductive Res (A : Type) : Type :=
| Ok (a : A)
| Raise (e : Exn).

Arguments Ok {A} a.
Arguments Raise {A} e.

Definition res_bind {A B} (r : Res A) (f : A -> Res B) : Res B :=
  match r with
  | Ok a => f a
  | Raise e => Raise e
  end.

End Py.

(** Python floats are binary64 numbers; they are Rocq's primitive floats, whose
    [+ - * / sqrt] are the IEEE 754 operations the interpreter executes.  The
    platform's [sin], [cos], [atan2] and [pow] come from the C library, which is
    not part of the repository: they are the fields of [Libm]. *)
Module PyMath.
Import Py.

Record Libm : Type := {
  libm_sin : float -> float;
  libm_cos : float -> float;
  libm_atan2 : float -> float -> float;
  libm_pow : float -> float -> float
}.

(** [math_1] of CPython's mathmodule: a NaN from a number, or an infinity from
    a finite number, is a "math domain error". *)
Definition math_1 (func : float -> float) (x : float) : Res float :=
  let r := func x in
  if (is_nan r && negb (is_nan x))%bool then Raise ValueError
  else if (is_infinity r && is_finite x)%bool then Raise ValueError
  else Ok r.

(** [math_2], used by [math.atan2]. *)
Definition math_2 (func : float -> float -> float) (x y : float) : Res float :=
  let r := func x y in
  if is_nan r then
    if (negb (is_nan x) && negb (is_nan y))%bool then Raise ValueError else Ok r
  else if is_infinity r then
    if (is_finite x && is_finite y)%bool then Raise OverflowError else Ok r
  else Ok r.

Definition math_sin (lm : Libm) : float -> Res float := math_1 (libm_sin lm).
Definition math_cos (lm : Libm) : float -> Res float := math_1 (libm_cos lm).
Definition math_sqrt : float -> Res float := math_1 PrimFloat.sqrt.
Definition math_atan2 (lm : Libm) : float -> float -> Res float :=
  math_2 (libm_atan2 lm).

(** [Py_MATH_PI] and [degToRad = Py_MATH_PI / 180.0]. *)
Definition Py_MATH_PI : float := 0x1.921fb54442d18p+1%float.
Definition degToRad : float := (Py_MATH_PI / 180)%float.

Definition math_radians (x : float) : float := (x * degToRad)%float.

(** [x ** 2]: [float_pow] with exponent [2.0].  The interpreter settles NaN,
    infinities, zero and one itself, takes the absolute value of a negative
    base (the exponent is an even integer) and leaves the rest to the
    platform's [pow]; an overflow there is an [OverflowError]. *)
Definition float_pow_2 (lm : Libm) (iv : float) : Res float :=
  if is_nan iv then Ok iv
  else if is_infinity iv then Ok (abs iv)
  else if (iv =? 0)%float then Ok 0%float
  else
    let iv := if (iv <? 0)%float then (- iv)%float else iv in
    if (iv =? 1)%float then Ok 1%float
    else
      let ix := libm_pow lm iv 2%float in
      if is_infinity ix then Raise OverflowError else Ok ix.

(** [math.ceil]: the least integer not below a finite float. *)
Definition math_ceil (x : float) : Res Z :=
  match Prim2SF x with
  | S754_nan => Raise ValueError
  | S754_infinity _ => Raise OverflowError
  | S754_zero _ => Ok 0%Z
  | S754_finite s m e =>
      let n := cond_Zopp s (Zpos m) in
      Ok (match e with
          | Zneg k => (- ((- n) / Z.pow_pos 2 k))%Z
          | _ => (n * 2 ^ e)%Z
          end)
  end.

(** A Python number: an [int] or a [float]. *)
Inductive number : Type :=
| Int (z : Z)
| Float (f : float).

(** The conversion of an [int] operand of a float operation
    ([PyLong_AsDouble]): the nearest binary64 number, ties to even; an [int]
    beyond the range is an [OverflowError]. *)
Definition float_of_int (z : Z) : Res float :=
  let x := SF2Prim (binary_normalize prec emax z 0 false) in
  if is_infinity x then Raise OverflowError else Ok x.

(** [z < f] and [f < z] for an [int] and a [float]: Python compares the two
    values exactly, without converting the [int]. *)
Definition int_lt_float (z : Z) (f : float) : bool :=
  match Prim2SF f with
  | S754_nan => false
  | S754_infinity s => negb s
  | S754_zero _ => (z <? 0)%Z
  | S754_finite s m e =>
      let n := cond_Zopp s (Zpos m) in
      match e with
      | Zneg k => (z * Z.pow_pos 2 k <? n)%Z
      | _ => (z <? n * 2 ^ e)%Z
      end
  end.

Definition float_lt_int (f : float) (z : Z) : bool :=
  match Prim2SF f with
  | S754_nan => false
  | S754_infinity s => s
  | S754_zero _ => (0 <? z)%Z
  | S754_finite s m e =>
      let n := cond_Zopp s (Zpos m) in
      match e with
      | Zneg k => (n <? z * Z.pow_pos 2 k)%Z
      | _ => (n * 2 ^ e <? z)%Z
      end
  end.

(** [a < b] *)
Definition number_lt (a b : number) : bool :=
  match a, b with
  | Int x, Int y => (x <? y)%Z
  | Int x, Float y => int_lt_float x y
  | Float x, Int y => float_lt_int x y
  | Float x, Float y => (x <? y)%float
  end.

End PyMath.

(* ================================================================== *)
(** ** config.py *)

Module Config.
Import PyStr.

(** [dict.get] on a dictionary with string keys. *)
Fixpoint dict_get {V} (d : list (str * V)) (key : str) : option V :=
  match d with
  | [] => None
  | (k, v) :: rest => if eqb k key then Some v else dict_get rest key
  end.

Definition LOCKSMITH_BASE_ADDRESSES : list (str * str) :=
  [ (of_string "QuickFix", of_string "1614 10th St S, Arlington, VA 22204") ].

Definition COMPANY_TABLE_MAPPING : list (str * str) :=
  [ (of_string "QuickFix", of_string "QuickFixLocksmithJobs") ].

Definition EARTH_RADIUS_KM : float := 6371%float.
Definition AVG_SPEED_KMH : float := 0x1.823d70a3d70a4p+5%float.      (* 48.28 *)
Definition ROAD_NETWORK_MULTIPLIER : float := 0x1.6666666666666p+0%float. (* 1.4 *)

(** The keys of [VARIATION_TYPES] and the tags they map to. *)
Inductive VariationKey : Type :=
| ORIGINAL | NORMALIZED | NO_UNIT | NO_SECONDARY | STREET_CITY_STATE | STREET_ZIP.

Definition VARIATION_TYPES (k : VariationKey) : str :=
  match k with
  | ORIGINAL => of_string "original"
  | NORMALIZED => of_string "normalized"
  | NO_UNIT => of_string "no_unit"
  | NO_SECONDARY => of_string "no_secondary"
  | STREET_CITY_STATE => of_string "street_city_state"
  | STREET_ZIP => of_string "street_zip"
  end.

End Config.

(* ================================================================== *)
(** ** Records, the world and the collaborators *)

Module Data.
Import PyStr Py PyMath.

(** [(lat, lng)] *)
Definition coords : Type := (float * float)%type.

(** An ETA: the [int] [0 + travel_time] of a technician without jobs, the
    [float] [workload_minutes + travel_time] of one with jobs, or
    [float('inf')]. *)
Definition eta_t : Type := number.

(** [float('inf')] *)
Definition Infinite : eta_t := Float infinity.

(** [a < b] *)
Definition eta_lt (a b : eta_t) : bool := number_lt a b.

(** One entry of [_metrics_to_record]. *)
Record MetricEvent : Type := {
  variation_type : str;
  success : bool;
  timestamp : str
}.

(** The [base_address] field of a locksmith record. *)
Record BaseAddress : Type := {
  ba_address : str;
  ba_coords : option coords
}.

(** An entry of [jobQueue]; [None] is a missing key.  [estimatedTime] and
    [travelTime] hold what [float(...)] makes of the stored number. *)
Record Job : Type := {
  estimatedTime : option float;
  travelTime : option float;
  arrived : option bool;
  job_address : option str;
  latitude : option float;
  longitude : option float
}.

Record Locksmith : Type := {
  locksmithId : option str;
  jobQueue : list Job;
  base_address : option BaseAddress
}.

(** The item written to [NextAvailableCache]. *)
Record CacheItem : Type := {
  ci_companyName : option str;
  ci_locksmithId : option str;
  ci_travelTime : Z;
  ci_ttl : Z;
  ci_jobAddress : option str;
  ci_latitude : option float;
  ci_longitude : option float
}.

(** What a request does that can be observed from outside, in order: the
    calls to the collaborators, and the entries into the Geocoder. *)
Inductive Event : Type :=
| Call_geocode_with_fuzzy_matching (original_address : option str)
| Ssm_get_parameter
| Http_geocode (address : str)
| Http_route (origin dest : coords)
| Dynamo_update_item (table_name : option str) (locksmith_id : str)
    (base : BaseAddress)
| Dynamo_put_item (item : CacheItem).

(** The process-wide variables of the modules, and the events so far. *)
Record World : Type := {
  _here_api_key : option str;              (* address_utils._here_api_key *)
  _metrics_to_record : list MetricEvent;   (* metrics._metrics_to_record *)
  CURRENT_COMPANY : option str;            (* lambda_function.CURRENT_COMPANY *)
  trace : list Event
}.

(** The collaborators.  Each answer may depend on everything that happened
    before it, so a provider may fail once and succeed on the retry.
    - [ssm_get_parameter]: the parameter's value, [Ok None] for the
      [ClientError] the source catches, or any other exception of the call,
      which the source does not catch;
    - [here_geocode]: the position of the first item of a 200 response, or
      [None] for every failure the source turns into one (another status, no
      item, no position, an exception of the request);
    - [here_route]: [routes[0].sections[0].summary.duration] of a 200 response,
      or [None] likewise;
    - a failing [update_item] or [put_item] is only logged, so their answers
      are not part of the world. *)
Record Env : Type := {
  ssm_get_parameter : list Event -> Res (option str);
  here_geocode : list Event -> str -> option coords;
  here_route : list Event -> coords -> coords -> option float;
  datetime_now : list Event -> str;
  time_time : list Event -> Z;
  libm : PyMath.Libm
}.

End Data.

(* ================================================================== *)
(** ** The monad of the effectful code: state and exceptions *)

Module Runtime.
Import PyStr Py Data.

Definition M (A : Type) : Type := World -> Res A * World.

Definition ret {A} (a : A) : M A := fun w => (Ok a, w).

Definition bind {A B} (m : M A) (f : A -> M B) : M B :=
  fun w =>
    match m w with
    | (Ok a, w') => f a w'
    | (Raise e, w') => (Raise e, w')
    end.

(** A pure computation that may raise. *)
Definition lift {A} (r : Res A) : M A := fun w => (r, w).

Definition get_world : M World := fun w => (Ok w, w).

Definition emit (e : Event) : M unit :=
  fun w =>
    (Ok tt,
     {| _here_api_key := _here_api_key w;
        _metrics_to_record := _metrics_to_record w;
        CURRENT_COMPANY := CURRENT_COMPANY w;
        trace := trace w ++ [e] |}).

Definition set_here_api_key (v : option str) : M unit :=
  fun w =>
    (Ok tt,
     {| _here_api_key := v;
        _metrics_to_record := _metrics_to_record w;
        CURRENT_COMPANY := CURRENT_COMPANY w;
        trace := trace w |}).

Definition append_metric (m : MetricEvent) : M unit :=
  fun w =>
    (Ok tt,
     {| _here_api_key := _here_api_key w;
        _metrics_to_record := _metrics_to_record w ++ [m];
        CURRENT_COMPANY := CURRENT_COMPANY w;
        trace := trace w |}).

(** Truth value of [None] or a string. *)
Definition opt_truthy (o : option str) : bool :=
  match o with
  | Some s => truthy s
  | None => false
  end.

Declare Scope monad_scope.
Delimit Scope monad_scope with monad.
Notation "x <- c ;; k" := (bind c (fun x => k))
  (at level 61, c at next level, right associativity) : monad_scope.
Notation "c ;;; k" := (bind c (fun _ => k))
  (at level 61, right associativity) : monad_scope.

End Runtime.

(* ================================================================== *)
(** ** metrics.py *)

Module Metrics.
Import PyStr Py Data Runtime.
Local Open Scope monad_scope.

Definition record_geocoding_success (env : Env) (variation : str)
    (ok : bool) : M unit :=
  w <- get_world ;;
  append_metric
    {| variation_type := variation;
       success := ok;
       timestamp := datetime_now env (trace w) |}.

End Metrics.

(* ================================================================== *)
(** ** address_utils.py *)

Module AddressUtils.
Import PyStr Re Py Config Data Runtime Metrics.
Local Open Scope monad_scope.

Definition COMMA : N := 44%N.

(** [abbrev_map], in the dictionary's insertion order. *)
Definition abbrev_map : list (str * str) :=
  [ ((of_string "STREET"), (of_string "ST")); ((of_string "AVENUE"), (of_string "AVE")); ((of_string "BOULEVARD"), (of_string "BLVD"));
    ((of_string "DRIVE"), (of_string "DR")); ((of_string "ROAD"), (of_string "RD")); ((of_string "LANE"), (of_string "LN"));
    ((of_string "COURT"), (of_string "CT")); ((of_string "CIRCLE"), (of_string "CIR")); ((of_string "PLACE"), (of_string "PL"));
    ((of_string "HIGHWAY"), (of_string "HWY")); ((of_string "PARKWAY"), (of_string "PKWY"));
    ((of_string "APARTMENT"), (of_string "APT")); ((of_string "SUITE"), (of_string "STE"));
    ((of_string "NORTH"), (of_string "N")); ((of_string "SOUTH"), (of_string "S")); ((of_string "EAST"), (of_string "E"));
    ((of_string "WEST"), (of_string "W")); ((of_string "NORTHEAST"), (of_string "NE")); ((of_string "NORTHWEST"), (of_string "NW"));
    ((of_string "SOUTHEAST"), (of_string "SE")); ((of_string "SOUTHWEST"), (of_string "SW")) ].

(** [r'\b' + full + r'\b'] *)
Definition word_re (full : str) : regex := Cat WordB (Cat (lits full) WordB).

Definition replace_abbrev (addr : str) (entry : str * str) : str :=
  re_sub (word_re (fst entry)) (snd entry) addr.

Definition normalize_address (address : str) : str :=
  if negb (truthy address) then address
  else
    let addr := upper address in
    let addr := fold_left replace_abbrev abbrev_map addr in
    title addr.

(** [[\w-]] *)
Definition word_or_dash (c : N) : bool := (cp_word c || N.eqb c 45)%bool.

(** [r'\b(?:APT|UNIT|STE|#)\s*[\w-]+'] with [re.IGNORECASE] *)
Definition unit_re : regex :=
  Cat WordB
    (Cat (Alt (lits_i (of_string "APT"))
           (Alt (lits_i (of_string "UNIT")) (Alt (lits_i (of_string "STE")) (lits_i (of_string "#")))))
       (Cat (Star true cp_space) (plus word_or_dash))).

(** [r',\s*$'] *)
Definition trailing_comma_re : regex :=
  Cat (lit COMMA) (Cat (Star true cp_space) Dollar).

(** [r'\s+'] *)
Definition spaces_re : regex := plus cp_space.

Definition remove_unit (address : str) : str :=
  if negb (truthy address) then address
  else
    let addr := re_sub unit_re [] address in
    let addr := re_sub trailing_comma_re [] addr in
    strip (re_sub spaces_re (of_string " ") addr).

Definition remove_secondary (address : str) : str :=
  if negb (truthy address) then address
  else strip (before_first COMMA address).

(** [[A-Z]] under [re.IGNORECASE]: the ASCII letters and, of the code points
    modelled here, the Kelvin sign. *)
Definition letter_i (c : N) : bool :=
  (ascii_upper c || ascii_lower c || N.eqb c KELVIN)%bool.

(** [\d{5}(?:-\d{4})?] *)
Definition zip_re : regex :=
  Cat (times 5 (Chr cp_digit)) (Opt (Cat (lit 45) (times 4 (Chr cp_digit)))).

(** [r'(.*?),\s*(.*?),\s*([A-Z]{2})(?:\s+\d{5}(?:-\d{4})?)?$'] with
    [re.IGNORECASE] *)
Definition street_city_state_re : regex :=
  Cat (Group 1 (Star false dot))
    (Cat (lit COMMA)
       (Cat (Star true cp_space)
          (Cat (Group 2 (Star false dot))
             (Cat (lit COMMA)
                (Cat (Star true cp_space)
                   (Cat (Group 3 (times 2 (Chr letter_i)))
                      (Cat (Opt (Cat (plus cp_space) zip_re)) Dollar))))))).

Definition extract_street_city_state (address : str) : str :=
  if negb (truthy address) then address
  else
    match re_match street_city_state_re address with
    | Some m => group 1 m ++ (of_string ", ") ++ group 2 m ++ (of_string ", ") ++ group 3 m
    | None => address
    end.

(** [r'(.*?),'] *)
Definition street_re : regex := Cat (Group 1 (Star false dot)) (lit COMMA).

(** [r'(\d{5}(?:-\d{4})?)'] *)
Definition zip_group_re : regex := Group 1 zip_re.

Definition extract_street_zip (address : str) : str :=
  if negb (truthy address) then address
  else
    match re_match street_re address, re_search zip_group_re address with
    | Some street_match, Some zip_match =>
        strip (group 1 street_match) ++ (of_string ", ") ++ group 1 zip_match
    | _, _ => address
    end.

Definition get_here_api_key (env : Env) : M (option str) :=
  w <- get_world ;;
  if opt_truthy (_here_api_key w) then ret (_here_api_key w)
  else
    response <- (emit Ssm_get_parameter ;;;
                 lift (ssm_get_parameter env (trace w))) ;;
    match response with
    | Some value => set_here_api_key (Some value) ;;; ret (Some value)
    | None => ret None
    end.

Definition geocode_address (env : Env) (address : str)
    (api_key : option str) : M (option coords) :=
  if (negb (truthy address) || negb (opt_truthy api_key))%bool then ret None
  else
    w <- get_world ;;
    emit (Http_geocode address) ;;;
    ret (here_geocode env (trace w) address).

(** The [variations] list. *)
Definition variations (original_address : str) : list str :=
  [ original_address;
    normalize_address original_address;
    remove_unit original_address;
    remove_secondary original_address;
    extract_street_city_state original_address;
    extract_street_zip original_address ].

(** The [variation_types] list. *)
Definition variation_types : list str :=
  [ VARIATION_TYPES ORIGINAL;
    VARIATION_TYPES NORMALIZED;
    VARIATION_TYPES NO_UNIT;
    VARIATION_TYPES NO_SECONDARY;
    VARIATION_TYPES STREET_CITY_STATE;
    VARIATION_TYPES STREET_ZIP ].

(** [for i, addr_variation in enumerate(variations)], from index [i] on. *)
Fixpoint try_variations (env : Env) (api_key : option str) (i : nat)
    (vs : list str) : M (option coords) :=
  match vs with
  | [] => ret None
  | addr_variation :: rest =>
      if negb (truthy addr_variation) then try_variations env api_key (S i) rest
      else
        found <- geocode_address env addr_variation api_key ;;
        match found with
        | Some c =>
            record_geocoding_success env (nth i variation_types []) true ;;;
            ret (Some c)
        | None =>
            record_geocoding_success env (nth i variation_types []) false ;;;
            try_variations env api_key (S i) rest
        end
  end.

Definition geocode_with_fuzzy_matching (env : Env)
    (original_address : option str) : M (option coords) :=
  emit (Call_geocode_with_fuzzy_matching original_address) ;;;
  match original_address with
  | None => ret None
  | Some address =>
      if negb (truthy address) then ret None
      else
        api_key <- get_here_api_key env ;;
        if negb (opt_truthy api_key) then ret None
        else try_variations env api_key 0 (variations address)
  end.

End AddressUtils.

(* ================================================================== *)
(** ** travel_time.py *)

Module TravelTime.
Import PyStr Py PyMath Config Data Runtime AddressUtils.
Local Open Scope monad_scope.

(** [origin_coords] if given, else the Geocoder's answer for the address. *)
Definition coords_or_geocode (env : Env) (given : option coords)
    (address : option str) : M (option coords) :=
  match given with
  | Some c => ret (Some c)
  | None => geocode_with_fuzzy_matching env address
  end.

Definition calculate_travel_time_fallback (env : Env)
    (origin_address dest_address : option str)
    (origin_coords dest_coords : option coords) : M Z :=
  origin_coords <- coords_or_geocode env origin_coords origin_address ;;
  match origin_coords with
  | None => ret 30%Z
  | Some (lat1, lon1) =>
      dest_coords <- coords_or_geocode env dest_coords dest_address ;;
      match dest_coords with
      | None => ret 30%Z
      | Some (lat2, lon2) =>
          let lm := libm env in
          let lat1_rad := math_radians lat1 in
          let lon1_rad := math_radians lon1 in
          let lat2_rad := math_radians lat2 in
          let lon2_rad := math_radians lon2 in
          let dlon := (lon2_rad - lon1_rad)%float in
          let dlat := (lat2_rad - lat1_rad)%float in
          sin_dlat <- lift (math_sin lm (dlat / 2)%float) ;;
          sin_dlat_2 <- lift (float_pow_2 lm sin_dlat) ;;
          cos_lat1 <- lift (math_cos lm lat1_rad) ;;
          cos_lat2 <- lift (math_cos lm lat2_rad) ;;
          sin_dlon <- lift (math_sin lm (dlon / 2)%float) ;;
          sin_dlon_2 <- lift (float_pow_2 lm sin_dlon) ;;
          let a := (sin_dlat_2 + cos_lat1 * cos_lat2 * sin_dlon_2)%float in
          sqrt_a <- lift (math_sqrt a) ;;
          sqrt_1_a <- lift (math_sqrt (1 - a)%float) ;;
          angle <- lift (math_atan2 lm sqrt_a sqrt_1_a) ;;
          let c := (2 * angle)%float in
          let distance_km := (EARTH_RADIUS_KM * c)%float in
          let road_distance_km := (distance_km * ROAD_NETWORK_MULTIPLIER)%float in
          let travel_time_hours := (road_distance_km / AVG_SPEED_KMH)%float in
          lift (math_ceil (travel_time_hours * 60)%float)
      end
  end.

(** The HERE Routing call: the [try] block of the source.  Its answer is the
    number of minutes, or [None] when the block ends without a [return]
    (another status, a malformed payload, any exception). *)
Definition here_routing_minutes (env : Env) (origin dest : coords)
    : M (option Z) :=
  w <- get_world ;;
  emit (Http_route origin dest) ;;;
  match here_route env (trace w) origin dest with
  | Some travel_time_seconds =>
      match math_ceil (travel_time_seconds / 60)%float with
      | Ok travel_time_minutes => ret (Some travel_time_minutes)
      | Raise _ => ret None
      end
  | None => ret None
  end.

Definition calculate_travel_time_with_coords (env : Env)
    (origin_address dest_address : option str)
    (origin_coords dest_coords : option coords) : M Z :=
  api_key <- get_here_api_key env ;;
  origin_coords <- coords_or_geocode env origin_coords origin_address ;;
  match origin_coords with
  | None => calculate_travel_time_fallback env origin_address dest_address None None
  | Some origin =>
      dest_coords <- coords_or_geocode env dest_coords dest_address ;;
      match dest_coords with
      | None =>
          calculate_travel_time_fallback env origin_address dest_address None None
      | Some dest =>
          routed <- (if opt_truthy api_key then here_routing_minutes env origin dest
                     else ret None) ;;
          match routed with
          | Some travel_time_minutes => ret travel_time_minutes
          | None =>
              calculate_travel_time_fallback env origin_address dest_address
                (Some origin) (Some dest)
          end
      end
  end.

End TravelTime.

(* ================================================================== *)
(** ** dynamo_utils.py *)

Module DynamoUtils.
Import PyStr Py PyMath Config Data Runtime AddressUtils TravelTime.
Local Open Scope monad_scope.

Definition get_or {A} (o : option A) (default : A) : A :=
  match o with
  | Some a => a
  | None => default
  end.

(** One turn of the workload loop. *)
Definition add_job (workload_minutes : float) (job : Job) : float :=
  let workload_minutes :=
    (workload_minutes + get_or (estimatedTime job) 0)%float in
  if negb (get_or (arrived job) false)
  then (workload_minutes + get_or (travelTime job) 0)%float
  else workload_minutes.

(** The loop starts from the [int] [0], which the first addition converts to
    [0.0]. *)
Definition queue_workload (job_queue : list Job) : float :=
  fold_left add_job job_queue 0%float.

(** [(float(last_job['latitude']), float(last_job['longitude']))] when both
    keys are present. *)
Definition job_coords (job : Job) : option coords :=
  match latitude job, longitude job with
  | Some lat, Some lng => Some (lat, lng)
  | _, _ => None
  end.

(** [eta = workload_minutes + travel_time; return eta, travel_time]:
    [workload_minutes] is the [int] [0] or the [float] of the loop,
    [travel_time] is an [int]. *)
Definition eta_result (workload_minutes : number) (travel_time : Z)
  : Res (eta_t * Z) :=
  match workload_minutes with
  | Int workload => Ok (Int (workload + travel_time), travel_time)
  | Float workload =>
      res_bind (float_of_int travel_time)
        (fun minutes => Ok (Float (workload + minutes)%float, travel_time))
  end.

Definition calculate_locksmith_eta (env : Env) (locksmith : Locksmith)
    (new_job_address : option str) (new_job_coords : option coords)
    : M (eta_t * Z) :=
  let locksmith_id := get_or (locksmithId locksmith) (of_string "unknown") in
  w <- get_world ;;
  let company_name := CURRENT_COMPANY w in
  match jobQueue locksmith with
  | [] =>
      match base_address locksmith with
      | Some base =>
          travel_time <- calculate_travel_time_with_coords env
                           (Some (ba_address base)) new_job_address
                           (ba_coords base) new_job_coords ;;
          lift (eta_result (Int 0) travel_time)
      | None =>
          let configured :=
            match company_name with
            | Some name => dict_get LOCKSMITH_BASE_ADDRESSES name
            | None => None
            end in
          if negb (opt_truthy configured) then ret (Infinite, 0%Z)
          else
            let address := get_or configured [] in
            found <- geocode_with_fuzzy_matching env (Some address) ;;
            match found with
            | Some c =>
                emit (Dynamo_update_item
                        match company_name with
                        | Some name => dict_get COMPANY_TABLE_MAPPING name
                        | None => None
                        end
                        locksmith_id
                        {| ba_address := address; ba_coords := Some c |})
            | None => ret tt
            end ;;;
            travel_time <- calculate_travel_time_with_coords env
                             (Some address) new_job_address
                             found new_job_coords ;;
            lift (eta_result (Int 0) travel_time)
      end
  | first_job :: _ =>
      let job_queue := jobQueue locksmith in
      let workload_minutes := queue_workload job_queue in
      let last_job := last job_queue first_job in
      travel_time <- calculate_travel_time_with_coords env
                       (job_address last_job) new_job_address
                       (job_coords last_job) new_job_coords ;;
      lift (eta_result (Float workload_minutes) travel_time)
  end.

Definition update_next_available_cache (env : Env) (company_name : option str)
    (locksmith_id : option str) (travel_time : Z)
    (new_job_coords : option coords) (new_job_address : option str) : M unit :=
  w <- get_world ;;
  emit (Dynamo_put_item
          {| ci_companyName := company_name;
             ci_locksmithId := locksmith_id;
             ci_travelTime := travel_time;
             ci_ttl := (time_time env (trace w) + 300)%Z;
             ci_jobAddress :=
               if opt_truthy new_job_address then new_job_address else None;
             ci_latitude := option_map fst new_job_coords;
             ci_longitude := option_map snd new_job_coords |}).

(** The state of the selection loop. *)
Record Earliest : Type := {
  earliest_eta : eta_t;
  earliest_locksmith_id : option str;
  earliest_travel_time : Z
}.

Definition initial_earliest : Earliest :=
  {| earliest_eta := Infinite;
     earliest_locksmith_id := None;
     earliest_travel_time := 0%Z |}.

(** [if eta < earliest_eta: ...] *)
Definition consider (best : Earliest) (locksmith : Locksmith)
    (result : eta_t * Z) : Earliest :=
  if eta_lt (fst result) (earliest_eta best)
  then {| earliest_eta := fst result;
          earliest_locksmith_id := locksmithId locksmith;
          earliest_travel_time := snd result |}
  else best.

(** [for locksmith in locksmiths: ...] *)
Fixpoint earliest_loop (env : Env) (locksmiths : list Locksmith)
    (new_job_address : option str) (new_job_coords : option coords)
    (best : Earliest) : M Earliest :=
  match locksmiths with
  | [] => ret best
  | locksmith :: rest =>
      result <- calculate_locksmith_eta env locksmith new_job_address
                  new_job_coords ;;
      earliest_loop env rest new_job_address new_job_coords
        (consider best locksmith result)
  end.

Definition find_earliest_locksmith (env : Env) (locksmiths : list Locksmith)
    (new_job_address : option str) : M (option str * eta_t) :=
  match locksmiths with
  | [] => ret (None, Infinite)
  | _ =>
      w <- get_world ;;
      let company_name := CURRENT_COMPANY w in
      new_job_coords <- geocode_with_fuzzy_matching env new_job_address ;;
      best <- earliest_loop env locksmiths new_job_address new_job_coords
                initial_earliest ;;
      update_next_available_cache env company_name
        (earliest_locksmith_id best) (earliest_travel_time best)
        new_job_coords new_job_address ;;;
      ret (earliest_locksmith_id best, earliest_eta best)
  end.

End DynamoUtils.

(* ================================================================== *)
(** ** lambda_function.py, and the rest of metrics.py and dynamo_utils.py *)

(** The request path of the handler, from the point where
    [extract_parameters_from_event] has returned: [new_job_address] and
    [company_name] are strings or [None].  The scan of the technicians' table
    and the hand-over of the metrics are events of their own, beside those of
    [World]. *)
Module LambdaFunction.
Import PyStr Py Config Data Runtime Metrics AddressUtils TravelTime DynamoUtils.

(** The item [process_metrics_batch] writes to [FuzzyAddressMetrics]. *)
Record MetricItem : Type := {
  mi_timestamp : str;
  mi_variationType : str;
  mi_success : bool;
  mi_ttl : Z
}.

Inductive CloudEvent : Type :=
| Dynamo_scan (table_name : str)
  (* a daemon thread was started that invokes the function asynchronously
     with [{'action': 'record_metrics_batch', 'metrics': metrics}] *)
| Thread_invoke_async (metrics : list MetricEvent)
  (* [boto3.resource], [Table] and [table.batch_writer()] were called *)
| Batch_writer
  (* [batch.put_item(Item=item)] *)
| Batch_put_item (item : MetricItem)
  (* the [with] block was left, which flushes the writer *)
| Batch_writer_exit.

(** - [dynamo_scan]: the [Items] of the response ([Some []] when the key is
      missing), or [None] for the exception the source catches;
    - [thread_starts]: whether [thread.start()] returns; its exception is
      caught and logged;
    - [batch_writer], [batch_put_item], [batch_writer_exit]: [None] when the
      call returns, or [str(e)] of the exception it raises;
    - [batch_time]: [int(time.time())] in [process_metrics_batch]. *)
Record Cloud : Type := {
  dynamo_scan : list CloudEvent -> str -> option (list Locksmith);
  thread_starts : list CloudEvent -> bool;
  batch_writer : list CloudEvent -> option str;
  batch_put_item : list CloudEvent -> MetricItem -> option str;
  batch_writer_exit : list CloudEvent -> option str;
  batch_time : list CloudEvent -> Z
}.

Record Process : Type := {
  world : World;
  cloud_log : list CloudEvent
}.

Definition get_locksmiths (cloud : Cloud) (table_name : str) (p : Process)
  : list Locksmith * Process :=
  (match dynamo_scan cloud (cloud_log p) table_name with
   | Some locksmiths => locksmiths
   | None => []
   end,
   {| world := world p;
      cloud_log := cloud_log p ++ [Dynamo_scan table_name] |}).

(** [_metrics_to_record = []] *)
Definition clear_metrics (w : World) : World :=
  {| _here_api_key := _here_api_key w;
     _metrics_to_record := [];
     CURRENT_COMPANY := CURRENT_COMPANY w;
     trace := trace w |}.

(** [context] is [None], or the context object, given by what its
    [get_remaining_time_in_millis()] answers. *)
Definition flush_metrics (cloud : Cloud) (context : option Z) (p : Process)
  : Process :=
  match _metrics_to_record (world p) with
  | [] => p
  | _ :: _ =>
      if match context with
         | Some remaining => (remaining <? 100)%Z
         | None => false
         end
      then {| world := clear_metrics (world p); cloud_log := cloud_log p |}
      else
        let metrics_to_flush := _metrics_to_record (world p) in
        {| world := clear_metrics (world p);
           cloud_log :=
             if thread_starts cloud (cloud_log p)
             then cloud_log p ++ [Thread_invoke_async metrics_to_flush]
             else cloud_log p |}
  end.

(** The dictionary given to [json.dumps] for the body, or the body's text. *)
Inductive Body : Type :=
| Error (message : str)                    (* {'error': message} *)
| Internal_server_error (e : Exn)          (* 'Internal server error: ' + str(e) *)
| Earliest_locksmith (locksmithId : option str) (etaMinutes : eta_t)
| No_metrics_to_process                    (* 'No metrics to process' *)
| Processed_metrics (count : nat)          (* f'Processed {len(metrics)} metrics' *)
| Error_processing_metrics (message : str). (* 'Error processing metrics: ' + str(e) *)

Record Response : Type := {
  statusCode : Z;
  body : Body
}.

(** [Item={...}] for a metric. *)
Definition metric_item (cloud : Cloud) (log : list CloudEvent)
    (metric : MetricEvent) : MetricItem :=
  {| mi_timestamp := timestamp metric;
     mi_variationType := variation_type metric;
     mi_success := success metric;
     mi_ttl := (batch_time cloud log + 30 * 24 * 60 * 60)%Z |}.

(** [for metric in metrics: batch.put_item(Item={...})]: the exception that
    ended the loop, if any, and the calls made. *)
Fixpoint put_metrics (cloud : Cloud) (metrics : list MetricEvent)
    (log : list CloudEvent) : option str * list CloudEvent :=
  match metrics with
  | [] => (None, log)
  | metric :: rest =>
      let item := metric_item cloud log metric in
      match batch_put_item cloud log item with
      | Some e => (Some e, log ++ [Batch_put_item item])
      | None => put_metrics cloud rest (log ++ [Batch_put_item item])
      end
  end.

(** The [with] block is left through the writer's [__exit__] also when the
    loop raised; an exception of the exit replaces that of the loop. *)
Definition process_metrics_batch (cloud : Cloud) (metrics : list MetricEvent)
    (p : Process) : Response * Process :=
  match metrics with
  | [] => ({| statusCode := 200; body := No_metrics_to_process |}, p)
  | _ :: _ =>
      let entered := cloud_log p ++ [Batch_writer] in
      match batch_writer cloud (cloud_log p) with
      | Some e =>
          ({| statusCode := 500; body := Error_processing_metrics e |},
           {| world := world p; cloud_log := entered |})
      | None =>
          let (raised, written) := put_metrics cloud metrics entered in
          let outcome :=
            match batch_writer_exit cloud written with
            | Some e => Some e
            | None => raised
            end in
          (match outcome with
           | Some e =>
               {| statusCode := 500; body := Error_processing_metrics e |}
           | None =>
               {| statusCode := 200;
                  body := Processed_metrics (List.length metrics) |}
           end,
           {| world := world p;
              cloud_log := written ++ [Batch_writer_exit] |})
      end
  end.

(** [CURRENT_COMPANY = company_name] *)
Definition set_current_company (company_name : option str) (w : World)
  : World :=
  {| _here_api_key := _here_api_key w;
     _metrics_to_record := _metrics_to_record w;
     CURRENT_COMPANY := company_name;
     trace := trace w |}.

(** The event, as the handler reads it: a metrics batch
    ([event.get('action') == 'record_metrics_batch'], with the list
    [event.get('metrics', [])]), or a request, with the two parameters that
    [extract_parameters_from_event] finds in it, each [None] or a string. *)
Inductive LambdaEvent : Type :=
| Record_metrics_batch (metrics : list MetricEvent)
| Get_eta (new_job_address company_name : option str).

Definition lambda_handler (env : Env) (cloud : Cloud) (event : LambdaEvent)
    (context : option Z) (p : Process) : Response * Process :=
  match event with
  | Record_metrics_batch metrics => process_metrics_batch cloud metrics p
  | Get_eta new_job_address company_name =>
      if negb (opt_truthy new_job_address) then
        ({| statusCode := 400;
            body := Error (of_string "Missing required parameter: address") |}, p)
      else if negb (opt_truthy company_name) then
        ({| statusCode := 400;
            body := Error (of_string "Missing required parameter: company") |}, p)
      else
        let p := {| world := set_current_company company_name (world p);
                    cloud_log := cloud_log p |} in
        let table_name := dict_get COMPANY_TABLE_MAPPING (get_or company_name []) in
        if negb (opt_truthy table_name) then
          ({| statusCode := 400;
              body := Error (of_string "Unknown company: "
                             ++ get_or company_name []) |}, p)
        else
          let (locksmiths, p) := get_locksmiths cloud (get_or table_name []) p in
          match locksmiths with
          | [] =>
              ({| statusCode := 404;
                  body := Error (of_string "No locksmiths found in the table") |},
               p)
          | _ :: _ =>
              match find_earliest_locksmith env locksmiths new_job_address
                      (world p) with
              | (Ok (earliest_locksmith_id, earliest_eta), w') =>
                  ({| statusCode := 200;
                      body := Earliest_locksmith earliest_locksmith_id
                                earliest_eta |},
                   flush_metrics cloud context
                     {| world := w'; cloud_log := cloud_log p |})
              | (Raise e, w') =>
                  ({| statusCode := 500; body := Internal_server_error e |},
                   {| world := w'; cloud_log := cloud_log p |})
              end
          end
  end.

End LambdaFunction.

(* ================================================================== *)
(** * Properties *)

(** ** The transforms on the specification's example address *)

Module TransformExamples.
Import PyStr AddressUtils.

Definition example_address : str :=
  of_string "123 Main Street Apt 4B, Springfield, VA 22150".

(** C5, as the specification words it, does not hold: [str.title] starts a
    new word after the digit of "4B", and removing "Apt 4B" leaves the blank
    that preceded it in front of the comma. *)
Lemma C5_claimed_outputs_refuted :
  ~ (normalize_address example_address
       = of_string "123 Main St Apt 4b, Springfield, Va 22150"
     /\ remove_unit example_address
       = of_string "123 Main Street, Springfield, VA 22150"
     /\ extract_street_zip example_address
       = of_string "123 Main Street Apt 4B, 22150").
Proof.
  intros [H _]. vm_compute in H. discriminate H.
Qed.

(** C5, amended: on "123 Main Street Apt 4B, Springfield, VA 22150" the
    Normalized transform returns "123 Main St Apt 4B, Springfield, Va 22150",
    the NoUnit transform returns "123 Main Street , Springfield, VA 22150",
    and the StreetZip transform returns "123 Main Street Apt 4B, 22150". *)
Theorem C5_transforms_on_example :
  normalize_address example_address
    = of_string "123 Main St Apt 4B, Springfield, Va 22150"
  /\ remove_unit example_address
    = of_string "123 Main Street , Springfield, VA 22150"
  /\ extract_street_zip example_address
    = of_string "123 Main Street Apt 4B, 22150".
Proof.
  repeat split; vm_compute; reflexivity.
Qed.

End TransformExamples.

(* ================================================================== *)
(** ** The Geocoder *)

Module GeocoderFacts.
Import PyStr Re Py Config Data Runtime Metrics AddressUtils.
Local Open Scope monad_scope.

Ltac run_step :=
  unfold bind, ret, lift, get_world, emit, set_here_api_key, append_metric;
  cbn [fst snd _here_api_key _metrics_to_record CURRENT_COMPANY trace].

(** The world on entry to the Geocoder's body: the call has been logged. *)
Definition entered (w : World) (original_address : option str) : World :=
  snd (emit (Call_geocode_with_fuzzy_matching original_address) w).


Definition attempted (a : VariationKey * str) : bool := truthy (snd a).


Definition request (a : VariationKey * str) : Event := Http_geocode (snd a).

(** What a metric event says: its tag and its success flag. *)
Definition says (m : MetricEvent) : str * bool := (variation_type m, success m).

Definition failure (a : VariationKey * str) : str * bool :=
  (VARIATION_TYPES (fst a), false).

Definition winner_list {C} (winner : option ((VariationKey * str) * C))
  : list (VariationKey * str) :=
  match winner with
  | Some (a, _) => [a]
  | None => []
  end.

(** [get_here_api_key], case by case: a key in the cache is returned as it
    is; otherwise the parameter store is called, and its value is cached and
    returned, its [ClientError] gives [None], any other exception
    propagates. *)
Definition asked (w : World) : World := snd (emit Ssm_get_parameter w).

Lemma get_here_api_key_cases env w :
  get_here_api_key env w
  = if opt_truthy (_here_api_key w) then (Ok (_here_api_key w), w)
    else
      match ssm_get_parameter env (trace w) with
      | Ok (Some value) =>
          (Ok (Some value), snd (set_here_api_key (Some value) (asked w)))
      | Ok None => (Ok None, asked w)
      | Raise e => (Raise e, asked w)
      end.
Proof.
  unfold get_here_api_key, asked. run_step.
  destruct (opt_truthy (_here_api_key w)); [reflexivity|].
  destruct (ssm_get_parameter env (trace w)) as [[value|]|e]; reflexivity.
Qed.


(** A key that [get_here_api_key] returns is in the cache afterwards, unless
    it is the empty value the cache already held. *)
Lemma get_here_api_key_cached env w key w1 :
  get_here_api_key env w = (Ok (Some key), w1) ->
  _here_api_key w1 = Some key.
Proof.
  rewrite get_here_api_key_cases.
  destruct (opt_truthy (_here_api_key w)).
  - intros H. injection H as H <-. exact H.
  - destruct (ssm_get_parameter env (trace w)) as [[value|]|e];
      intros H; try discriminate H.
    injection H as <- <-. reflexivity.
Qed.

Lemma geocoder_entry env w address :
  truthy address = true ->
  geocode_with_fuzzy_matching env (Some address) w
  = match get_here_api_key env (entered w (Some address)) with
    | (Ok api_key, w1) =>
        if negb (opt_truthy api_key) then (Ok None, w1)
        else try_variations env api_key 0 (variations address) w1
    | (Raise e, w1) => (Raise e, w1)
    end.
Proof.
  intros H. unfold geocode_with_fuzzy_matching. rewrite H. cbn [negb].
  unfold bind at 1.
  change (emit (Call_geocode_with_fuzzy_matching (Some address)) w)
    with (Ok tt, entered w (Some address)).
  cbv iota beta. unfold bind.
  destruct (get_here_api_key env (entered w (Some address))) as [[k|e] w1];
    [|reflexivity].
  destruct (negb (opt_truthy k)); reflexivity.
Qed.


(** The claim's cases at concrete worlds: a parameter store that answers
    with a [ClientError], and one whose call raises another exception. *)
Definition no_libm : PyMath.Libm :=
  {| PyMath.libm_sin := fun x => x;
     PyMath.libm_cos := fun x => x;
     PyMath.libm_atan2 := fun x _ => x;
     PyMath.libm_pow := fun x _ => x |}.

Definition env_without_credential : Env :=
  {| ssm_get_parameter := fun _ => Ok None;
     here_geocode := fun _ _ => Some (1%float, 2%float);
     here_route := fun _ _ _ => None;
     datetime_now := fun _ => [];
     time_time := fun _ => 0%Z;
     libm := no_libm |}.


Definition fresh_world : World :=
  {| _here_api_key := None;
     _metrics_to_record := [];
     CURRENT_COMPANY := Some (of_string "QuickFix");
     trace := [] |}.



(** *** The variant loop *)

Definition all_keys : list VariationKey :=
  [ORIGINAL; NORMALIZED; NO_UNIT; NO_SECONDARY; STREET_CITY_STATE; STREET_ZIP].

Definition success_of {C} (winner : option ((VariationKey * str) * C))
  : list (str * bool) :=
  match winner with
  | Some (a, _) => [(VARIATION_TYPES (fst a), true)]
  | None => []
  end.

(** What one run of the loop over the attempts [att] did, from world [w] to
    world [w']: the attempts [failed] were answered with no position, then
    [winner], if any, was answered with one, and [untried] were never sent. *)
Record loop_run (env : Env) (att : list (VariationKey * str)) (w w' : World)
    (result : option coords)
    (failed : list (VariationKey * str))
    (winner : option ((VariationKey * str) * coords))
    (untried : list (VariationKey * str)) : Prop := {
  run_result : result = option_map snd winner;
  run_order : att = failed ++ winner_list winner ++ untried;
  run_exhausted : winner = None -> untried = [];
  run_failed : forall pre a post, failed = pre ++ a :: post ->
      here_geocode env (trace w ++ map request pre) (snd a) = None;
  run_winner : forall a c, winner = Some (a, c) ->
      here_geocode env (trace w ++ map request failed) (snd a) = Some c;
  run_trace : trace w' = trace w ++ map request (failed ++ winner_list winner);
  run_metrics : exists news,
      _metrics_to_record w' = _metrics_to_record w ++ news
      /\ map says news = map failure failed ++ success_of winner
}.

Lemma skipn_all_keys i :
  i < 6 ->
  skipn i all_keys = nth i all_keys ORIGINAL :: skipn (S i) all_keys.
Proof.
  intros H. do 6 (destruct i as [|i]; [reflexivity|]). lia.
Qed.

Lemma nth_variation_types i :
  i < 6 ->
  nth i variation_types [] = VARIATION_TYPES (nth i all_keys ORIGINAL).
Proof.
  intros H. do 6 (destruct i as [|i]; [reflexivity|]). lia.
Qed.

Lemma try_variations_run env key :
  truthy key = true ->
  forall vs i w,
    i + List.length vs <= 6 ->
    exists w' result failed winner untried,
      try_variations env (Some key) i vs w = (Ok result, w')
      /\ loop_run env (filter attempted (combine (skipn i all_keys) vs))
           w w' result failed winner untried.
Proof.
  intros Hkey. induction vs as [|v rest IH]; intros i w Hlen.
  - exists w, None, [], None, [].
    split; [reflexivity|].
    replace (combine (skipn i all_keys) []) with (@nil (VariationKey * str))
      by (destruct (skipn i all_keys); reflexivity).
    constructor; cbn; try reflexivity; try congruence.
    + intros pre a post H. destruct pre; discriminate H.
    + rewrite app_nil_r. reflexivity.
    + exists []. rewrite app_nil_r. split; reflexivity.
  - cbn [List.length] in Hlen.
    rewrite skipn_all_keys by lia. cbn [combine filter].
    unfold attempted at 1. cbn [snd try_variations].
    destruct (truthy v) eqn:Hv; cbn [negb].
    2:{ apply IH. lia. }
    unfold geocode_address. cbn [opt_truthy]. rewrite Hv, Hkey. cbn [negb orb].
    unfold record_geocoding_success. run_step.
    rewrite nth_variation_types by lia.
    set (k := nth i all_keys ORIGINAL).
    destruct (here_geocode env (trace w) v) as [c|] eqn:Hg.
    + eexists _, (Some c), [], (Some ((k, v), c)), _.
      split; [reflexivity|].
      constructor; cbn; try reflexivity; try congruence.
      * intros pre a post H. destruct pre; discriminate H.
      * intros a c0 H. injection H as <- <-. rewrite app_nil_r. exact Hg.
      * eexists. split; reflexivity.
    + match goal with
      | |- context [try_variations env (Some key) (S i) rest ?w1] =>
          destruct (IH (S i) w1 ltac:(lia))
            as (w' & result & failed & winner & untried & Hrun & R)
      end.
      exists w', result, ((k, v) :: failed), winner, untried.
      split; [exact Hrun|].
      destruct R as [R1 R2 R3 R4 R5 R6 (news & R7 & R8)].
      cbn [trace _metrics_to_record] in *.
      constructor.
      * exact R1.
      * rewrite R2. reflexivity.
      * exact R3.
      * intros pre a post H. destruct pre as [|p pre].
        -- injection H as <- _. cbn. rewrite app_nil_r. exact Hg.
        -- injection H as <- H. cbn [map]. specialize (R4 pre a post H).
           rewrite <- app_assoc in R4. exact R4.
      * intros a c H. specialize (R5 a c H).
        rewrite <- app_assoc in R5. exact R5.
      * rewrite R6, <- app_assoc. reflexivity.
      * eexists. split.
        -- rewrite R7, <- app_assoc. reflexivity.
        -- cbn [map app]. rewrite R8. reflexivity.
Qed.

(** A substitution with a non-empty replacement leaves a non-empty string
    non-empty, so the Normalized variant of an address is never skipped. *)
Lemma re_sub_truthy r repl s :
  truthy repl = true -> truthy s = true -> truthy (re_sub r repl s) = true.
Proof.
  intros Hr Hs. destruct s as [|c s']; [discriminate Hs|].
  unfold re_sub. cbn [sub_go].
  destruct (match_at r None (c :: s')) as [[[? rest] ?]|]; [|reflexivity].
  destruct (List.length (c :: s') - List.length rest); [reflexivity|].
  destruct repl; [discriminate Hr|reflexivity].
Qed.

Lemma normalize_address_truthy address :
  truthy address = true -> truthy (normalize_address address) = true.
Proof.
  intros H. unfold normalize_address. rewrite H. cbn [negb].
  assert (Hfold : forall m s,
             Forall (fun e => truthy (snd e) = true) m ->
             truthy s = true -> truthy (fold_left replace_abbrev m s) = true).
  { induction m as [|e m IH]; intros s Hm Hs; [exact Hs|].
    inversion Hm; subst. cbn [fold_left]. apply IH; [assumption|].
    apply re_sub_truthy; assumption. }
  assert (Hu : truthy (upper address) = true)
    by (destruct address; [discriminate H|reflexivity]).
  specialize (Hfold abbrev_map (upper address)).
  destruct (fold_left replace_abbrev abbrev_map (upper address)).
  - discriminate Hfold; [|exact Hu]. repeat constructor.
  - reflexivity.
Qed.



(** The specification's scenario: the provider resolves only the NoUnit
    variant of "123 Main Street Apt 4B, Springfield, VA 22150". *)
Definition example_address : str :=
  of_string "123 Main Street Apt 4B, Springfield, VA 22150".

Definition env_only_no_unit : Env :=
  {| ssm_get_parameter := fun _ => Ok (Some (of_string "here-api-key"));
     here_geocode := fun _ a =>
       if eqb a (remove_unit example_address)
       then Some (0x1.3666666666666p+5, -0x1.34ccccccccccdp+6)%float
       else None;
     here_route := fun _ _ _ => None;
     datetime_now := fun _ => [];
     time_time := fun _ => 0%Z;
     libm := no_libm |}.


End GeocoderFacts.

(* ================================================================== *)
(** ** Facts of binary64 arithmetic *)

(** What the haversine computation needs of IEEE 754: negation commutes with
    rounding, so subtraction is antisymmetric, division is odd in its dividend
    and multiplication commutes. *)
Unset Implicit Arguments.

Module FloatFacts.

Local Open Scope float_scope.

Lemma SFopp_involutive x : SFopp (SFopp x) = x.
Proof. destruct x; cbn; rewrite ?Bool.negb_involutive; reflexivity. Qed.

Lemma binary_round_aux_opp s m e l :
  SFopp (binary_round_aux prec emax s m e l)
  = binary_round_aux prec emax (negb s) m e l.
Proof.
  unfold binary_round_aux.
  destruct (shr_fexp prec emax m e l) as [mrs e1].
  destruct (shr_fexp prec emax _ e1 loc_Exact) as [mrs2 e2].
  destruct (shr_m mrs2); try reflexivity.
  destruct (Z.leb e2 (Z.sub emax prec)); reflexivity.
Qed.

Lemma binary_round_opp s m e :
  SFopp (binary_round prec emax s m e) = binary_round prec emax (negb s) m e.
Proof.
  unfold binary_round.
  destruct (shl_align m e _) as [mz ez]. apply binary_round_aux_opp.
Qed.

Lemma binary_normalize_opp m e :
  m <> 0%Z ->
  binary_normalize prec emax (- m) e false
  = SFopp (binary_normalize prec emax m e false).
Proof.
  intros H. destruct m; [congruence| |]; cbn [Z.opp binary_normalize];
    rewrite binary_round_opp; reflexivity.
Qed.

Lemma SFsub_swap x y :
  SFsub prec emax y x = SFopp (SFsub prec emax x y)
  \/ SFsub prec emax y x = SFsub prec emax x y.
Proof.
  destruct x as [sx|sx| |sx mx ex], y as [sy|sy| |sy my ey].
  16:{ unfold SFsub. rewrite (Z.min_comm ey ex).
       set (ez := Z.min ex ey).
       set (X := cond_Zopp sx (Zpos (fst (shl_align mx ex ez)))).
       set (Y := cond_Zopp sy (Zpos (fst (shl_align my ey ez)))).
       replace (Y - X)%Z with (- (X - Y))%Z by lia.
       destruct (Z.eq_dec (X - Y) 0) as [E|E].
       - right. rewrite E. reflexivity.
       - left. apply binary_normalize_opp. exact E. }
  all: try (destruct sx); try (destruct sy); cbn;
    try (left; reflexivity); try (right; reflexivity).
Qed.

Lemma sub_swap x y : y - x = - (x - y) \/ y - x = x - y.
Proof.
  destruct (SFsub_swap (Prim2SF x) (Prim2SF y)) as [H|H]; [left|right];
    apply Prim2SF_inj; rewrite ?opp_spec, !sub_spec; exact H.
Qed.

Lemma xorb_negb_l a b : xorb (negb a) b = negb (xorb a b).
Proof. destruct a, b; reflexivity. Qed.

Lemma SFdiv_opp x y :
  SFdiv prec emax (SFopp x) y = SFopp (SFdiv prec emax x y).
Proof.
  destruct x as [sx|sx| |sx mx ex], y as [sy|sy| |sy my ey];
    cbn; rewrite ?xorb_negb_l; try reflexivity.
  destruct (SFdiv_core_binary prec emax (Zpos mx) ex (Zpos my) ey) as [[mz ez] lz].
  rewrite binary_round_aux_opp. reflexivity.
Qed.

Lemma div_opp x y : (- x) / y = - (x / y).
Proof.
  apply Prim2SF_inj. rewrite opp_spec, !div_spec, opp_spec. apply SFdiv_opp.
Qed.

Lemma SFmul_comm x y : SFmul prec emax x y = SFmul prec emax y x.
Proof.
  destruct x as [sx|sx| |sx mx ex], y as [sy|sy| |sy my ey];
    cbn; rewrite ?(Bool.xorb_comm sy sx); try reflexivity.
  rewrite (Pos.mul_comm my mx), (Z.add_comm ey ex). reflexivity.
Qed.

Lemma mul_comm x y : x * y = y * x.
Proof. apply Prim2SF_inj. rewrite !mul_spec. apply SFmul_comm. Qed.

Lemma opp_involutive x : - - x = x.
Proof. apply Prim2SF_inj. rewrite !opp_spec. apply SFopp_involutive. Qed.

Lemma abs_opp x : abs (- x) = abs x.
Proof.
  apply Prim2SF_inj. rewrite !abs_spec, opp_spec.
  destruct (Prim2SF x); reflexivity.
Qed.

Lemma SFcompare_refl_finite s m e :
  SFcompare (S754_finite s m e) (S754_finite s m e) = Some Eq.
Proof.
  cbn. rewrite Z.compare_refl, Pos.compare_cont_refl. destruct s; reflexivity.
Qed.

Lemma is_nan_spec x :
  is_nan x = match Prim2SF x with S754_nan => true | _ => false end.
Proof.
  unfold is_nan. rewrite eqb_spec. unfold SFeqb.
  destruct (Prim2SF x) as [s|s| |s m e].
  - destruct s; reflexivity.
  - destruct s; reflexivity.
  - reflexivity.
  - rewrite SFcompare_refl_finite. reflexivity.
Qed.

Lemma is_nan_opp x : is_nan (- x) = is_nan x.
Proof.
  rewrite !is_nan_spec, opp_spec. destruct (Prim2SF x); reflexivity.
Qed.

Lemma is_infinity_opp x : is_infinity (- x) = is_infinity x.
Proof. unfold is_infinity. rewrite abs_opp. reflexivity. Qed.

Lemma is_finite_opp x : is_finite (- x) = is_finite x.
Proof. unfold is_finite. rewrite is_nan_opp, is_infinity_opp. reflexivity. Qed.

Lemma Prim2SF_zero : Prim2SF 0 = S754_zero false.
Proof. reflexivity. Qed.

Lemma eqb_zero_opp x : (- x =? 0) = (x =? 0).
Proof.
  rewrite !eqb_spec, opp_spec, Prim2SF_zero.
  destruct (Prim2SF x) as [s|s| |s m e]; try destruct s; reflexivity.
Qed.

(** A negative base of [**] is replaced by its absolute value: the base used
    for [- x] is the base used for [x]. *)
Lemma pow_base_opp x :
  is_nan x = false -> (x =? 0) = false ->
  (if - x <? 0 then - - x else - x) = (if x <? 0 then - x else x).
Proof.
  intros Hn Hz. rewrite is_nan_spec in Hn. rewrite eqb_spec, Prim2SF_zero in Hz.
  rewrite !ltb_spec, opp_spec, Prim2SF_zero, opp_involutive.
  destruct (Prim2SF x) as [s|s| |s m e]; try discriminate;
    destruct s; try reflexivity; discriminate.
Qed.

End FloatFacts.

(* ================================================================== *)
(** ** The Travel Estimator *)

Module TravelTimeFacts.
Import PyStr Py PyMath Config Data Runtime AddressUtils TravelTime.
Import GeocoderFacts FloatFacts.
Local Open Scope float_scope.

(** [math.sin(z)**2] *)
Definition sin_squared (lm : Libm) (z : float) : Res float :=
  res_bind (math_sin lm z) (float_pow_2 lm).

(** From [a] to the number of minutes. *)
Definition minutes_of_a (lm : Libm) (a : float) : Res Z :=
  res_bind (math_sqrt a) (fun sqrt_a =>
  res_bind (math_sqrt (1 - a)) (fun sqrt_1_a =>
  res_bind (math_atan2 lm sqrt_a sqrt_1_a) (fun angle =>
  math_ceil
    (EARTH_RADIUS_KM * (2 * angle) * ROAD_NETWORK_MULTIPLIER / AVG_SPEED_KMH
     * 60)))).

(** The haversine part of [calculate_travel_time_fallback] as a function of
    the two coordinate pairs. *)
Definition haversine (lm : Libm) (origin dest : coords) : Res Z :=
  let lat1_rad := math_radians (fst origin) in
  let lon1_rad := math_radians (snd origin) in
  let lat2_rad := math_radians (fst dest) in
  let lon2_rad := math_radians (snd dest) in
  res_bind (sin_squared lm ((lat2_rad - lat1_rad) / 2)) (fun sin_dlat_2 =>
  res_bind (math_cos lm lat1_rad) (fun cos_lat1 =>
  res_bind (math_cos lm lat2_rad) (fun cos_lat2 =>
  res_bind (sin_squared lm ((lon2_rad - lon1_rad) / 2)) (fun sin_dlon_2 =>
  minutes_of_a lm (sin_dlat_2 + cos_lat1 * cos_lat2 * sin_dlon_2))))).

Lemma fallback_with_coords env origin_address dest_address origin dest w :
  calculate_travel_time_fallback env origin_address dest_address
    (Some origin) (Some dest) w
  = (haversine (libm env) origin dest, w).
Proof.
  destruct origin as [lat1 lon1], dest as [lat2 lon2].
  unfold calculate_travel_time_fallback, haversine, sin_squared, minutes_of_a,
    coords_or_geocode, bind, ret, lift, res_bind.
  cbn [fst snd].
  repeat match goal with
         | |- context [match ?r with Ok _ => _ | Raise _ => _ end] =>
             destruct r; try reflexivity
         end.
Qed.

Lemma opp_nan x : is_nan x = true -> - x = x.
Proof.
  intros H. apply Prim2SF_inj. rewrite opp_spec. rewrite is_nan_spec in H.
  destruct (Prim2SF x); try discriminate H. reflexivity.
Qed.

Lemma math_1_odd func x :
  func (- x) = - func x ->
  math_1 func (- x)
  = match math_1 func x with Ok r => Ok (- r) | Raise e => Raise e end.
Proof.
  intros H. unfold math_1. rewrite H.
  rewrite !is_nan_opp, is_infinity_opp, is_finite_opp.
  destruct (is_nan (func x) && negb (is_nan x))%bool; [reflexivity|].
  destruct (is_infinity (func x) && is_finite x)%bool; reflexivity.
Qed.

Lemma math_1_raises func x e : math_1 func x = Raise e -> e = ValueError.
Proof.
  unfold math_1.
  destruct (is_nan (func x) && negb (is_nan x))%bool; [congruence|].
  destruct (is_infinity (func x) && is_finite x)%bool; congruence.
Qed.

Lemma float_pow_2_even lm x : float_pow_2 lm (- x) = float_pow_2 lm x.
Proof.
  unfold float_pow_2. rewrite is_nan_opp, is_infinity_opp, eqb_zero_opp, abs_opp.
  destruct (is_nan x) eqn:Hn; [rewrite (opp_nan x Hn); reflexivity|].
  destruct (is_infinity x); [reflexivity|].
  destruct (x =? 0) eqn:Hz; [reflexivity|].
  rewrite (pow_base_opp x Hn Hz). reflexivity.
Qed.

Section OddSine.

Variable lm : Libm.
Hypothesis sin_odd : forall x, libm_sin lm (- x) = - libm_sin lm x.

Lemma sin_squared_even z : sin_squared lm (- z) = sin_squared lm z.
Proof.
  unfold sin_squared, math_sin. rewrite (math_1_odd _ _ (sin_odd z)).
  destruct (math_1 (libm_sin lm) z); cbn [res_bind]; [|reflexivity].
  apply float_pow_2_even.
Qed.

Lemma sin_squared_half_difference x y :
  sin_squared lm ((y - x) / 2) = sin_squared lm ((x - y) / 2).
Proof.
  destruct (sub_swap x y) as [H|H]; rewrite H; [|reflexivity].
  rewrite div_opp. apply sin_squared_even.
Qed.

Lemma haversine_symmetric origin dest :
  haversine lm origin dest = haversine lm dest origin.
Proof.
  unfold haversine.
  rewrite (sin_squared_half_difference (math_radians (fst origin))
             (math_radians (fst dest))).
  rewrite (sin_squared_half_difference (math_radians (snd origin))
             (math_radians (snd dest))).
  destruct (sin_squared lm _) as [p1|e1]; cbn [res_bind]; [|reflexivity].
  unfold math_cos.
  destruct (math_1 (libm_cos lm) (math_radians (fst origin))) as [c1|e1] eqn:E1;
    destruct (math_1 (libm_cos lm) (math_radians (fst dest))) as [c2|e2] eqn:E2;
    cbn [res_bind].
  - rewrite (mul_comm c2 c1). reflexivity.
  - reflexivity.
  - reflexivity.
  - rewrite (math_1_raises _ _ _ E1), (math_1_raises _ _ _ E2). reflexivity.
Qed.

End OddSine.

(** C9: with both coordinate pairs given, the fallback estimate from A to B
    is the fallback estimate from B to A (the same number of minutes, or the
    same exception), on every platform whose [sin] is an odd function. *)
Theorem C9_fallback_symmetric env w address_a address_b a b :
  (forall x, libm_sin (libm env) (- x) = - libm_sin (libm env) x) ->
  calculate_travel_time_fallback env address_a address_b (Some a) (Some b) w
  = calculate_travel_time_fallback env address_b address_a (Some b) (Some a) w.
Proof.
  intros Hodd. rewrite !fallback_with_coords.
  rewrite (haversine_symmetric (libm env) Hodd a b). reflexivity.
Qed.

Lemma C9_witness :
  calculate_travel_time_fallback env_without_credential None None
    (Some (1, 2)) (Some (3, 4)) fresh_world
  = calculate_travel_time_fallback env_without_credential None None
      (Some (3, 4)) (Some (1, 2)) fresh_world.
Proof.
  apply (@C9_fallback_symmetric env_without_credential fresh_world None None
           (1, 2) (3, 4)).
  intros x. reflexivity.
Defined.

(** *** A request the estimator answers with an exception *)

(** Two points that are nearly antipodal. *)
Definition near_norilsk : coords :=
  (0x1.160c9ece76198p+6, 0x1.5a532d803fff4p+6).      (* 69.5123..., 86.5812... *)
Definition its_antipode : coords :=
  (-0x1.160c9ece76198p+6, -0x1.75acd27fc000cp+6).    (* -69.5123..., -93.4187... *)

(** The arguments the computation passes to the C library on these points. *)
Definition half_dlat : float := -0x1.3695841ccd453p+0.
Definition lat1_rad : float := 0x1.3695841ccd453p+0.
Definition lat2_rad : float := -0x1.3695841ccd453p+0.
Definition half_dlon : float := -0x1.921fb54442d18p+0.

Lemma antipodes_arguments :
  (math_radians (fst its_antipode) - math_radians (fst near_norilsk)) / 2
    = half_dlat
  /\ math_radians (fst near_norilsk) = lat1_rad
  /\ math_radians (fst its_antipode) = lat2_rad
  /\ (math_radians (snd its_antipode) - math_radians (snd near_norilsk)) / 2
    = half_dlon.
Proof. repeat split; vm_compute; reflexivity. Qed.

(** With the values the C library returns at these four arguments, [a] is
    [1 + 2^-52] and [math.sqrt(1 - a)] is a "math domain error". *)
Lemma haversine_near_antipodes lm :
  libm_sin lm half_dlat = -0x1.df9d5e3df0197p-1 ->
  libm_cos lm lat1_rad = 0x1.6667f1c19dc42p-2 ->
  libm_cos lm lat2_rad = 0x1.6667f1c19dc42p-2 ->
  libm_sin lm half_dlon = -1 ->
  libm_pow lm 0x1.df9d5e3df0197p-1 2 = 0x1.c14723b44194ap-1 ->
  haversine lm near_norilsk its_antipode = Raise ValueError.
Proof.
  intros Hs1 Hc1 Hc2 Hs2 Hp.
  destruct antipodes_arguments as (A1 & A2 & A3 & A4).
  assert (E1 : math_sin lm half_dlat = Ok (-0x1.df9d5e3df0197p-1))
    by (unfold math_sin, math_1; rewrite Hs1; vm_compute; reflexivity).
  assert (E2 : float_pow_2 lm (-0x1.df9d5e3df0197p-1) = Ok 0x1.c14723b44194ap-1)
    by (cbv -[libm_pow]; rewrite Hp; reflexivity).
  assert (E3 : math_cos lm lat1_rad = Ok 0x1.6667f1c19dc42p-2)
    by (unfold math_cos, math_1; rewrite Hc1; vm_compute; reflexivity).
  assert (E4 : math_cos lm lat2_rad = Ok 0x1.6667f1c19dc42p-2)
    by (unfold math_cos, math_1; rewrite Hc2; vm_compute; reflexivity).
  assert (E5 : math_sin lm half_dlon = Ok (-1))
    by (unfold math_sin, math_1; rewrite Hs2; vm_compute; reflexivity).
  assert (E6 : float_pow_2 lm (-1) = Ok 1) by (vm_compute; reflexivity).
  unfold haversine, sin_squared.
  rewrite A1, A2, A3, A4, E1. cbn [res_bind].
  rewrite E2, E3, E4, E5. cbn [res_bind]. rewrite E6. cbn [res_bind].
  vm_compute. reflexivity.
Qed.

(** C7, at a failing input: when the routing provider gives no duration for
    these two points, the Travel Estimator raises [ValueError] (unless the
    retrieval of the key, its first step, has raised already: then that
    exception propagates).  The five hypotheses are the values of [sin], [cos]
    and [pow] that the C library returns at the arguments above. *)
Theorem C7_estimator_raises_near_antipodes env w origin_address dest_address :
  (forall h, here_route env h near_norilsk its_antipode = None) ->
  libm_sin (libm env) half_dlat = -0x1.df9d5e3df0197p-1 ->
  libm_cos (libm env) lat1_rad = 0x1.6667f1c19dc42p-2 ->
  libm_cos (libm env) lat2_rad = 0x1.6667f1c19dc42p-2 ->
  libm_sin (libm env) half_dlon = -1 ->
  libm_pow (libm env) 0x1.df9d5e3df0197p-1 2 = 0x1.c14723b44194ap-1 ->
  fst (calculate_travel_time_with_coords env origin_address dest_address
         (Some near_norilsk) (Some its_antipode) w)
  = match fst (get_here_api_key env w) with
    | Ok _ => Raise ValueError
    | Raise e => Raise e
    end.
Proof.
  intros Hroute Hs1 Hc1 Hc2 Hs2 Hp.
  unfold calculate_travel_time_with_coords, coords_or_geocode.
  unfold bind at 1.
  destruct (get_here_api_key env w) as [[api_key|e] w1] eqn:Hk;
    [|reflexivity].
  unfold bind at 1. unfold ret at 1. unfold bind at 1. unfold ret at 1.
  unfold bind at 1.
  assert (Hrouted : exists w2,
             (if opt_truthy api_key
              then here_routing_minutes env near_norilsk its_antipode
              else ret None) w1 = (Ok None, w2)).
  { destruct (opt_truthy api_key); [|eexists; reflexivity].
    unfold here_routing_minutes. run_step. rewrite Hroute.
    eexists. reflexivity. }
  destruct Hrouted as (w2 & Hrouted). rewrite Hrouted.
  rewrite fallback_with_coords. cbn [fst].
  apply haversine_near_antipodes; assumption.
Qed.

Definition libm_at_antipodes : Libm :=
  {| libm_sin := fun x =>
       if Leibniz.eqb x half_dlat then -0x1.df9d5e3df0197p-1 else -1;
     libm_cos := fun _ => 0x1.6667f1c19dc42p-2;
     libm_atan2 := fun x _ => x;
     libm_pow := fun _ _ => 0x1.c14723b44194ap-1 |}.

Definition env_at_antipodes : Env :=
  {| ssm_get_parameter := fun _ => Ok None;
     here_geocode := fun _ _ => None;
     here_route := fun _ _ _ => None;
     datetime_now := fun _ => [];
     time_time := fun _ => 0%Z;
     libm := libm_at_antipodes |}.

Lemma C7_witness :
  fst (calculate_travel_time_with_coords env_at_antipodes None None
         (Some near_norilsk) (Some its_antipode) fresh_world)
  = Raise ValueError.
Proof.
  apply (C7_estimator_raises_near_antipodes env_at_antipodes fresh_world
           None None); reflexivity.
Defined.

End TravelTimeFacts.

(* ================================================================== *)
(** ** Entries into the Geocoder *)

Module ResolutionFacts.
Import PyStr Py PyMath Config Data Runtime Metrics AddressUtils TravelTime.
Import DynamoUtils GeocoderFacts TravelTimeFacts.

(** The addresses the Geocoder was asked to resolve, in order. *)
Fixpoint geocoder_calls (t : list Event) : list (option str) :=
  match t with
  | [] => []
  | Call_geocode_with_fuzzy_matching a :: rest => a :: geocoder_calls rest
  | _ :: rest => geocoder_calls rest
  end.

(** How many times the Geocoder was asked to resolve [address]. *)
Fixpoint resolutions_of (address : str) (calls : list (option str)) : nat :=
  match calls with
  | [] => 0
  | Some a :: rest =>
      (if eqb a address then 1 else 0) + resolutions_of address rest
  | None :: rest => resolutions_of address rest
  end.

Lemma geocoder_calls_app t u :
  geocoder_calls (t ++ u) = geocoder_calls t ++ geocoder_calls u.
Proof.
  induction t as [|e t IH]; [reflexivity|].
  destruct e; cbn; rewrite IH; reflexivity.
Qed.

Lemma resolutions_of_app address c d :
  resolutions_of address (c ++ d)
  = resolutions_of address c + resolutions_of address d.
Proof.
  induction c as [|[a|] c IH]; cbn; rewrite ?IH; lia.
Qed.

Lemma geocoder_calls_requests l : geocoder_calls (map request l) = [].
Proof. induction l as [|a l IH]; [reflexivity|exact IH]. Qed.

Lemma get_here_api_key_frame env w :
  geocoder_calls (trace (snd (get_here_api_key env w)))
  = geocoder_calls (trace w)
  /\ CURRENT_COMPANY (snd (get_here_api_key env w)) = CURRENT_COMPANY w.
Proof.
  rewrite get_here_api_key_cases. unfold asked.
  destruct (opt_truthy (_here_api_key w)); [split; reflexivity|].
  destruct (ssm_get_parameter env (trace w)) as [[value|]|e];
    cbn [snd emit set_here_api_key trace CURRENT_COMPANY];
    rewrite geocoder_calls_app, app_nil_r; split; reflexivity.
Qed.

Lemma try_variations_frame env key : forall vs i w,
  CURRENT_COMPANY (snd (try_variations env key i vs w)) = CURRENT_COMPANY w.
Proof.
  induction vs as [|v rest IH]; intros i w; [reflexivity|].
  cbn [try_variations]. destruct (truthy v); cbn [negb]; [|apply IH].
  unfold geocode_address.
  destruct (negb (truthy v) || negb (opt_truthy key))%bool.
  - unfold record_geocoding_success. run_step. rewrite IH. reflexivity.
  - unfold record_geocoding_success. run_step.
    destruct (here_geocode env (trace w) v); [reflexivity|].
    rewrite IH. reflexivity.
Qed.

Lemma try_variations_calls env key : forall vs i w,
  geocoder_calls (trace (snd (try_variations env key i vs w)))
  = geocoder_calls (trace w).
Proof.
  induction vs as [|v rest IH]; intros i w; [reflexivity|].
  cbn [try_variations]. destruct (truthy v); cbn [negb]; [|apply IH].
  unfold geocode_address.
  destruct (negb (truthy v) || negb (opt_truthy key))%bool.
  - unfold record_geocoding_success. run_step. rewrite IH. reflexivity.
  - unfold record_geocoding_success. run_step.
    destruct (here_geocode env (trace w) v); cbn [snd trace].
    + rewrite geocoder_calls_app, app_nil_r. reflexivity.
    + rewrite IH. cbn [trace]. rewrite geocoder_calls_app, app_nil_r.
      reflexivity.
Qed.

(** The Geocoder logs exactly its own call, whether it returns or raises. *)
Lemma geocoder_logs env address w :
  geocoder_calls (trace (snd (geocode_with_fuzzy_matching env address w)))
  = geocoder_calls (trace w) ++ [address]
  /\ CURRENT_COMPANY (snd (geocode_with_fuzzy_matching env address w))
     = CURRENT_COMPANY w.
Proof.
  assert (Hentered : geocoder_calls (trace (entered w address))
                     = geocoder_calls (trace w) ++ [address])
    by (cbn; rewrite geocoder_calls_app; reflexivity).
  destruct address as [a|]; [|split; [exact Hentered|reflexivity]].
  destruct (truthy a) eqn:Ha.
  2:{ unfold geocode_with_fuzzy_matching. rewrite Ha.
      split; [exact Hentered|reflexivity]. }
  rewrite (geocoder_entry env w a Ha).
  destruct (get_here_api_key_frame env (entered w (Some a))) as [Hc Hco].
  rewrite Hentered in Hc.
  destruct (get_here_api_key env (entered w (Some a))) as [[k|e] w1];
    cbn [snd] in Hc, Hco; [|split; assumption].
  destruct (negb (opt_truthy k)); [split; assumption|].
  rewrite try_variations_calls, try_variations_frame. split; assumption.
Qed.

(** The estimator once both coordinate pairs are known: the routing call,
    and the haversine estimate when it gives no minutes. *)
Definition route_or_fallback (env : Env) (origin_address dest_address : option str)
    (api_key : option str) (origin dest : coords) : M Z :=
  bind (if opt_truthy api_key then here_routing_minutes env origin dest
        else ret None)
    (fun routed =>
       match routed with
       | Some travel_time_minutes => ret travel_time_minutes
       | None =>
           calculate_travel_time_fallback env origin_address dest_address
             (Some origin) (Some dest)
       end).

Lemma route_or_fallback_calls env oa da api_key o d w :
  geocoder_calls (trace (snd (route_or_fallback env oa da api_key o d w)))
  = geocoder_calls (trace w).
Proof.
  unfold route_or_fallback, bind.
  destruct (opt_truthy api_key).
  - unfold here_routing_minutes. run_step.
    destruct (here_route env (trace w) o d) as [secs|].
    + destruct (math_ceil (secs / 60)); cbn [ret snd trace].
      * rewrite geocoder_calls_app, app_nil_r. reflexivity.
      * rewrite fallback_with_coords. cbn [snd trace].
        rewrite geocoder_calls_app, app_nil_r. reflexivity.
    + rewrite fallback_with_coords. cbn [snd trace].
      rewrite geocoder_calls_app, app_nil_r. reflexivity.
  - cbn [ret]. rewrite fallback_with_coords. reflexivity.
Qed.

(** With the destination's coordinates given, the estimator resolves no
    address when the origin's are given too, and only the origin's address
    when the key is retrieved and that resolution succeeds. *)
Lemma estimator_keeps_destination env oa da oc d w :
  oc <> None
  \/ (exists k w1 c w2,
        get_here_api_key env w = (Ok k, w1)
        /\ geocode_with_fuzzy_matching env oa w1 = (Ok (Some c), w2)) ->
  geocoder_calls
    (trace (snd (calculate_travel_time_with_coords env oa da oc (Some d) w)))
  = geocoder_calls (trace w)
    ++ match oc with Some _ => [] | None => [oa] end.
Proof.
  intros H.
  destruct (get_here_api_key_frame env w) as [Hc _].
  unfold calculate_travel_time_with_coords. unfold bind at 1.
  destruct oc as [o|].
  - destruct (get_here_api_key env w) as [[k|e] w1]; cbn [snd] in Hc;
      [|rewrite app_nil_r; exact Hc].
    unfold coords_or_geocode, bind at 1. cbn [ret].
    unfold bind at 1. cbn [ret].
    fold (route_or_fallback env oa da k o d).
    rewrite route_or_fallback_calls, app_nil_r. exact Hc.
  - destruct H as [H|(k & w1 & c & w2 & Hk & Hg)]; [congruence|].
    rewrite Hk in *. cbn [snd] in Hc.
    destruct (geocoder_logs env oa w1) as [Hcalls _].
    rewrite Hg in Hcalls. cbn [snd] in Hcalls.
    unfold coords_or_geocode at 1, bind at 1. rewrite Hg.
    unfold coords_or_geocode, bind at 1. cbn [ret].
    fold (route_or_fallback env oa da k c d).
    rewrite route_or_fallback_calls, Hcalls, Hc. reflexivity.
Qed.

Lemma some_not_none {A} (a : A) : Some a <> None.
Proof. intros H. discriminate H. Qed.

(** The origin of a technician's next leg has coordinates on the record. *)
Definition origin_stored (l : Locksmith) : bool :=
  match jobQueue l with
  | [] =>
      match base_address l with
      | Some base => match ba_coords base with Some _ => true | None => false end
      | None => false
      end
  | first_job :: _ =>
      match job_coords (last (jobQueue l) first_job) with
      | Some _ => true
      | None => false
      end
  end.

Lemma evaluation_resolves_nothing env l address c w :
  origin_stored l = true ->
  geocoder_calls
    (trace (snd (calculate_locksmith_eta env l address (Some c) w)))
  = geocoder_calls (trace w).
Proof.
  unfold origin_stored, calculate_locksmith_eta. intros H.
  unfold bind at 1. unfold get_world at 1. cbv beta iota.
  destruct (jobQueue l) as [|first_job rest].
  - destruct (base_address l) as [base|]; [|discriminate H].
    destruct (ba_coords base) as [o|] eqn:Eo; [|discriminate H].
    pose proof (estimator_keeps_destination env (Some (ba_address base))
                  address (Some o) c w (or_introl (some_not_none o))) as Hc.
    rewrite app_nil_r in Hc. unfold bind.
    destruct (calculate_travel_time_with_coords env (Some (ba_address base))
                address (Some o) (Some c) w) as [[tt|e] w']; exact Hc.
  - destruct (job_coords (last (first_job :: rest) first_job)) as [o|] eqn:Eo;
      [|discriminate H].
    pose proof (estimator_keeps_destination env
                  (job_address (last (first_job :: rest) first_job))
                  address (Some o) c w (or_introl (some_not_none o))) as Hc.
    rewrite app_nil_r in Hc. unfold bind.
    destruct (calculate_travel_time_with_coords env
                (job_address (last (first_job :: rest) first_job))
                address (Some o) (Some c) w) as [[tt|e] w']; exact Hc.
Qed.

Lemma loop_resolves_nothing env address c : forall ls best w,
  Forall (fun l => origin_stored l = true) ls ->
  geocoder_calls
    (trace (snd (earliest_loop env ls address (Some c) best w)))
  = geocoder_calls (trace w).
Proof.
  induction ls as [|l ls IH]; intros best w Hall; [reflexivity|].
  inversion Hall as [|? ? Hl Hls]; subst.
  cbn [earliest_loop]. unfold bind.
  pose proof (evaluation_resolves_nothing env l address c w Hl) as Hc.
  destruct (calculate_locksmith_eta env l address (Some c) w) as [[r|e] w1].
  - rewrite IH by exact Hls. exact Hc.
  - exact Hc.
Qed.

End ResolutionFacts.

(* ================================================================== *)
(** ** The Availability Calculator *)

Module AvailabilityFacts.
Import PyStr Py PyMath Config Data Runtime Metrics AddressUtils TravelTime.
Import DynamoUtils GeocoderFacts.

(** A job not marked arrived. *)
Definition pending (job : Job) : bool := negb (get_or (arrived job) false).

(** The numbers the workload is the sum of, in the specification's words:
    for every queued job its estimated on-site duration, and its travel time
    if the job is not marked arrived. *)
Definition workload_terms (job_queue : list Job) : list float :=
  flat_map
    (fun job =>
       get_or (estimatedTime job) 0%float
         :: (if pending job then [get_or (travelTime job) 0%float] else []))
    job_queue.

(** The binary64 sum of the numbers of a list, taken from left to right. *)
Definition float_sum (terms : list float) : float :=
  fold_left PrimFloat.add terms 0%float.

(** The base address [config.py] gives for the current company. *)
Definition configured_base_address (w : World) : option str :=
  match CURRENT_COMPANY w with
  | Some name => dict_get LOCKSMITH_BASE_ADDRESSES name
  | None => None
  end.

(** The result of the calculator from a workload and the outcome of the
    travel estimate: the ETA is their sum, an exception propagates. *)
Definition with_workload (workload : number) (travel : Res Z * World)
  : Res (eta_t * Z) * World :=
  match travel with
  | (Ok travel_time, w') => (eta_result workload travel_time, w')
  | (Raise e, w') => (Raise e, w')
  end.

Lemma fold_add_job job_queue : forall acc,
  fold_left add_job job_queue acc
  = fold_left PrimFloat.add (workload_terms job_queue) acc.
Proof.
  induction job_queue as [|job rest IH]; intros acc; [reflexivity|].
  cbn [fold_left workload_terms flat_map]. fold (workload_terms rest).
  rewrite IH. unfold add_job. fold (pending job).
  destruct (pending job); reflexivity.
Qed.

Lemma queue_workload_sum job_queue :
  queue_workload job_queue = float_sum (workload_terms job_queue).
Proof. apply fold_add_job. Qed.

Lemma eta_of_queue env l address new_job_coords w first_job rest :
  jobQueue l = first_job :: rest ->
  calculate_locksmith_eta env l address new_job_coords w
  = with_workload (Float (queue_workload (jobQueue l)))
      (calculate_travel_time_with_coords env
         (job_address (last (jobQueue l) first_job)) address
         (job_coords (last (jobQueue l) first_job)) new_job_coords w).
Proof.
  intros Hq. unfold calculate_locksmith_eta. rewrite Hq.
  unfold bind at 1. unfold get_world at 1. cbv beta iota.
  unfold bind, with_workload, lift.
  destruct (calculate_travel_time_with_coords env _ address _ new_job_coords w)
    as [[travel_time|e] w']; reflexivity.
Qed.

Lemma eta_of_cached_base env l address new_job_coords w base :
  jobQueue l = [] -> base_address l = Some base ->
  calculate_locksmith_eta env l address new_job_coords w
  = with_workload (Int 0)
      (calculate_travel_time_with_coords env (Some (ba_address base)) address
         (ba_coords base) new_job_coords w).
Proof.
  intros Hq Hb. unfold calculate_locksmith_eta. rewrite Hq, Hb.
  unfold bind at 1. unfold get_world at 1. cbv beta iota.
  unfold bind, with_workload, lift.
  destruct (calculate_travel_time_with_coords env _ address _ new_job_coords w)
    as [[travel_time|e] w']; reflexivity.
Qed.

Lemma eta_without_base env l address new_job_coords w :
  jobQueue l = [] -> base_address l = None ->
  opt_truthy (configured_base_address w) = false ->
  calculate_locksmith_eta env l address new_job_coords w = (Ok (Infinite, 0%Z), w).
Proof.
  intros Hq Hb Hc. unfold calculate_locksmith_eta. rewrite Hq, Hb.
  unfold bind at 1. unfold get_world at 1. cbv beta iota.
  fold (configured_base_address w). rewrite Hc. reflexivity.
Qed.

(** The record is updated with the resolved base address. *)
Definition base_address_update (w : World) (l : Locksmith) (address : str)
    (c : coords) : Event :=
  Dynamo_update_item
    match CURRENT_COMPANY w with
    | Some name => dict_get COMPANY_TABLE_MAPPING name
    | None => None
    end
    (get_or (locksmithId l) (of_string "unknown"))
    {| ba_address := address; ba_coords := Some c |}.

Lemma eta_of_configured_base env l address new_job_coords w configured c w1 :
  jobQueue l = [] -> base_address l = None ->
  configured_base_address w = Some configured -> truthy configured = true ->
  geocode_with_fuzzy_matching env (Some configured) w = (Ok (Some c), w1) ->
  calculate_locksmith_eta env l address new_job_coords w
  = with_workload (Int 0)
      (calculate_travel_time_with_coords env (Some configured) address
         (Some c) new_job_coords
         (snd (emit (base_address_update w l configured c) w1))).
Proof.
  intros Hq Hb Hc Ht Hg. unfold calculate_locksmith_eta. rewrite Hq, Hb.
  unfold bind at 1. unfold get_world at 1. cbv beta iota.
  fold (configured_base_address w). rewrite Hc. cbn [opt_truthy get_or].
  rewrite Ht. cbn [negb]. unfold bind at 1. rewrite Hg.
  unfold bind at 1. fold (base_address_update w l configured c).
  destruct (emit (base_address_update w l configured c) w1) as [[[]|e] w2] eqn:Ee;
    [|discriminate Ee].
  cbn [snd]. unfold bind, with_workload, lift.
  destruct (calculate_travel_time_with_coords env _ address _ new_job_coords w2)
    as [[travel_time|e] w']; reflexivity.
Qed.

(** C2: for a technician with a non-empty queue, the workload is the sum,
    taken in binary64 along the queue, of the estimated duration of every
    queued job and of the travel time of the jobs not marked arrived; the
    calculator returns the workload plus the travel estimate from the last
    queued job's location to the target, with that estimate as second
    component.  An arrived job (travel 10, estimate 20) followed by a pending
    one (travel 5, estimate 15) has workload 40, and with a travel estimate
    of 30 minutes the ETA is 70. *)
Theorem C2_workload_and_eta env l address new_job_coords w init last_job :
  jobQueue l = init ++ [last_job] ->
  let workload := float_sum (workload_terms (jobQueue l)) in
  calculate_locksmith_eta env l address new_job_coords w
  = match calculate_travel_time_with_coords env (job_address last_job) address
            (job_coords last_job) new_job_coords w with
    | (Ok travel_time, w') =>
        (match float_of_int travel_time with
         | Ok minutes => Ok (Float (workload + minutes)%float, travel_time)
         | Raise e => Raise e
         end, w')
    | (Raise e, w') => (Raise e, w')
    end
  /\ (forall j1 j2,
        estimatedTime j1 = Some 20%float -> travelTime j1 = Some 10%float ->
        arrived j1 = Some true ->
        estimatedTime j2 = Some 15%float -> travelTime j2 = Some 5%float ->
        arrived j2 = Some false ->
        init = [j1] -> last_job = j2 ->
        workload = 40%float
        /\ forall w',
             calculate_travel_time_with_coords env (job_address last_job)
               address (job_coords last_job) new_job_coords w = (Ok 30%Z, w') ->
             calculate_locksmith_eta env l address new_job_coords w
             = (Ok (Float 70, 30%Z), w')).
Proof.
  intros Hq. cbv zeta.
  assert (Heta : calculate_locksmith_eta env l address new_job_coords w
                 = match calculate_travel_time_with_coords env
                           (job_address last_job) address
                           (job_coords last_job) new_job_coords w with
                   | (Ok travel_time, w') =>
                       (match float_of_int travel_time with
                        | Ok minutes =>
                            Ok (Float (float_sum (workload_terms (jobQueue l))
                                       + minutes)%float, travel_time)
                        | Raise e => Raise e
                        end, w')
                   | (Raise e, w') => (Raise e, w')
                   end).
  { assert (Hne : exists first_job rest, jobQueue l = first_job :: rest)
      by (rewrite Hq; destruct init; eexists _, _; reflexivity).
    destruct Hne as (first_job & rest & E).
    rewrite (eta_of_queue env l address new_job_coords w first_job rest E).
    assert (Hlast : last (jobQueue l) first_job = last_job)
      by (rewrite Hq; apply last_last).
    rewrite Hlast, queue_workload_sum.
    unfold with_workload, eta_result, res_bind.
    destruct (calculate_travel_time_with_coords env (job_address last_job)
                address (job_coords last_job) new_job_coords w)
      as [[travel_time|e] w']; reflexivity. }
  split; [exact Heta|].
  intros j1 j2 E1 T1 A1 E2 T2 A2 Hi Hl. subst init last_job.
  assert (Hw : float_sum (workload_terms (jobQueue l)) = 40%float).
  { rewrite Hq. unfold workload_terms, pending.
    cbn [app flat_map]. rewrite E1, T1, A1, E2, T2, A2. reflexivity. }
  split; [exact Hw|].
  intros w' Ht. rewrite Heta, Ht, Hw. reflexivity.
Qed.

(** The specification's queue, and a technician who has it. *)
Definition arrived_job : Job :=
  {| estimatedTime := Some 20%float; travelTime := Some 10%float;
     arrived := Some true; job_address := Some (of_string "12 Oak Lane");
     latitude := None; longitude := None |}.

Definition pending_job : Job :=
  {| estimatedTime := Some 15%float; travelTime := Some 5%float;
     arrived := Some false; job_address := Some (of_string "7 Elm Road");
     latitude := None; longitude := None |}.

Definition busy_locksmith : Locksmith :=
  {| locksmithId := Some (of_string "L-1");
     jobQueue := [arrived_job; pending_job];
     base_address := None |}.

Lemma C2_witness :
  float_sum (workload_terms (jobQueue busy_locksmith)) = 40%float
  /\ forall w',
       calculate_travel_time_with_coords env_without_credential
         (job_address pending_job) None (job_coords pending_job) None
         fresh_world = (Ok 30%Z, w') ->
       calculate_locksmith_eta env_without_credential busy_locksmith None
         None fresh_world
       = (Ok (Float 70, 30%Z), w').
Proof.
  exact (proj2 (C2_workload_and_eta env_without_credential busy_locksmith
                  None None fresh_world [arrived_job] pending_job eq_refl)
           arrived_job pending_job eq_refl eq_refl eq_refl eq_refl eq_refl
           eq_refl eq_refl eq_refl).
Defined.


(** An idle technician of a company with no configured base address. *)
Definition idle_locksmith : Locksmith :=
  {| locksmithId := Some (of_string "L-2");
     jobQueue := [];
     base_address := None |}.

Definition world_of_unconfigured_company : World :=
  {| _here_api_key := None;
     _metrics_to_record := [];
     CURRENT_COMPANY := Some (of_string "KeyMasters");
     trace := [] |}.


End AvailabilityFacts.

(* ================================================================== *)
(** ** The Dispatcher *)

Module DispatcherFacts.
Import PyStr Py PyMath Config Data Runtime Metrics AddressUtils TravelTime.
Import DynamoUtils GeocoderFacts ResolutionFacts AvailabilityFacts.

(** *** Resolutions of the target address *)

(** The Dispatcher after the target address was resolved to [new_job_coords]:
    the loop over the technicians, the cache entry, the answer. *)
Definition dispatch_with (env : Env) (locksmiths : list Locksmith)
    (new_job_address : option str) (company_name : option str)
    (new_job_coords : option coords) : M (option str * eta_t) :=
  bind (earliest_loop env locksmiths new_job_address new_job_coords
          initial_earliest)
    (fun best =>
       bind (update_next_available_cache env company_name
               (earliest_locksmith_id best) (earliest_travel_time best)
               new_job_coords new_job_address)
         (fun _ => ret (earliest_locksmith_id best, earliest_eta best))).

Lemma eqb_refl (a : str) : eqb a a = true.
Proof.
  induction a as [|c a IH]; [reflexivity|].
  cbn [eqb]. rewrite N.eqb_refl, IH. reflexivity.
Qed.

Lemma dispatch_shares_resolution env w l ls address new_job_coords w1 :
  geocode_with_fuzzy_matching env address w = (Ok new_job_coords, w1) ->
  find_earliest_locksmith env (l :: ls) address w
  = dispatch_with env (l :: ls) address (CURRENT_COMPANY w) new_job_coords w1.
Proof.
  intros Hg. unfold find_earliest_locksmith.
  unfold bind at 1. unfold get_world at 1. cbv beta iota.
  unfold bind at 1. rewrite Hg. reflexivity.
Qed.

Lemma dispatch_with_calls env ls address company c w1 :
  Forall (fun t => origin_stored t = true) ls ->
  geocoder_calls
    (trace (snd (dispatch_with env ls address company (Some c) w1)))
  = geocoder_calls (trace w1).
Proof.
  intros Hall. unfold dispatch_with. unfold bind at 1.
  pose proof (loop_resolves_nothing env address c ls initial_earliest w1 Hall)
    as Hloop.
  destruct (earliest_loop env ls address (Some c) initial_earliest w1)
    as [[best|e] w2]; [|exact Hloop].
  unfold update_next_available_cache, bind, get_world, emit, ret.
  cbn [snd trace]. rewrite geocoder_calls_app, app_nil_r. exact Hloop.
Qed.

(** A provider that is reachable and resolves nothing, and a technician whose
    last job carries its coordinates. *)
Definition env_provider_resolves_nothing : Env :=
  {| ssm_get_parameter := fun _ => Ok (Some (of_string "here-api-key"));
     here_geocode := fun _ _ => None;
     here_route := fun _ _ _ => None;
     datetime_now := fun _ => [];
     time_time := fun _ => 0%Z;
     libm := no_libm |}.

Definition located_job : Job :=
  {| estimatedTime := Some 15%float; travelTime := Some 5%float;
     arrived := Some false; job_address := Some (of_string "7 Elm Road");
     latitude := Some 0x1.36e147ae147aep+5%float;
     longitude := Some (-0x1.3451eb851eb85p+6)%float |}.

Definition located_locksmith : Locksmith :=
  {| locksmithId := Some (of_string "L-3");
     jobQueue := [located_job];
     base_address := None |}.

(** A provider that resolves every address. *)
Definition env_provider_resolves_all : Env :=
  {| ssm_get_parameter := fun _ => Ok (Some (of_string "here-api-key"));
     here_geocode := fun _ _ =>
       Some (0x1.36e147ae147aep+5, -0x1.3451eb851eb85p+6)%float;
     here_route := fun _ _ _ => Some 600%float;
     datetime_now := fun _ => [];
     time_time := fun _ => 0%Z;
     libm := no_libm |}.

(** X17: the Dispatcher resolves the target address before the loop and
    passes the result to every technician evaluation.  When that resolution
    gives coordinates and the technicians' origins have stored coordinates,
    the whole request enters the Geocoder exactly once, for the target; and
    whenever the Travel Estimator is given the destination's coordinates it
    resolves no address if the origin's are given too, and only the origin's
    if the key is retrieved and that resolution succeeds. *)
Theorem target_resolved_once_when_resolved env :
  (forall w l ls address new_job_coords w1,
      geocode_with_fuzzy_matching env (Some address) w = (Ok new_job_coords, w1) ->
      find_earliest_locksmith env (l :: ls) (Some address) w
      = dispatch_with env (l :: ls) (Some address) (CURRENT_COMPANY w)
          new_job_coords w1)
  /\ (forall w l ls address c w1,
        geocode_with_fuzzy_matching env (Some address) w = (Ok (Some c), w1) ->
        Forall (fun t => origin_stored t = true) (l :: ls) ->
        geocoder_calls
          (trace (snd (find_earliest_locksmith env (l :: ls) (Some address) w)))
        = geocoder_calls (trace w) ++ [Some address]
        /\ resolutions_of address
             (geocoder_calls
                (trace (snd (find_earliest_locksmith env (l :: ls)
                               (Some address) w))))
           = resolutions_of address (geocoder_calls (trace w)) + 1)
  /\ (forall origin_address dest_address origin_coords dest w,
        origin_coords <> None
        \/ (exists k w1 c w2,
              get_here_api_key env w = (Ok k, w1)
              /\ geocode_with_fuzzy_matching env origin_address w1
                 = (Ok (Some c), w2)) ->
        geocoder_calls
          (trace (snd (calculate_travel_time_with_coords env origin_address
                         dest_address origin_coords (Some dest) w)))
        = geocoder_calls (trace w)
          ++ match origin_coords with Some _ => [] | None => [origin_address] end).
Proof.
  split; [|split].
  - intros w l ls address new_job_coords w1 Hg.
    apply dispatch_shares_resolution. exact Hg.
  - intros w l ls address c w1 Hg Hall.
    rewrite (dispatch_shares_resolution env w l ls (Some address) (Some c) w1 Hg).
    rewrite dispatch_with_calls by exact Hall.
    destruct (geocoder_logs env (Some address) w) as [Hc _].
    rewrite Hg in Hc. cbn [snd] in Hc.
    rewrite Hc. split; [reflexivity|].
    rewrite resolutions_of_app. cbn [resolutions_of].
    rewrite eqb_refl. lia.
  - intros oa da oc d w H. apply estimator_keeps_destination. exact H.
Qed.

Lemma target_resolved_once_witness :
  geocoder_calls
    (trace (snd (find_earliest_locksmith env_provider_resolves_all
                   [located_locksmith] (Some (of_string "5 Pine St"))
                   fresh_world)))
  = geocoder_calls (trace fresh_world) ++ [Some (of_string "5 Pine St")]
  /\ resolutions_of (of_string "5 Pine St")
       (geocoder_calls
          (trace (snd (find_earliest_locksmith env_provider_resolves_all
                         [located_locksmith] (Some (of_string "5 Pine St"))
                         fresh_world))))
     = resolutions_of (of_string "5 Pine St")
         (geocoder_calls (trace fresh_world)) + 1.
Proof.
  refine (proj1 (proj2 (target_resolved_once_when_resolved
                          env_provider_resolves_all))
            fresh_world located_locksmith [] (of_string "5 Pine St") _ _ _ _).
  - vm_compute. reflexivity.
  - repeat constructor.
Defined.

End DispatcherFacts.

(* ================================================================== *)
(** ** The Normalized transform *)

Module NormalizeFacts.
Import PyStr Re AddressUtils.

(** The word at the start of a string, and what follows it. *)
Fixpoint word_prefix (s : str) : str :=
  match s with
  | c :: r => if cp_word c then c :: word_prefix r else []
  | [] => []
  end.

Fixpoint after_word (s : str) : str :=
  match s with
  | c :: r => if cp_word c then after_word r else s
  | [] => []
  end.

(** [strip_prefix k s] is the rest of [s] after the literal [k]. *)
Fixpoint strip_prefix (k s : str) : option str :=
  match k, s with
  | [], _ => Some s
  | c :: k', x :: s' => if N.eqb c x then strip_prefix k' s' else None
  | _ :: _, [] => None
  end.

(** The character before the position reached by matching the literal [k]. *)
Fixpoint after_lits (k : str) (prev : option N) : option N :=
  match k with
  | [] => prev
  | c :: k' => after_lits k' (Some c)
  end.

Definition all_word (w : str) : Prop := Forall (fun c => cp_word c = true) w.

(** Replacing whole words: every maximal run of word characters [w] becomes
    [f w], every other character stays.  [cur] is the word read so far. *)
Fixpoint replace_words (f : str -> str) (cur s : str) : str :=
  match s with
  | [] => f cur
  | c :: s' =>
      if cp_word c then replace_words f (cur ++ [c]) s'
      else f cur ++ c :: replace_words f [] s'
  end.

(** What one entry of [abbrev_map] does to a word. *)
Definition swap_word (k a w : str) : str := if eqb w k then a else w.

Lemma eqb_eq a b : eqb a b = true <-> a = b.
Proof.
  revert b. induction a as [|x a IH]; intros [|y b]; cbn; split;
    try congruence; try reflexivity.
  - intros H. apply andb_prop in H as [H1 H2].
    apply N.eqb_eq in H1. apply IH in H2. congruence.
  - intros H. injection H as -> ->. rewrite N.eqb_refl. cbn.
    apply IH. reflexivity.
Qed.

Lemma span_word s : word_prefix s ++ after_word s = s.
Proof.
  induction s as [|c s IH]; [reflexivity|]. cbn.
  destruct (cp_word c); [cbn; rewrite IH|]; reflexivity.
Qed.

Lemma word_prefix_all_word s : all_word (word_prefix s).
Proof.
  induction s as [|c s IH]; [constructor|]. cbn.
  destruct (cp_word c) eqn:E; constructor; assumption.
Qed.

Lemma after_word_head s :
  word_opt (hd_error (after_word s)) = false.
Proof.
  induction s as [|c s IH]; [reflexivity|]. cbn.
  destruct (cp_word c) eqn:E; [exact IH|]. cbn. exact E.
Qed.

Lemma after_word_idem s : after_word (after_word s) = after_word s.
Proof.
  induction s as [|c s IH]; [reflexivity|]. cbn.
  destruct (cp_word c) eqn:E; [exact IH|]. cbn. rewrite E. reflexivity.
Qed.

Lemma word_prefix_after_word s : word_prefix (after_word s) = [].
Proof.
  induction s as [|c s IH]; [reflexivity|]. cbn.
  destruct (cp_word c) eqn:E; [exact IH|]. cbn. rewrite E. reflexivity.
Qed.

Lemma after_word_length s : List.length (after_word s) <= List.length s.
Proof.
  induction s as [|c s IH]; [cbn; lia|]. cbn.
  destruct (cp_word c); cbn; lia.
Qed.

Lemma word_prefix_app w s :
  all_word w -> word_prefix (w ++ s) = w ++ word_prefix s.
Proof.
  induction 1 as [|c w Hc Hw IH]; [reflexivity|].
  cbn. rewrite Hc, IH. reflexivity.
Qed.

Lemma after_word_app w s : all_word w -> after_word (w ++ s) = after_word s.
Proof.
  induction 1 as [|c w Hc Hw IH]; [reflexivity|].
  cbn. rewrite Hc. exact IH.
Qed.

Lemma strip_prefix_spec k : forall s rest,
  strip_prefix k s = Some rest <-> s = k ++ rest.
Proof.
  induction k as [|c k IH]; intros s rest; cbn.
  - split; congruence.
  - destruct s as [|x s]; [split; discriminate|].
    destruct (N.eqb c x) eqn:E.
    + apply N.eqb_eq in E. subst x. rewrite IH. split; congruence.
    + apply N.eqb_neq in E. split; [discriminate|]. congruence.
Qed.

Lemma after_lits_word k : forall prev,
  all_word k -> word_opt prev = true -> word_opt (after_lits k prev) = true.
Proof.
  induction k as [|c k IH]; intros prev Hk Hp; [exact Hp|].
  inversion Hk; subst. cbn. apply IH; assumption.
Qed.

Lemma after_lits_nonempty c k prev :
  all_word (c :: k) -> word_opt (after_lits (c :: k) prev) = true.
Proof.
  intros Hk. inversion Hk; subst. cbn. apply after_lits_word; assumption.
Qed.

(** *** Where [\bKEY\b] matches *)

Lemma rmatch_lits {A} k : forall prev s caps
    (K : option N -> str -> captures -> option A),
  rmatch (lits k) prev s caps K
  = match strip_prefix k s with
    | Some rest => K (after_lits k prev) rest caps
    | None => None
    end.
Proof.
  induction k as [|c k IH]; intros prev s caps K; [reflexivity|].
  cbn [lits strip_prefix after_lits]. unfold lit. cbn [rmatch].
  destruct s as [|x s]; [reflexivity|].
  destruct (N.eqb c x) eqn:E; [|reflexivity].
  apply N.eqb_eq in E. subst x. apply IH.
Qed.

Lemma match_at_word_re k prev s :
  match_at (word_re k) prev s
  = if at_boundary prev s then
      match strip_prefix k s with
      | Some rest =>
          if at_boundary (after_lits k prev) rest
          then Some (after_lits k prev, rest, [])
          else None
      | None => None
      end
    else None.
Proof.
  unfold match_at, word_re. cbn [rmatch].
  destruct (at_boundary prev s); [|reflexivity].
  rewrite rmatch_lits. destruct (strip_prefix k s); reflexivity.
Qed.

(** A key: a non-empty string of word characters. *)
Definition is_key (k : str) : Prop := k <> [] /\ all_word k.

Lemma match_at_word_start k prev s :
  is_key k -> word_opt prev = false -> word_prefix s <> [] ->
  match_at (word_re k) prev s
  = if eqb (word_prefix s) k
    then Some (after_lits k prev, after_word s, [])
    else None.
Proof.
  intros [Hne Hk] Hp Hs. rewrite match_at_word_re.
  assert (Hb : at_boundary prev s = true).
  { unfold at_boundary. rewrite Hp.
    destruct s as [|c s]; [exfalso; apply Hs; reflexivity|].
    cbn [word_prefix after_word hd_error word_opt xorb negb] in Hs |- *.
    destruct (cp_word c); [reflexivity|congruence]. }
  rewrite Hb.
  assert (Hlast : word_opt (after_lits k prev) = true).
  { destruct k as [|c k]; [congruence|]. apply after_lits_nonempty. exact Hk. }
  destruct (strip_prefix k s) as [rest|] eqn:E.
  - apply strip_prefix_spec in E. subst s.
    rewrite (word_prefix_app k rest Hk), (after_word_app k rest Hk).
    unfold at_boundary. rewrite Hlast.
    destruct rest as [|x rest].
    + cbn [word_prefix after_word hd_error word_opt xorb negb]. rewrite app_nil_r.
      rewrite (proj2 (eqb_eq k k) eq_refl). reflexivity.
    + cbn [word_prefix after_word hd_error word_opt xorb negb]. destruct (cp_word x) eqn:Ex;
        cbn [word_prefix after_word hd_error word_opt xorb negb].
      * destruct (eqb (k ++ x :: word_prefix rest) k) eqn:Ee; [|reflexivity].
        apply eqb_eq in Ee. apply (f_equal (@List.length N)) in Ee.
        rewrite length_app in Ee. cbn [List.length] in Ee. lia.
      * rewrite app_nil_r. rewrite (proj2 (eqb_eq k k) eq_refl). reflexivity.
  - destruct (eqb (word_prefix s) k) eqn:Ee; [|reflexivity].
    apply eqb_eq in Ee.
    assert (Hsp : strip_prefix k s = Some (after_word s)).
    { apply strip_prefix_spec. rewrite <- Ee. symmetry. apply span_word. }
    congruence.
Qed.

Lemma match_at_inside_word k prev c s :
  word_opt prev = true -> cp_word c = true ->
  match_at (word_re k) prev (c :: s) = None.
Proof.
  intros Hp Hc. rewrite match_at_word_re. unfold at_boundary.
  rewrite Hp. cbn [word_prefix after_word hd_error word_opt xorb negb]. rewrite Hc. reflexivity.
Qed.

Lemma match_at_non_word k prev s :
  is_key k -> word_opt (hd_error s) = false ->
  match_at (word_re k) prev s = None.
Proof.
  intros [Hne Hk] Hs. rewrite match_at_word_re.
  destruct (at_boundary prev s); [|reflexivity].
  destruct k as [|c k]; [congruence|]. inversion Hk; subst.
  destruct s as [|x s]; [reflexivity|]. cbn [strip_prefix].
  destruct (N.eqb c x) eqn:E; [|reflexivity].
  apply N.eqb_eq in E. subst x. cbn [word_prefix after_word hd_error word_opt xorb negb] in Hs. congruence.
Qed.

(** *** The scan of [re.sub] for a key *)

Section Scan.

Variables k a : str.
Hypothesis key_k : is_key k.

Let r := word_re k.

(** The part of the scan that starts after the word at the head of [s]. *)
Definition scan_rest (s : str) : str :=
  match after_word s with
  | [] => []
  | c :: rest => c :: sub_go r a (Some c) rest 0
  end.

Lemma sub_go_skip : forall x prev rest,
  sub_go r a prev (x ++ rest) (List.length x)
  = sub_go r a (after_lits x prev) rest 0.
Proof.
  induction x as [|y x IH]; intros prev rest; [reflexivity|].
  cbn [app List.length sub_go after_lits]. apply IH.
Qed.

Lemma scan_rest_after_word s : scan_rest (after_word s) = scan_rest s.
Proof. unfold scan_rest. rewrite after_word_idem. reflexivity. Qed.

(** After a word character, the scan copies the rest of the word. *)
Lemma sub_go_inside_word : forall s prev,
  word_opt prev = true ->
  sub_go r a prev s 0 = word_prefix s ++ scan_rest s.
Proof.
  induction s as [|c s IH]; intros prev Hp; [reflexivity|].
  cbn [sub_go]. destruct (cp_word c) eqn:Hc.
  - unfold r at 1. rewrite (match_at_inside_word k prev c s Hp Hc).
    rewrite (IH (Some c) Hc). unfold scan_rest. cbn [word_prefix after_word].
    rewrite Hc. reflexivity.
  - unfold r at 1. rewrite (match_at_non_word k prev (c :: s) key_k Hc).
    unfold scan_rest. cbn [word_prefix after_word]. rewrite Hc. reflexivity.
Qed.

(** After any other character, the scan replaces the word if it is the key. *)
Lemma sub_go_at_boundary s prev :
  word_opt prev = false ->
  sub_go r a prev s 0 = swap_word k a (word_prefix s) ++ scan_rest s.
Proof.
  intros Hp. destruct s as [|c s].
  - unfold swap_word, scan_rest. cbn [word_prefix after_word sub_go app].
    destruct k; [destruct key_k; congruence|reflexivity].
  - cbn [sub_go]. destruct (cp_word c) eqn:Hc.
    + assert (Hw : word_prefix (c :: s) <> [])
        by (cbn; rewrite Hc; discriminate).
      unfold r at 1. rewrite (match_at_word_start k prev (c :: s) key_k Hp Hw).
      unfold swap_word.
      destruct (eqb (word_prefix (c :: s)) k) eqn:Ee.
      * apply eqb_eq in Ee.
        pose proof (span_word (c :: s)) as Hspan.
        assert (Hlen : List.length (c :: s) - List.length (after_word (c :: s))
                       = S (List.length (word_prefix s))).
        { rewrite <- Hspan at 1. rewrite length_app. cbn [word_prefix].
          rewrite Hc. cbn [List.length]. lia. }
        rewrite Hlen.
        assert (Hs : s = word_prefix s ++ after_word (c :: s)).
        { cbn [after_word]. rewrite Hc. symmetry. apply span_word. }
        rewrite Hs at 1. rewrite sub_go_skip.
        rewrite sub_go_inside_word.
        -- rewrite word_prefix_after_word, scan_rest_after_word. reflexivity.
        -- apply after_lits_word; [apply word_prefix_all_word|exact Hc].
      * rewrite (sub_go_inside_word s (Some c) Hc).
        unfold scan_rest. cbn [word_prefix after_word]. rewrite Hc. reflexivity.
    + unfold r at 1. rewrite (match_at_non_word k prev (c :: s) key_k Hc).
      unfold swap_word, scan_rest. cbn [word_prefix after_word]. rewrite Hc.
      cbn [eqb app].
      destruct k; [destruct key_k; congruence|reflexivity].
Qed.

End Scan.

(** *** Substitution of a key as a replacement of words *)

Lemma replace_words_span f : forall s cur,
  replace_words f cur s
  = f (cur ++ word_prefix s)
    ++ match after_word s with
       | [] => []
       | c :: rest => c :: replace_words f [] rest
       end.
Proof.
  induction s as [|c s IH]; intros cur.
  - cbn. rewrite !app_nil_r. reflexivity.
  - cbn [replace_words word_prefix after_word].
    destruct (cp_word c).
    + rewrite IH, <- app_assoc. reflexivity.
    + rewrite app_nil_r. reflexivity.
Qed.

Lemma sub_go_replace_words k a (key_k : is_key k) : forall n s prev,
  List.length s <= n -> word_opt prev = false ->
  sub_go (word_re k) a prev s 0 = replace_words (swap_word k a) [] s.
Proof.
  induction n as [|n IH]; intros s prev Hlen Hp;
    rewrite (sub_go_at_boundary k a key_k s prev Hp), replace_words_span;
    unfold scan_rest; cbn [app]; f_equal.
  - destruct s; [reflexivity|cbn in Hlen; lia].
  - pose proof (after_word_length s) as Hl.
    pose proof (after_word_head s) as Hh.
    destruct (after_word s) as [|c rest]; [reflexivity|].
    f_equal. apply IH; [cbn in Hl; lia|exact Hh].
Qed.

Lemma re_sub_replace_words k a s :
  is_key k -> re_sub (word_re k) a s = replace_words (swap_word k a) [] s.
Proof.
  intros Hk. unfold re_sub.
  apply (sub_go_replace_words k a Hk (List.length s)); [lia|reflexivity].
Qed.

(** *** Replacements of words compose *)

(** [f] maps words to words and the empty string to itself. *)
Definition word_map (f : str -> str) : Prop :=
  f [] = [] /\ forall w, all_word w -> all_word (f w).

Lemma replace_words_word f : forall w cur,
  all_word w -> replace_words f cur w = f (cur ++ w).
Proof.
  induction w as [|c w IH]; intros cur Hw.
  - cbn. rewrite app_nil_r. reflexivity.
  - inversion Hw; subst. cbn [replace_words].
    match goal with H : cp_word c = true |- _ => rewrite H end.
    rewrite IH by assumption. rewrite <- app_assoc. reflexivity.
Qed.

Lemma replace_words_app f : forall w cur c s,
  all_word w -> cp_word c = false ->
  replace_words f cur (w ++ c :: s)
  = f (cur ++ w) ++ c :: replace_words f [] s.
Proof.
  induction w as [|x w IH]; intros cur c s Hw Hc.
  - cbn [app replace_words]. rewrite Hc, app_nil_r. reflexivity.
  - inversion Hw; subst. cbn [app replace_words].
    match goal with H : cp_word x = true |- _ => rewrite H end.
    rewrite IH by assumption. rewrite <- app_assoc. reflexivity.
Qed.

Lemma replace_words_compose f g :
  word_map f -> g [] = [] ->
  forall s cur,
    all_word cur ->
    replace_words g [] (replace_words f cur s)
    = replace_words (fun w => g (f w)) cur s.
Proof.
  intros [Hf0 Hf] Hg0. induction s as [|c s IH]; intros cur Hcur.
  - cbn [replace_words]. apply replace_words_word. apply Hf. exact Hcur.
  - cbn [replace_words]. destruct (cp_word c) eqn:Hc.
    + apply IH. apply Forall_app. split; [exact Hcur|].
      constructor; [exact Hc|constructor].
    + rewrite replace_words_app by (try apply Hf; assumption).
      cbn [app]. rewrite (IH [] (Forall_nil _)). reflexivity.
Qed.

Lemma replace_words_ext f g :
  (forall w, all_word w -> f w = g w) ->
  forall s cur, all_word cur -> replace_words f cur s = replace_words g cur s.
Proof.
  intros H. induction s as [|c s IH]; intros cur Hcur.
  - cbn. apply H. exact Hcur.
  - cbn [replace_words]. destruct (cp_word c) eqn:Hc.
    + apply IH. apply Forall_app. split; [exact Hcur|].
      constructor; [exact Hc|constructor].
    + rewrite (H cur Hcur), (IH [] (Forall_nil _)). reflexivity.
Qed.

(** *** The abbreviation table *)

(** What the table does to one word: the entries in order. *)
Definition abbreviate_step (w : str) (entry : str * str) : str :=
  swap_word (fst entry) (snd entry) w.

Definition abbreviate (m : list (str * str)) (w : str) : str :=
  fold_left abbreviate_step m w.

(** Every key is a non-empty word, every abbreviation is a word, and no
    abbreviation is a key. *)
Definition entry_ok (m : list (str * str)) (entry : str * str) : bool :=
  (truthy (fst entry) && forallb cp_word (fst entry)
   && forallb cp_word (snd entry)
   && forallb (fun e => negb (eqb (snd entry) (fst e))) m)%bool.

Lemma abbrev_map_ok : forallb (entry_ok abbrev_map) abbrev_map = true.
Proof. vm_compute. reflexivity. Qed.

Section Table.

Variable M : list (str * str).
Hypothesis M_ok : forallb (entry_ok M) M = true.

Lemma entry_facts entry :
  In entry M ->
  is_key (fst entry) /\ all_word (snd entry)
  /\ forall e, In e M -> eqb (snd entry) (fst e) = false.
Proof.
  intros Hin. pose proof (proj1 (forallb_forall _ _) M_ok entry Hin) as H.
  unfold entry_ok in H.
  apply andb_prop in H as [H H4]. apply andb_prop in H as [H H3].
  apply andb_prop in H as [H1 H2].
  repeat split.
  - destruct (fst entry); [discriminate H1|discriminate].
  - apply Forall_forall. exact (proj1 (forallb_forall _ _) H2).
  - apply Forall_forall. exact (proj1 (forallb_forall _ _) H3).
  - intros e He. pose proof (proj1 (forallb_forall _ _) H4 e He) as H5.
    apply Bool.negb_true_iff in H5. exact H5.
Qed.

Lemma swap_word_map entry :
  In entry M -> word_map (fun w => abbreviate_step w entry).
Proof.
  intros Hin. destruct (entry_facts entry Hin) as ([Hne Hk] & Ha & _).
  unfold abbreviate_step, swap_word. split.
  - destruct (fst entry); [congruence|reflexivity].
  - intros w Hw. destruct (eqb w (fst entry)); assumption.
Qed.

Lemma abbreviate_cons e m w :
  abbreviate (e :: m) w = abbreviate m (abbreviate_step w e).
Proof. reflexivity. Qed.

Lemma abbreviate_word_map m : incl m M -> word_map (abbreviate m).
Proof.
  induction m as [|e m IH]; intros Hm.
  - split; [reflexivity|intros w Hw; exact Hw].
  - destruct (swap_word_map e (Hm e (in_eq e m))) as [H0 Hw].
    destruct (IH (fun x Hx => Hm x (in_cons e x m Hx))) as [I0 Iw].
    split.
    + rewrite abbreviate_cons, H0. exact I0.
    + intros w Hww. rewrite abbreviate_cons. apply Iw. apply Hw. exact Hww.
Qed.

(** A string that is no key goes through the table unchanged. *)
Lemma abbreviate_stable x :
  (forall e, In e M -> eqb x (fst e) = false) ->
  forall m, incl m M -> abbreviate m x = x.
Proof.
  intros Hx. induction m as [|e m IH]; intros Hm; [reflexivity|].
  rewrite abbreviate_cons. unfold abbreviate_step, swap_word.
  rewrite (Hx e (Hm e (in_eq e m))).
  apply IH. intros y Hy. apply Hm. right. exact Hy.
Qed.

(** A word leaves the table as it was or as one of the abbreviations. *)
Lemma abbreviate_cases : forall m w,
  incl m M ->
  abbreviate m w = w \/ exists e, In e m /\ abbreviate m w = snd e.
Proof.
  induction m as [|e m IH]; intros w Hm; [left; reflexivity|].
  assert (Hm' : incl m M) by (intros y Hy; apply Hm; right; exact Hy).
  rewrite abbreviate_cons. unfold abbreviate_step, swap_word.
  destruct (eqb w (fst e)) eqn:E.
  - right. exists e. split; [left; reflexivity|].
    apply abbreviate_stable; [|exact Hm'].
    apply (entry_facts e (Hm e (in_eq e m))).
  - destruct (IH w Hm') as [H|(e' & Hin & H)].
    + left. exact H.
    + right. exists e'. split; [right; exact Hin|exact H].
Qed.

Lemma abbreviate_idem w : abbreviate M (abbreviate M w) = abbreviate M w.
Proof.
  destruct (abbreviate_cases M w (incl_refl M)) as [H|(e & Hin & H)].
  - rewrite H. exact H.
  - rewrite H. apply abbreviate_stable; [|apply incl_refl].
    apply (entry_facts e Hin).
Qed.

Lemma replace_words_id : forall s cur,
  replace_words (fun w => w) cur s = cur ++ s.
Proof.
  induction s as [|c s IH]; intros cur.
  - cbn. rewrite app_nil_r. reflexivity.
  - cbn [replace_words]. destruct (cp_word c).
    + rewrite IH, <- app_assoc. reflexivity.
    + rewrite IH. reflexivity.
Qed.

(** The substitutions of the table, one after the other, replace every
    word by what the table makes of it. *)
Lemma fold_replace_abbrev : forall m s,
  incl m M ->
  fold_left replace_abbrev m s = replace_words (abbreviate m) [] s.
Proof.
  induction m as [|e m IH]; intros s Hm.
  - cbn [fold_left]. unfold abbreviate.
    rewrite (replace_words_ext (fold_left abbreviate_step []) (fun w => w))
      by (try constructor; intros; reflexivity).
    rewrite replace_words_id. reflexivity.
  - assert (Hm' : incl m M) by (intros y Hy; apply Hm; right; exact Hy).
    assert (He : In e M) by (apply Hm; left; reflexivity).
    cbn [fold_left]. rewrite (IH _ Hm'). unfold replace_abbrev.
    rewrite re_sub_replace_words by (apply (entry_facts e He)).
    change (swap_word (fst e) (snd e)) with (fun w => abbreviate_step w e).
    rewrite replace_words_compose;
      [|apply swap_word_map; exact He
       |apply (abbreviate_word_map m Hm')|constructor].
    apply replace_words_ext; [|constructor].
    intros w _. symmetry. apply abbreviate_cons.
Qed.

Lemma fold_replace_abbrev_idem s :
  fold_left replace_abbrev M (fold_left replace_abbrev M s)
  = fold_left replace_abbrev M s.
Proof.
  rewrite !(fold_replace_abbrev M) by apply incl_refl.
  rewrite replace_words_compose;
    [|apply abbreviate_word_map; apply incl_refl
     |apply (abbreviate_word_map M (incl_refl M))|constructor].
  apply replace_words_ext; [|constructor].
  intros w _. apply abbreviate_idem.
Qed.

End Table.

(** *** Case mapping on ASCII *)

(** An ASCII character that is not a lower-case letter. *)
Definition upper_ascii (c : N) : bool := (is_ascii c && negb (ascii_lower c))%bool.

Lemma ascii_cases (P : N -> bool) :
  forallb P (map N.of_nat (seq 0 128)) = true ->
  forall c, is_ascii c = true -> P c = true.
Proof.
  intros H c Hc. apply (proj1 (forallb_forall _ _) H).
  apply N.ltb_lt in Hc. rewrite <- (N2Nat.id c). apply in_map.
  apply in_seq. lia.
Qed.

Lemma cp_upper_ascii c : is_ascii c = true -> upper_ascii (cp_upper c) = true.
Proof.
  apply (ascii_cases (fun c => upper_ascii (cp_upper c))).
  vm_compute. reflexivity.
Qed.

Lemma upper_after_case c :
  upper_ascii c = true ->
  cp_upper (cp_lower c) = c /\ cp_upper (cp_title c) = c.
Proof.
  intros H. pose proof H as H'. apply andb_prop in H' as [Ha _].
  pose proof (ascii_cases
                (fun c => implb (upper_ascii c)
                            (N.eqb (cp_upper (cp_lower c)) c
                             && N.eqb (cp_upper (cp_title c)) c))
                ltac:(vm_compute; reflexivity) c Ha) as Hc.
  cbv beta in Hc. rewrite H in Hc. cbn [implb] in Hc.
  apply andb_prop in Hc as [H1 H2].
  split; apply N.eqb_eq; assumption.
Qed.

Lemma upper_title X :
  Forall (fun c => upper_ascii c = true) X ->
  forall b, upper (title_from b X) = X.
Proof.
  induction 1 as [|c X Hc HX IH]; intros b; [reflexivity|].
  cbn [title_from upper map]. fold (upper (title_from (cp_cased c) X)).
  rewrite IH. destruct (upper_after_case c Hc) as [H1 H2].
  destruct b; [rewrite H1|rewrite H2]; reflexivity.
Qed.

Lemma upper_of_ascii A :
  ascii_str A -> Forall (fun c => upper_ascii c = true) (upper A).
Proof.
  induction 1 as [|c A Hc HA IH]; [constructor|].
  cbn [upper map]. constructor; [apply cp_upper_ascii; exact Hc|exact IH].
Qed.

Lemma sub_go_forall (P : N -> Prop) r repl :
  Forall P repl ->
  forall s prev skip, Forall P s -> Forall P (sub_go r repl prev s skip).
Proof.
  intros Hr. induction s as [|c s IH]; intros prev skip Hs; [constructor|].
  inversion Hs; subst. cbn [sub_go].
  destruct skip as [|n]; [|apply IH; assumption].
  destruct (match_at r prev (c :: s)) as [[[? rest] ?]|].
  - destruct (List.length (c :: s) - List.length rest).
    + constructor; [assumption|apply IH; assumption].
    + apply Forall_app. split; [exact Hr|apply IH; assumption].
  - constructor; [assumption|apply IH; assumption].
Qed.

Lemma abbreviations_upper :
  forallb (fun e => forallb upper_ascii (snd e)) abbrev_map = true.
Proof. vm_compute. reflexivity. Qed.

Lemma fold_replace_abbrev_upper : forall m s,
  forallb (fun e => forallb upper_ascii (snd e)) m = true ->
  Forall (fun c => upper_ascii c = true) s ->
  Forall (fun c => upper_ascii c = true) (fold_left replace_abbrev m s).
Proof.
  induction m as [|e m IH]; intros s Hm Hs; [exact Hs|].
  cbn [forallb] in Hm. apply andb_prop in Hm as [He Hm].
  cbn [fold_left]. apply IH; [exact Hm|].
  unfold replace_abbrev, re_sub. apply sub_go_forall; [|exact Hs].
  apply Forall_forall. exact (proj1 (forallb_forall _ _) He).
Qed.

Lemma ascii_str_of_forallb s : forallb is_ascii s = true -> ascii_str s.
Proof.
  intros H. apply Forall_forall. exact (proj1 (forallb_forall _ _) H).
Qed.

(** The Kelvin sign is an upper-case letter whose lower case is the ASCII
    "k": "PAR\u212aWAY" is no key, but its title case is "Parkway". *)
Definition kelvin_parkway : str :=
  of_string "PAR" ++ [KELVIN] ++ of_string "WAY".

(** C8, as the specification words it, does not hold for every string:
    Normalized("PAR\u212aWAY") is "Parkway", whose Normalized is "Pkwy". *)
Lemma C8_normalize_not_idempotent :
  normalize_address (normalize_address kelvin_parkway)
  <> normalize_address kelvin_parkway.
Proof. vm_compute. discriminate. Qed.

(** C8, amended: for every address made of ASCII characters, applying the
    Normalized transform twice gives the same result as applying it once. *)
Theorem C8_normalize_idempotent_on_ascii A :
  ascii_str A ->
  normalize_address (normalize_address A) = normalize_address A.
Proof.
  intros HA. destruct (truthy A) eqn:Ht.
  2:{ assert (E : normalize_address A = A)
        by (unfold normalize_address; rewrite Ht; reflexivity).
      rewrite !E. reflexivity. }
  pose proof (GeocoderFacts.normalize_address_truthy A Ht) as Hn.
  unfold normalize_address at 1. rewrite Hn. cbn [negb].
  unfold normalize_address. rewrite Ht. cbn [negb]. cbv zeta.
  assert (HX : Forall (fun c => upper_ascii c = true)
                 (fold_left replace_abbrev abbrev_map (upper A))).
  { apply fold_replace_abbrev_upper;
      [exact abbreviations_upper|apply upper_of_ascii; exact HA]. }
  unfold title at 2. rewrite (upper_title _ HX false).
  rewrite (fold_replace_abbrev_idem abbrev_map abbrev_map_ok). reflexivity.
Qed.

Lemma C8_witness :
  normalize_address
    (normalize_address
       (of_string "123 Main Street Apt 4B, Springfield, VA 22150"))
  = normalize_address
      (of_string "123 Main Street Apt 4B, Springfield, VA 22150").
Proof.
  apply C8_normalize_idempotent_on_ascii.
  apply ascii_str_of_forallb. vm_compute. reflexivity.
Defined.

End NormalizeFacts.

(* ================================================================== *)
(** ** Further properties of the code *)

(** *** The credential cache and the Geocoder's book-keeping *)

Module GeocoderCoverage.
Import PyStr Re Py Config Data Runtime Metrics AddressUtils.
Import GeocoderFacts ResolutionFacts.


(** The number of calls of the parameter store. *)
Fixpoint store_calls (t : list Event) : nat :=
  match t with
  | [] => 0
  | Ssm_get_parameter :: rest => S (store_calls rest)
  | _ :: rest => store_calls rest
  end.




(** A world whose cache holds a key. *)
Definition world_with_key : World :=
  snd (get_here_api_key GeocoderFacts.env_only_no_unit fresh_world).


End GeocoderCoverage.

(** *** The travel estimator without positions *)

Module EstimatorCoverage.
Import PyStr Re Py PyMath Config Data Runtime Metrics AddressUtils TravelTime.
Import GeocoderFacts TravelTimeFacts ResolutionFacts.

(** The geocoding provider resolves no address, whatever happened before. *)
Definition resolves_nothing (env : Env) : Prop :=
  forall history address, here_geocode env history address = None.

(** The call of the parameter store returns, with a value or with the
    [ClientError] the source catches, whatever happened before. *)
Definition store_answers (env : Env) : Prop :=
  forall history, exists k, ssm_get_parameter env history = Ok k.

Lemma key_retrieved env :
  store_answers env ->
  forall w, exists k w1, get_here_api_key env w = (Ok k, w1).
Proof.
  intros Hs w. rewrite get_here_api_key_cases.
  destruct (opt_truthy (_here_api_key w)); [eexists _, _; reflexivity|].
  destruct (Hs (trace w)) as (k & ->).
  destruct k; eexists _, _; reflexivity.
Qed.

Lemma geocoder_finds_nothing env :
  store_answers env -> resolves_nothing env ->
  forall address w, exists w',
    geocode_with_fuzzy_matching env address w = (Ok None, w').
Proof.
  intros Hstore Hblind address w.
  destruct address as [a|]; [|eexists; reflexivity].
  destruct (truthy a) eqn:Ha.
  2:{ unfold geocode_with_fuzzy_matching. rewrite Ha. eexists; reflexivity. }
  rewrite (geocoder_entry env w a Ha).
  destruct (key_retrieved env Hstore (entered w (Some a))) as (k & w1 & ->).
  destruct k as [key|]; cbn [opt_truthy negb]; [|eexists; reflexivity].
  destruct (truthy key) eqn:Hkey; cbn [negb]; [|eexists; reflexivity].
  destruct (try_variations_run env key Hkey (variations a) 0 w1
              ltac:(cbn; lia))
    as (w' & result & failed & winner & untried & Hrun & R).
  rewrite Hrun. exists w'. f_equal. f_equal.
  rewrite (run_result R).
  destruct winner as [[v c]|]; [|reflexivity].
  pose proof (run_winner R eq_refl) as Hw.
  rewrite Hblind in Hw. discriminate Hw.
Qed.

Lemma fallback_unresolved env :
  store_answers env -> resolves_nothing env ->
  forall oa da oc dc w,
    oc = None \/ dc = None ->
    fst (calculate_travel_time_fallback env oa da oc dc w) = Ok 30%Z.
Proof.
  intros Hstore Hblind oa da oc dc w Hmissing.
  unfold calculate_travel_time_fallback.
  destruct oc as [[lat1 lon1]|].
  - destruct Hmissing as [H | ->]; [discriminate H|].
    unfold coords_or_geocode at 1. unfold bind at 1. cbn [ret].
    unfold coords_or_geocode at 1. unfold bind at 1.
    destruct (geocoder_finds_nothing env Hstore Hblind da w) as (w' & ->).
    reflexivity.
  - unfold coords_or_geocode at 1. unfold bind at 1.
    destruct (geocoder_finds_nothing env Hstore Hblind oa w) as (w' & ->).
    reflexivity.
Qed.

(** X3: while the call of the parameter store returns and the geocoding
    provider resolves no address, the travel estimator called with a
    coordinate pair missing returns the default of 30 minutes, and the pair
    that was given plays no part. *)
Theorem estimator_default_when_unresolved env oa da oc dc w :
  store_answers env ->
  resolves_nothing env ->
  oc = None \/ dc = None ->
  fst (calculate_travel_time_with_coords env oa da oc dc w) = Ok 30%Z.
Proof.
  intros Hstore Hblind Hmissing.
  unfold calculate_travel_time_with_coords. unfold bind at 1.
  destruct (key_retrieved env Hstore w) as (k & w1 & ->).
  destruct oc as [o|].
  - destruct Hmissing as [H | ->]; [discriminate H|].
    unfold coords_or_geocode at 1. unfold bind at 1. cbn [ret].
    unfold coords_or_geocode at 1. unfold bind at 1.
    destruct (geocoder_finds_nothing env Hstore Hblind da w1) as (w' & ->).
    apply (fallback_unresolved env Hstore Hblind). left; reflexivity.
  - unfold coords_or_geocode at 1. unfold bind at 1.
    destruct (geocoder_finds_nothing env Hstore Hblind oa w1) as (w' & ->).
    apply (fallback_unresolved env Hstore Hblind). left; reflexivity.
Qed.

Definition env_blind_provider : Env :=
  {| ssm_get_parameter := fun _ => Ok (Some (of_string "here-api-key"));
     here_geocode := fun _ _ => None;
     here_route := fun _ _ _ => Some 600%float;
     datetime_now := fun _ => [];
     time_time := fun _ => 0%Z;
     libm := no_libm |}.

Lemma estimator_default_witness :
  fst (calculate_travel_time_with_coords env_blind_provider
         (Some (of_string "1 Main St")) (Some (of_string "2 Oak Ave"))
         (Some (1%float, 2%float)) None fresh_world) = Ok 30%Z.
Proof.
  apply (estimator_default_when_unresolved env_blind_provider).
  - intros history. eexists. reflexivity.
  - intros history address. reflexivity.
  - right. reflexivity.
Defined.

(** X4: with both coordinate pairs given, the travel estimator's answer and
    everything it does are the same for all address texts: the addresses are
    not sent anywhere and the Geocoder is not entered. *)
Theorem estimator_ignores_addresses_given_coordinates
    env oa da oa' da' origin dest w :
  calculate_travel_time_with_coords env oa da (Some origin) (Some dest) w
  = calculate_travel_time_with_coords env oa' da' (Some origin) (Some dest) w
  /\ geocoder_calls
       (trace (snd (calculate_travel_time_with_coords env oa da
                      (Some origin) (Some dest) w)))
     = geocoder_calls (trace w).
Proof.
  split.
  - unfold calculate_travel_time_with_coords. unfold bind at 1 5.
    destruct (get_here_api_key env w) as [[k|e] w1]; [|reflexivity].
    unfold coords_or_geocode, bind, ret.
    destruct (opt_truthy k).
    + destruct (here_routing_minutes env origin dest w1) as [[[m|]|e] w2];
        try reflexivity.
      all: rewrite !fallback_with_coords; reflexivity.
    + rewrite !fallback_with_coords. reflexivity.
  - rewrite (estimator_keeps_destination env oa da (Some origin) dest w
               (or_introl (some_not_none origin))).
    apply app_nil_r.
Qed.

End EstimatorCoverage.

(** *** The address transforms *)

Module TransformCoverage.
Import PyStr Re AddressUtils NormalizeFacts.

(** **** [str.strip] *)

Definition starts_unspaced (s : str) : Prop :=
  match s with
  | c :: _ => cp_space c = false
  | [] => True
  end.

Lemma lstrip_incl c : forall s, In c (lstrip s) -> In c s.
Proof.
  induction s as [|x s IH]; [intros []|].
  cbn [lstrip]. destruct (cp_space x); [|intros H; exact H].
  intros H. right. apply IH. exact H.
Qed.

Lemma strip_incl c s : In c (strip s) -> In c s.
Proof.
  unfold strip, rstrip. intros H.
  apply in_rev, lstrip_incl in H. apply in_rev in H.
  apply lstrip_incl. exact H.
Qed.

Lemma lstrip_head s : starts_unspaced (lstrip s).
Proof.
  induction s as [|x s IH]; [exact I|].
  cbn [lstrip]. destruct (cp_space x) eqn:E; [exact IH|exact E].
Qed.

Lemma lstrip_fixed s : starts_unspaced s -> lstrip s = s.
Proof.
  destruct s as [|x s]; [reflexivity|]. cbn. intros ->. reflexivity.
Qed.

Lemma lstrip_snoc c : cp_space c = false ->
  forall l, exists x, lstrip (l ++ [c]) = x ++ [c].
Proof.
  intros Hc. induction l as [|a l IH].
  - exists []. cbn. rewrite Hc. reflexivity.
  - cbn [app lstrip]. destruct (cp_space a); [exact IH|].
    exists (a :: l). reflexivity.
Qed.

Lemma rstrip_head s : starts_unspaced s -> starts_unspaced (rstrip s).
Proof.
  destruct s as [|c r]; [intros _; exact I|]. cbn [starts_unspaced].
  intros Hc. unfold rstrip. cbn [rev].
  destruct (lstrip_snoc c Hc (rev r)) as (x & ->).
  rewrite rev_app_distr. exact Hc.
Qed.

Lemma strip_idem s : strip (strip s) = strip s.
Proof.
  unfold strip.
  rewrite (lstrip_fixed (rstrip (lstrip s)))
    by (apply rstrip_head, lstrip_head).
  unfold rstrip. rewrite rev_involutive.
  rewrite (lstrip_fixed (lstrip (rev (lstrip s)))) by apply lstrip_head.
  reflexivity.
Qed.

(** **** [str.split(',', 1)[0]] *)

Lemma before_first_free sep : forall s, ~ In sep (before_first sep s).
Proof.
  induction s as [|c s IH]; [intros []|].
  cbn [before_first]. destruct (N.eqb c sep) eqn:E; [intros []|].
  intros [H|H]; [|exact (IH H)].
  apply N.eqb_neq in E. exact (E H).
Qed.

Lemma before_first_id sep : forall s, ~ In sep s -> before_first sep s = s.
Proof.
  induction s as [|c s IH]; [reflexivity|]. intros H.
  cbn [before_first]. destruct (N.eqb c sep) eqn:E.
  - apply N.eqb_eq in E. exfalso. apply H. left. exact E.
  - rewrite IH; [reflexivity|]. intros Hin. apply H. right. exact Hin.
Qed.

Lemma remove_secondary_free address : ~ In COMMA (remove_secondary address).
Proof.
  unfold remove_secondary. destruct address as [|c r]; [intros []|].
  cbn [truthy negb]. intros H. apply strip_incl in H.
  exact (before_first_free COMMA (c :: r) H).
Qed.

(** X5: the result of [remove_secondary] holds no comma and no white space
    at either end, and [remove_secondary] leaves it as it is. *)
Theorem remove_secondary_normal_form address :
  ascii_str address ->
  ~ In COMMA (remove_secondary address)
  /\ strip (remove_secondary address) = remove_secondary address
  /\ remove_secondary (remove_secondary address) = remove_secondary address.
Proof.
  intros _. split; [apply remove_secondary_free|].
  assert (Hs : strip (remove_secondary address) = remove_secondary address).
  { unfold remove_secondary. destruct address as [|c r]; [reflexivity|].
    cbn [truthy negb]. apply strip_idem. }
  split; [exact Hs|].
  pose proof (remove_secondary_free address) as Hfree.
  unfold remove_secondary at 1.
  destruct (remove_secondary address) as [|c r] eqn:E; [reflexivity|].
  cbn [truthy negb]. rewrite (before_first_id COMMA (c :: r) Hfree).
  exact Hs.
Qed.

Lemma remove_secondary_witness :
  remove_secondary
    (remove_secondary (of_string "  12 Oak Lane , Unit 3, Reston, VA"))
  = remove_secondary (of_string "  12 Oak Lane , Unit 3, Reston, VA").
Proof.
  apply (remove_secondary_normal_form
           (of_string "  12 Oak Lane , Unit 3, Reston, VA")).
  apply ascii_str_of_forallb. vm_compute. reflexivity.
Defined.

(** **** The patterns that begin with [(.*?),] *)

Definition comma_free (s : str) : Prop := Forall (fun c => c <> COMMA) s.

Lemma star_match_nowhere {A} greedy p (k : option N -> str -> option A) :
  (forall prev s, comma_free s -> k prev s = None) ->
  forall s prev, comma_free s -> star_match greedy p prev s k = None.
Proof.
  intros Hk. induction s as [|c s IH]; intros prev Hs.
  - cbn. apply Hk. exact Hs.
  - cbn [star_match]. inversion Hs; subst.
    rewrite (Hk prev (c :: s) Hs), (IH (Some c)) by assumption.
    destruct (p c), greedy; reflexivity.
Qed.

Lemma street_needs_comma n (rest : regex) s :
  comma_free s ->
  re_match (Cat (Group n (Star false dot)) (Cat (lit COMMA) rest)) s = None.
Proof.
  intros Hs. unfold re_match, match_at. cbn [rmatch].
  rewrite star_match_nowhere; [reflexivity| |exact Hs].
  intros prev s' Hs'. destruct s' as [|c s']; [reflexivity|].
  inversion Hs'; subst. unfold lit. cbn [rmatch].
  destruct (N.eqb COMMA c) eqn:E; [|reflexivity].
  apply N.eqb_eq in E. congruence.
Qed.

(** X6: an address without a comma goes through the three transforms that
    look for one unchanged, up to the white space [remove_secondary] strips
    at its ends. *)
Theorem transforms_without_comma address :
  ascii_str address ->
  ~ In COMMA address ->
  extract_street_city_state address = address
  /\ extract_street_zip address = address
  /\ remove_secondary address = strip address.
Proof.
  intros _ Hfree.
  assert (Hs : comma_free address).
  { apply Forall_forall. intros c Hc ->. exact (Hfree Hc). }
  repeat split.
  - unfold extract_street_city_state.
    destruct (negb (truthy address)); [reflexivity|].
    unfold street_city_state_re. rewrite street_needs_comma by exact Hs.
    reflexivity.
  - unfold extract_street_zip.
    destruct (negb (truthy address)); [reflexivity|].
    unfold street_re.
    assert (E : re_match (Cat (Group 1 (Star false dot)) (lit COMMA)) address
                = None).
    { unfold re_match, match_at. cbn [rmatch].
      rewrite star_match_nowhere; [reflexivity| |exact Hs].
      intros prev s' Hs'. destruct s' as [|c s']; [reflexivity|].
      inversion Hs'; subst. unfold lit. cbn [rmatch].
      destruct (N.eqb COMMA c) eqn:E; [|reflexivity].
      apply N.eqb_eq in E. congruence. }
    rewrite E. reflexivity.
  - unfold remove_secondary. destruct address as [|c r]; [reflexivity|].
    cbn [truthy negb]. rewrite before_first_id by exact Hfree. reflexivity.
Qed.

Lemma transforms_without_comma_witness :
  extract_street_zip (of_string "12 Oak Lane 22150")
  = of_string "12 Oak Lane 22150".
Proof.
  apply (transforms_without_comma (of_string "12 Oak Lane 22150")).
  - apply ascii_str_of_forallb. vm_compute. reflexivity.
  - vm_compute. intros H. repeat (destruct H as [H|H]; [discriminate H|]).
    exact H.
Defined.

(** **** What [normalize_address] leaves alone *)

(** The characters of a string that belong to no word, in order. *)
Definition punctuation (s : str) : str :=
  filter (fun c => negb (cp_word c)) s.

Lemma punctuation_word w : all_word w -> punctuation w = [].
Proof.
  induction 1 as [|c w Hc Hw IH]; [reflexivity|].
  cbn. rewrite Hc. exact IH.
Qed.

Lemma punctuation_replace_words f :
  word_map f ->
  forall s cur, all_word cur ->
    punctuation (replace_words f cur s) = punctuation s.
Proof.
  intros [_ Hf]. induction s as [|c s IH]; intros cur Hcur.
  - cbn [replace_words]. apply punctuation_word, Hf, Hcur.
  - cbn [replace_words]. destruct (cp_word c) eqn:Hc.
    + rewrite IH.
      * cbn. rewrite Hc. reflexivity.
      * apply Forall_app. split; [exact Hcur|].
        constructor; [exact Hc|constructor].
    + unfold punctuation. rewrite filter_app. fold (punctuation (f cur)).
      rewrite (punctuation_word (f cur) (Hf cur Hcur)). cbn. rewrite Hc. cbn.
      f_equal. apply (IH [] (Forall_nil _)).
Qed.

(** A case mapping that turns words into words and keeps the rest. *)
Definition keeps_class (g : N -> N) (c : N) : bool :=
  (Bool.eqb (cp_word (g c)) (cp_word c)
   && (cp_word c || N.eqb (g c) c))%bool.

Lemma punctuation_cons_mapped g c rest rest' :
  keeps_class g c = true ->
  punctuation rest' = punctuation rest ->
  punctuation (g c :: rest') = punctuation (c :: rest).
Proof.
  intros H E. apply andb_prop in H as [H1 H2].
  apply Bool.eqb_prop in H1. unfold punctuation in *. cbn [filter].
  rewrite H1, E.
  destruct (cp_word c); [reflexivity|].
  cbn in H2. apply N.eqb_eq in H2. rewrite H2. reflexivity.
Qed.

Lemma case_maps_keep_class c :
  is_ascii c = true ->
  keeps_class cp_upper c = true /\ keeps_class cp_lower c = true
  /\ keeps_class cp_title c = true.
Proof.
  intros Hc.
  pose proof (ascii_cases
                (fun c => keeps_class cp_upper c && keeps_class cp_lower c
                          && keeps_class cp_title c)%bool
                ltac:(vm_compute; reflexivity) c Hc) as H.
  cbv beta in H. apply andb_prop in H as [H H3].
  apply andb_prop in H as [H1 H2]. repeat split; assumption.
Qed.

Lemma punctuation_upper s : ascii_str s -> punctuation (upper s) = punctuation s.
Proof.
  induction 1 as [|c s Hc Hs IH]; [reflexivity|].
  cbn [upper map]. apply punctuation_cons_mapped; [|exact IH].
  apply (case_maps_keep_class c Hc).
Qed.

Lemma punctuation_title s : ascii_str s ->
  forall b, punctuation (title_from b s) = punctuation s.
Proof.
  induction 1 as [|c s Hc Hs IH]; intros b; [reflexivity|].
  cbn [title_from]. destruct (case_maps_keep_class c Hc) as (_ & Hl & Ht).
  destruct b; apply punctuation_cons_mapped; try apply IH; assumption.
Qed.

(** X7: [normalize_address] changes words only: the characters of the
    address that belong to no word (blanks, commas, [#], hyphens, ...) are the
    same, in the same order, in its result. *)
Theorem normalize_address_keeps_punctuation address :
  ascii_str address ->
  punctuation (normalize_address address) = punctuation address.
Proof.
  intros HA. unfold normalize_address.
  destruct (negb (truthy address)); [reflexivity|]. cbv zeta.
  assert (HX : Forall (fun c => upper_ascii c = true)
                 (fold_left replace_abbrev abbrev_map (upper address))).
  { apply fold_replace_abbrev_upper;
      [exact abbreviations_upper|apply upper_of_ascii; exact HA]. }
  unfold title. rewrite punctuation_title.
  - rewrite (fold_replace_abbrev abbrev_map abbrev_map_ok)
      by apply incl_refl.
    rewrite punctuation_replace_words;
      [apply punctuation_upper; exact HA
      |apply (abbreviate_word_map abbrev_map abbrev_map_ok), incl_refl
      |constructor].
  - apply Forall_forall. intros c Hc.
    pose proof (proj1 (Forall_forall _ _) HX c Hc) as H.
    apply andb_prop in H as [H _]. exact H.
Qed.

Lemma normalize_address_punctuation_witness :
  punctuation (normalize_address (of_string "9 North Oak-Hill Road, #4"))
  = punctuation (of_string "9 North Oak-Hill Road, #4").
Proof.
  apply normalize_address_keeps_punctuation.
  apply ascii_str_of_forallb. vm_compute. reflexivity.
Defined.

(** **** White space after [remove_unit] *)

(** Every white-space character of the string is a blank that does not
    follow white space; [after_space] says whether the character before the
    string is white space. *)
Fixpoint single_spaced (after_space : bool) (s : str) : bool :=
  match s with
  | [] => true
  | c :: r =>
      if cp_space c
      then (N.eqb c 32 && negb after_space && single_spaced true r)%bool
      else single_spaced false r
  end.

(** Every run of white space replaced by one blank; [in_run] says whether
    the run the string starts in has been replaced already. *)
Fixpoint collapse (in_run : bool) (s : str) : str :=
  match s with
  | [] => []
  | c :: r =>
      if cp_space c
      then if in_run then collapse true r else 32%N :: collapse true r
      else c :: collapse false r
  end.

Lemma lstrip_length s : List.length (lstrip s) <= List.length s.
Proof.
  induction s as [|c s IH]; [reflexivity|].
  cbn [lstrip]. destruct (cp_space c); cbn [List.length]; lia.
Qed.

Lemma star_match_spaces (caps : captures) : forall s prev,
  exists p,
    star_match true cp_space prev s
      (fun p' s' => Some (p', s', caps))
    = Some (p, lstrip s, caps).
Proof.
  induction s as [|c s IH]; intros prev; [exists prev; reflexivity|].
  cbn [star_match lstrip]. destruct (cp_space c).
  - destruct (IH (Some c)) as (p & ->). exists p. reflexivity.
  - exists prev. reflexivity.
Qed.

Lemma match_at_spaces prev c s :
  match_at spaces_re prev (c :: s)
  = if cp_space c
    then match_at (Star true cp_space) (Some c) s
    else None.
Proof.
  unfold match_at, spaces_re, plus. cbn [rmatch].
  destruct (cp_space c); reflexivity.
Qed.

Lemma match_at_spaces_rest prev c s :
  cp_space c = true ->
  exists p, match_at spaces_re prev (c :: s) = Some (p, lstrip s, []).
Proof.
  intros Hc. rewrite match_at_spaces, Hc.
  unfold match_at. cbn [rmatch]. apply star_match_spaces.
Qed.

Lemma sub_go_spaces_prev repl : forall s prev prev' skip,
  sub_go spaces_re repl prev s skip = sub_go spaces_re repl prev' s skip.
Proof.
  induction s as [|c s IH]; intros prev prev' skip; [reflexivity|].
  cbn [sub_go]. destruct skip as [|n]; [|reflexivity].
  rewrite !match_at_spaces. reflexivity.
Qed.

Lemma sub_go_skip_spaces repl : forall s prev prev',
  sub_go spaces_re repl prev s (List.length s - List.length (lstrip s))
  = sub_go spaces_re repl prev' (lstrip s) 0.
Proof.
  induction s as [|c s IH]; intros prev prev'; [reflexivity|].
  cbn [lstrip]. destruct (cp_space c).
  - pose proof (lstrip_length s) as Hl.
    replace (List.length (c :: s) - List.length (lstrip s))
      with (S (List.length s - List.length (lstrip s)))
      by (cbn [List.length]; lia).
    cbn [sub_go]. apply IH.
  - rewrite Nat.sub_diag. apply sub_go_spaces_prev.
Qed.

Lemma collapse_in_run : forall s, collapse true s = collapse false (lstrip s).
Proof.
  induction s as [|c s IH]; [reflexivity|].
  cbn [collapse lstrip]. destruct (cp_space c) eqn:Hc; [exact IH|].
  cbn [collapse]. rewrite Hc. reflexivity.
Qed.

Lemma sub_go_collapse : forall n s prev,
  List.length s <= n ->
  sub_go spaces_re [32%N] prev s 0 = collapse false s.
Proof.
  induction n as [|n IH]; intros s prev Hlen.
  - destruct s; [reflexivity|cbn in Hlen; lia].
  - destruct s as [|c s]; [reflexivity|].
    cbn [sub_go collapse]. destruct (cp_space c) eqn:Hc.
    + destruct (match_at_spaces_rest prev c s Hc) as (p & ->).
      pose proof (lstrip_length s) as Hl.
      replace (List.length (c :: s) - List.length (lstrip s))
        with (S (List.length s - List.length (lstrip s)))
        by (cbn [List.length]; lia).
      rewrite (sub_go_skip_spaces [32%N] s (Some c) None).
      rewrite IH by (cbn [List.length] in Hlen; lia).
      rewrite collapse_in_run. reflexivity.
    + rewrite match_at_spaces, Hc. f_equal.
      apply IH. cbn [List.length] in Hlen. lia.
Qed.

Lemma collapse_single_spaced : forall s b, single_spaced b (collapse b s) = true.
Proof.
  induction s as [|c s IH]; intros b; [reflexivity|].
  cbn [collapse]. destruct (cp_space c) eqn:Hc.
  - destruct b; [apply IH|].
    cbn [single_spaced]. rewrite IH. reflexivity.
  - cbn [single_spaced]. rewrite Hc. apply IH.
Qed.

Lemma single_spaced_weaken s :
  single_spaced true s = true -> single_spaced false s = true.
Proof.
  destruct s as [|c s]; [reflexivity|]. cbn [single_spaced].
  destruct (cp_space c); [|intros H; exact H].
  rewrite Bool.andb_false_r. discriminate.
Qed.

Lemma single_spaced_suffix : forall l b t,
  single_spaced b (l ++ t) = true -> single_spaced false t = true.
Proof.
  induction l as [|c l IH]; intros b t H.
  - destruct b; [apply single_spaced_weaken|]; exact H.
  - cbn [app single_spaced] in H. destruct (cp_space c).
    + apply andb_prop in H as [_ H]. exact (IH true t H).
    + exact (IH false t H).
Qed.

Lemma single_spaced_prefix : forall t b r,
  single_spaced b (t ++ r) = true -> single_spaced b t = true.
Proof.
  induction t as [|c t IH]; intros b r H; [reflexivity|].
  cbn [app single_spaced] in *. destruct (cp_space c).
  - apply andb_prop in H as [H1 H2]. rewrite H1, (IH true r H2). reflexivity.
  - exact (IH false r H).
Qed.

Lemma lstrip_suffix : forall s, exists l, s = l ++ lstrip s.
Proof.
  induction s as [|c s (l & IH)]; [exists []; reflexivity|].
  cbn [lstrip]. destruct (cp_space c).
  - exists (c :: l). cbn [app]. rewrite <- IH. reflexivity.
  - exists []. reflexivity.
Qed.

Lemma strip_infix s : exists l r, s = l ++ strip s ++ r.
Proof.
  destruct (lstrip_suffix s) as (l & Hl).
  destruct (lstrip_suffix (rev (lstrip s))) as (r & Hr).
  exists l, (rev r). unfold strip, rstrip.
  rewrite <- rev_app_distr, <- Hr, rev_involutive. exact Hl.
Qed.

(** X15: in the result of [remove_unit] every white-space character is a
    single blank: no tab or line break is left, no two blanks are adjacent,
    and there is no white space at either end. *)
Theorem remove_unit_single_spaced address :
  ascii_str address ->
  single_spaced false (remove_unit address) = true
  /\ strip (remove_unit address) = remove_unit address.
Proof.
  intros _. unfold remove_unit.
  destruct address as [|c r]; [split; reflexivity|].
  cbn [truthy negb]. cbv zeta. split; [|apply strip_idem].
  set (cleaned := re_sub trailing_comma_re [] (re_sub unit_re [] (c :: r))).
  change (of_string " ") with [32%N].
  unfold re_sub at 1. rewrite (sub_go_collapse (List.length cleaned)) by lia.
  destruct (strip_infix (collapse false cleaned)) as (l & t & H).
  pose proof (collapse_single_spaced cleaned false) as Hs.
  rewrite H in Hs. apply single_spaced_suffix in Hs.
  exact (single_spaced_prefix _ _ _ Hs).
Qed.

Lemma remove_unit_single_spaced_witness :
  single_spaced false
    (remove_unit (of_string "12  Oak Lane Apt 4B ,  Reston, VA ")) = true.
Proof.
  apply (remove_unit_single_spaced
           (of_string "12  Oak Lane Apt 4B ,  Reston, VA ")).
  apply ascii_str_of_forallb. vm_compute. reflexivity.
Defined.

End TransformCoverage.

(** *** What a dispatch leaves as it finds it *)

Module DispatchInvariants.
Import PyStr Re Py PyMath Config Data Runtime Metrics AddressUtils TravelTime.
Import DynamoUtils GeocoderFacts GeocoderCoverage.

(** A relation between the world before and after that every step of the
    dispatch respects is respected by the dispatch, whether it returns or
    raises.  The steps are the logged events, each kind with a hypothesis of
    its own, the recording of a metric, and [get_here_api_key], the only
    place where the parameter store is called and the key cached. *)
Section Invariant.

Variable env : Env.
Variable R : World -> World -> Prop.
Hypothesis R_refl : forall w, R w w.
Hypothesis R_trans : forall w1 w2 w3, R w1 w2 -> R w2 w3 -> R w1 w3.
Hypothesis R_call :
  forall a w, R w (snd (emit (Call_geocode_with_fuzzy_matching a) w)).
Hypothesis R_geocode : forall a w, R w (snd (emit (Http_geocode a) w)).
Hypothesis R_route : forall o d w, R w (snd (emit (Http_route o d) w)).
Hypothesis R_update :
  forall t l b w, R w (snd (emit (Dynamo_update_item t l b) w)).
Hypothesis R_put : forall item w, R w (snd (emit (Dynamo_put_item item) w)).
Hypothesis R_append : forall m w, R w (snd (append_metric m w)).
Hypothesis R_key : forall w, R w (snd (get_here_api_key env w)).

Definition keeps {A} (c : M A) : Prop := forall w, R w (snd (c w)).

Lemma keeps_ret {A} (a : A) : keeps (ret a).
Proof. intros w. apply R_refl. Qed.

Lemma keeps_lift {A} (r : Res A) : keeps (lift r).
Proof. intros w. apply R_refl. Qed.

Lemma keeps_get_world : keeps get_world.
Proof. intros w. apply R_refl. Qed.

Lemma keeps_bind {A B} (c : M A) (f : A -> M B) :
  keeps c -> (forall a, keeps (f a)) -> keeps (bind c f).
Proof.
  intros Hc Hf w. unfold bind. pose proof (Hc w) as H.
  destruct (c w) as [[a|e] w']; cbn [snd] in *; [|exact H].
  exact (R_trans _ _ _ H (Hf a w')).
Qed.

Lemma keeps_append m : keeps (append_metric m).
Proof. intros w. apply R_append. Qed.

Ltac keeps_step :=
  first
    [ match goal with
      | H : _ |- keeps _ => solve [apply H]
      end
    | apply keeps_ret
    | apply keeps_lift
    | apply keeps_get_world
    | apply keeps_append
    | exact R_key
    | exact (R_call _)
    | exact (R_geocode _)
    | exact (R_route _ _)
    | exact (R_update _ _ _)
    | exact (R_put _)
    | apply keeps_bind; [|intros ?]
    | match goal with
      | |- keeps (match ?x with _ => _ end) => destruct x
      end ].

Ltac keeps_all := cbv zeta; repeat keeps_step.

Lemma keeps_record_geocoding_success variation ok :
  keeps (record_geocoding_success env variation ok).
Proof. unfold record_geocoding_success. keeps_all. Qed.

Lemma keeps_geocode_address address api_key :
  keeps (geocode_address env address api_key).
Proof. unfold geocode_address. keeps_all. Qed.

Lemma keeps_try_variations api_key : forall vs i,
  keeps (try_variations env api_key i vs).
Proof.
  pose proof keeps_record_geocoding_success.
  pose proof keeps_geocode_address.
  induction vs as [|v vs IH]; intros i; cbn [try_variations]; keeps_all.
Qed.

Lemma keeps_geocoder original_address :
  keeps (geocode_with_fuzzy_matching env original_address).
Proof.
  pose proof keeps_try_variations.
  unfold geocode_with_fuzzy_matching. keeps_all.
Qed.

Lemma keeps_coords_or_geocode given address :
  keeps (coords_or_geocode env given address).
Proof.
  pose proof keeps_geocoder. unfold coords_or_geocode. keeps_all.
Qed.

Lemma keeps_fallback oa da oc dc :
  keeps (calculate_travel_time_fallback env oa da oc dc).
Proof.
  pose proof keeps_coords_or_geocode.
  unfold calculate_travel_time_fallback. keeps_all.
Qed.

Lemma keeps_here_routing_minutes origin dest :
  keeps (here_routing_minutes env origin dest).
Proof. unfold here_routing_minutes. keeps_all. Qed.

Lemma keeps_estimator oa da oc dc :
  keeps (calculate_travel_time_with_coords env oa da oc dc).
Proof.
  pose proof keeps_coords_or_geocode. pose proof keeps_fallback.
  pose proof keeps_here_routing_minutes.
  unfold calculate_travel_time_with_coords. keeps_all.
Qed.

Lemma keeps_calculate_locksmith_eta locksmith address c :
  keeps (calculate_locksmith_eta env locksmith address c).
Proof.
  pose proof keeps_estimator. pose proof keeps_geocoder.
  unfold calculate_locksmith_eta. keeps_all.
Qed.

Lemma keeps_update_next_available_cache company id travel c address :
  keeps (update_next_available_cache env company id travel c address).
Proof. unfold update_next_available_cache. keeps_all. Qed.

Lemma keeps_earliest_loop address c : forall locksmiths best,
  keeps (earliest_loop env locksmiths address c best).
Proof.
  pose proof keeps_calculate_locksmith_eta.
  induction locksmiths as [|l ls IH]; intros best; cbn [earliest_loop];
    keeps_all.
Qed.

Lemma keeps_find_earliest_locksmith locksmiths address :
  keeps (find_earliest_locksmith env locksmiths address).
Proof.
  pose proof keeps_geocoder. pose proof keeps_earliest_loop.
  pose proof keeps_update_next_available_cache.
  unfold find_earliest_locksmith. keeps_all.
Qed.

End Invariant.

End DispatchInvariants.

(** *** A dispatch as a whole *)

Module DispatchCoverage.
Import PyStr Re Py PyMath Config Data Runtime Metrics AddressUtils TravelTime.
Import DynamoUtils GeocoderFacts GeocoderCoverage DispatchInvariants.

(** [l'] is [l] with more at its end. *)
Definition extends {A} (l l' : list A) : Prop := exists more, l' = l ++ more.

Lemma extends_refl {A} (l : list A) : extends l l.
Proof. exists []. symmetry. apply app_nil_r. Qed.

Lemma extends_trans {A} (l1 l2 l3 : list A) :
  extends l1 l2 -> extends l2 l3 -> extends l1 l3.
Proof.
  intros (m1 & ->) (m2 & ->). exists (m1 ++ m2). symmetry. apply app_assoc.
Qed.

Lemma extends_snoc {A} (l : list A) a : extends l (l ++ [a]).
Proof. exists [a]. reflexivity. Qed.

Lemma store_calls_app t u :
  store_calls (t ++ u) = store_calls t + store_calls u.
Proof.
  induction t as [|e t IH]; [reflexivity|].
  destruct e; cbn; rewrite IH; reflexivity.
Qed.

(** The company variable is as it was, and the metrics buffer and the log of
    events have only been added to. *)
Definition framed (w w' : World) : Prop :=
  CURRENT_COMPANY w' = CURRENT_COMPANY w
  /\ extends (_metrics_to_record w) (_metrics_to_record w')
  /\ extends (trace w) (trace w').

Lemma framed_refl w : framed w w.
Proof. repeat split; apply extends_refl. Qed.

Lemma framed_trans w1 w2 w3 : framed w1 w2 -> framed w2 w3 -> framed w1 w3.
Proof.
  intros (A1 & B1 & C1) (A2 & B2 & C2). repeat split.
  - congruence.
  - exact (extends_trans _ _ _ B1 B2).
  - exact (extends_trans _ _ _ C1 C2).
Qed.

Lemma framed_key env w : framed w (snd (get_here_api_key env w)).
Proof.
  rewrite get_here_api_key_cases.
  destruct (opt_truthy (_here_api_key w)); [apply framed_refl|].
  destruct (ssm_get_parameter env (trace w)) as [[v|]|e]; cbn [snd];
    (split; [reflexivity|split; [apply extends_refl|apply extends_snoc]]).
Qed.

Lemma dispatch_framed env locksmiths new_job_address w :
  framed w (snd (find_earliest_locksmith env locksmiths new_job_address w)).
Proof.
  assert (E : forall e w0, framed w0 (snd (emit e w0)))
    by (intros e w0; repeat split; [apply extends_refl|apply extends_snoc]).
  apply (keeps_find_earliest_locksmith env framed framed_refl framed_trans);
    try (intros; apply E).
  - intros m w0. repeat split; [apply extends_snoc|apply extends_refl].
  - apply framed_key.
Qed.

(** X8: a dispatch, whether it returns or raises, leaves the company
    variable as it was, and only adds to the metrics buffer and to the log of
    events: nothing recorded earlier is dropped or rewritten. *)
Theorem dispatch_frame env locksmiths new_job_address w :
  let w' := snd (find_earliest_locksmith env locksmiths new_job_address w) in
  CURRENT_COMPANY w' = CURRENT_COMPANY w
  /\ extends (_metrics_to_record w) (_metrics_to_record w')
  /\ extends (trace w) (trace w').
Proof. exact (dispatch_framed env locksmiths new_job_address w). Qed.

(** With a key in the cache, the key is as it was and the parameter store has
    not been called. *)
Definition key_settled (w w' : World) : Prop :=
  opt_truthy (_here_api_key w) = true ->
  _here_api_key w' = _here_api_key w
  /\ store_calls (trace w') = store_calls (trace w).

Lemma key_settled_trans w1 w2 w3 :
  key_settled w1 w2 -> key_settled w2 w3 -> key_settled w1 w3.
Proof.
  intros H12 H23 H1. destruct (H12 H1) as [K12 S12].
  rewrite <- K12 in H1. destruct (H23 H1) as [K23 S23].
  split; congruence.
Qed.

(** X9: once a key is in the cache, a whole dispatch, whatever the number
    of technicians and of addresses it resolves, does not call the parameter
    store and leaves the cached key as it is. *)
Theorem dispatch_uses_cached_key env locksmiths new_job_address w :
  opt_truthy (_here_api_key w) = true ->
  let w' := snd (find_earliest_locksmith env locksmiths new_job_address w) in
  _here_api_key w' = _here_api_key w
  /\ store_calls (trace w') = store_calls (trace w).
Proof.
  assert (E : forall e w0,
             e <> Ssm_get_parameter -> key_settled w0 (snd (emit e w0))).
  { intros e w0 He _. split; [reflexivity|]. cbn [snd emit trace].
    rewrite store_calls_app. destruct e; cbn; try lia. congruence. }
  apply (keeps_find_earliest_locksmith env key_settled);
    try (intros; apply E; discriminate).
  - intros w0 _. split; reflexivity.
  - apply key_settled_trans.
  - intros m w0 _. split; reflexivity.
  - intros w0 H0. rewrite get_here_api_key_cases, H0.
    split; reflexivity.
Qed.

Lemma dispatch_uses_cached_key_witness :
  store_calls
    (trace (snd (find_earliest_locksmith env_without_credential
                   [AvailabilityFacts.busy_locksmith]
                   (Some (of_string "7 Elm Road, Reston, VA"))
                   world_with_key)))
  = store_calls (trace world_with_key).
Proof.
  apply (dispatch_uses_cached_key env_without_credential
           [AvailabilityFacts.busy_locksmith]
           (Some (of_string "7 Elm Road, Reston, VA")) world_with_key).
  reflexivity.
Defined.

(** The items written to [NextAvailableCache], in order. *)
Fixpoint cache_writes (t : list Event) : list CacheItem :=
  match t with
  | [] => []
  | Dynamo_put_item item :: rest => item :: cache_writes rest
  | _ :: rest => cache_writes rest
  end.

Lemma cache_writes_app t u :
  cache_writes (t ++ u) = cache_writes t ++ cache_writes u.
Proof.
  induction t as [|e t IH]; [reflexivity|].
  destruct e; cbn; rewrite IH; reflexivity.
Qed.

Definition no_cache_write (w w' : World) : Prop :=
  cache_writes (trace w') = cache_writes (trace w).

Lemma no_cache_write_emit e w :
  (forall item, e <> Dynamo_put_item item) ->
  no_cache_write w (snd (emit e w)).
Proof.
  intros He. unfold no_cache_write. cbn [snd emit trace].
  rewrite cache_writes_app.
  destruct e; cbn; try apply app_nil_r. exfalso. exact (He item eq_refl).
Qed.

Lemma no_cache_write_key env w :
  no_cache_write w (snd (get_here_api_key env w)).
Proof.
  unfold no_cache_write. rewrite get_here_api_key_cases.
  destruct (opt_truthy (_here_api_key w)); [reflexivity|].
  destruct (ssm_get_parameter env (trace w)) as [[v|]|e];
    cbn [snd set_here_api_key asked emit trace];
    rewrite cache_writes_app; apply app_nil_r.
Qed.

Ltac no_cache_write_steps :=
  try (intros; apply no_cache_write_emit; discriminate);
  try (intros; apply no_cache_write_key);
  try (intros; reflexivity);
  try (unfold no_cache_write; intros; congruence).

Lemma geocoder_writes_no_cache env address :
  keeps no_cache_write (geocode_with_fuzzy_matching env address).
Proof. apply keeps_geocoder; no_cache_write_steps. Qed.

Lemma loop_writes_no_cache env address c locksmiths best :
  keeps no_cache_write (earliest_loop env locksmiths address c best).
Proof. apply keeps_earliest_loop; no_cache_write_steps. Qed.

(** X13: a dispatch over at least one technician that returns has written
    exactly one entry to the availability cache, for the technician it
    returns and the company of the request; a dispatch that raises has
    written none. *)
Theorem dispatch_writes_cache_once env locksmiths new_job_address w :
  locksmiths <> [] ->
  let r := find_earliest_locksmith env locksmiths new_job_address w in
  match fst r with
  | Ok (locksmith_id, _) =>
      exists item,
        cache_writes (trace (snd r)) = cache_writes (trace w) ++ [item]
        /\ ci_locksmithId item = locksmith_id
        /\ ci_companyName item = CURRENT_COMPANY w
  | Raise _ => cache_writes (trace (snd r)) = cache_writes (trace w)
  end.
Proof.
  intros Hne. cbv zeta.
  destruct (find_earliest_locksmith env locksmiths new_job_address w)
    as [res w'] eqn:Hr. cbn [fst snd].
  unfold find_earliest_locksmith in Hr.
  destruct locksmiths as [|l ls]; [congruence|].
  unfold bind at 1 in Hr. unfold get_world at 1 in Hr. cbv beta iota in Hr.
  pose proof (geocoder_writes_no_cache env new_job_address w) as G.
  unfold bind at 1 in Hr.
  destruct (geocode_with_fuzzy_matching env new_job_address w)
    as [[c|e] w1]; cbn [snd] in G.
  2:{ injection Hr as <- <-. exact G. }
  pose proof (loop_writes_no_cache env new_job_address c (l :: ls)
                initial_earliest w1) as L.
  unfold bind at 1 in Hr.
  destruct (earliest_loop env (l :: ls) new_job_address c initial_earliest w1)
    as [[best|e] w2]; cbn [snd] in L.
  2:{ injection Hr as <- <-. unfold no_cache_write in *. congruence. }
  unfold update_next_available_cache in Hr. run_step.
  unfold bind, get_world, emit, ret in Hr. injection Hr as <- <-.
  eexists. split.
  - cbn [trace]. rewrite cache_writes_app. cbn [cache_writes].
    unfold no_cache_write in *. rewrite L, G. reflexivity.
  - split; reflexivity.
Qed.

Lemma dispatch_writes_cache_once_witness :
  exists item,
    cache_writes
      (trace (snd (find_earliest_locksmith env_without_credential
                     [AvailabilityFacts.idle_locksmith] None
                     AvailabilityFacts.world_of_unconfigured_company)))
    = cache_writes (trace AvailabilityFacts.world_of_unconfigured_company)
      ++ [item]
    /\ ci_locksmithId item = None
    /\ ci_companyName item
       = CURRENT_COMPANY AvailabilityFacts.world_of_unconfigured_company.
Proof.
  assert (Hne : [AvailabilityFacts.idle_locksmith] <> []) by discriminate.
  exact (dispatch_writes_cache_once env_without_credential
           [AvailabilityFacts.idle_locksmith] None
           AvailabilityFacts.world_of_unconfigured_company Hne).
Defined.

(** The updates of technicians' records, in order. *)
Fixpoint record_updates (t : list Event)
  : list (option str * str * BaseAddress) :=
  match t with
  | [] => []
  | Dynamo_update_item table_name locksmith_id base :: rest =>
      (table_name, locksmith_id, base) :: record_updates rest
  | _ :: rest => record_updates rest
  end.

Lemma record_updates_app t u :
  record_updates (t ++ u) = record_updates t ++ record_updates u.
Proof.
  induction t as [|e t IH]; [reflexivity|].
  destruct e; cbn; rewrite IH; reflexivity.
Qed.

Definition no_record_update (w w' : World) : Prop :=
  record_updates (trace w') = record_updates (trace w).

Lemma no_record_update_emit e w :
  (forall t l b, e <> Dynamo_update_item t l b) ->
  no_record_update w (snd (emit e w)).
Proof.
  intros He. unfold no_record_update. cbn [snd emit trace].
  rewrite record_updates_app.
  destruct e; cbn; try apply app_nil_r.
  exfalso. exact (He _ _ _ eq_refl).
Qed.

Lemma no_record_update_key env w :
  no_record_update w (snd (get_here_api_key env w)).
Proof.
  unfold no_record_update. rewrite get_here_api_key_cases.
  destruct (opt_truthy (_here_api_key w)); [reflexivity|].
  destruct (ssm_get_parameter env (trace w)) as [[v|]|e];
    cbn [snd set_here_api_key asked emit trace];
    rewrite record_updates_app; apply app_nil_r.
Qed.

Lemma estimator_updates_no_record env oa da oc dc :
  keeps no_record_update (calculate_travel_time_with_coords env oa da oc dc).
Proof.
  apply keeps_estimator;
    try (intros; apply no_record_update_emit; discriminate);
    try (intros; apply no_record_update_key);
    try (intros; reflexivity);
    try (unfold no_record_update; intros; congruence).
Qed.

Lemma geocoder_updates_no_record env address :
  keeps no_record_update (geocode_with_fuzzy_matching env address).
Proof.
  apply keeps_geocoder;
    try (intros; apply no_record_update_emit; discriminate);
    try (intros; apply no_record_update_key);
    try (intros; reflexivity);
    try (unfold no_record_update; intros; congruence).
Qed.

(** The update of a technician's record that stores a base address. *)
Definition stored_base (w : World) (l : Locksmith) (configured : str)
    (found : coords) : option str * str * BaseAddress :=
  (match CURRENT_COMPANY w with
   | Some name => dict_get COMPANY_TABLE_MAPPING name
   | None => None
   end,
   get_or (locksmithId l) (of_string "unknown"),
   {| ba_address := configured; ba_coords := Some found |}).

(** X14: [calculate_locksmith_eta] writes to a technician's record in one
    situation only, and then always: the queue is empty, the record holds no
    base address, and the Geocoder, called on the base address configured
    for the company, returns coordinates; it writes once, the configured
    address with the coordinates the Geocoder returned.  In every other
    situation (a job in the queue, a base address on the record, no address
    configured, the Geocoder finding nothing or raising) the records are
    not written to. *)
Theorem record_updated_only_to_store_base env l address c w :
  let w' := snd (calculate_locksmith_eta env l address c w) in
  record_updates (trace w')
  = record_updates (trace w)
    ++ match jobQueue l, base_address l,
             AvailabilityFacts.configured_base_address w with
       | [], None, Some configured =>
           if truthy configured then
             match fst (geocode_with_fuzzy_matching env (Some configured) w)
             with
             | Ok (Some found) => [stored_base w l configured found]
             | Ok None => []
             | Raise _ => []
             end
           else []
       | _, _, _ => []
       end.
Proof.
  cbv zeta.
  assert (E : forall workload oa oc w0,
             no_record_update w0
               (snd (AvailabilityFacts.with_workload workload
                       (calculate_travel_time_with_coords env oa address
                          oc c w0)))).
  { intros workload oa oc w0. unfold AvailabilityFacts.with_workload.
    pose proof (estimator_updates_no_record env oa address oc c w0) as H.
    destruct (calculate_travel_time_with_coords env oa address oc c w0)
      as [[t|e] w1]; [|exact H].
    unfold lift. destruct (eta_result workload t); exact H. }
  destruct (jobQueue l) as [|first_job rest] eqn:Hq.
  2:{ rewrite (AvailabilityFacts.eta_of_queue env l address c w first_job rest
                 Hq), app_nil_r.
      apply E. }
  destruct (base_address l) as [base|] eqn:Hb.
  1:{ rewrite (AvailabilityFacts.eta_of_cached_base env l address c w base
                 Hq Hb), app_nil_r.
      apply E. }
  destruct (AvailabilityFacts.configured_base_address w) as [configured|]
    eqn:Hconf.
  2:{ rewrite app_nil_r. rewrite AvailabilityFacts.eta_without_base;
        [reflexivity|assumption|assumption|rewrite Hconf; reflexivity]. }
  destruct (truthy configured) eqn:Ht.
  2:{ rewrite app_nil_r. rewrite AvailabilityFacts.eta_without_base;
        [reflexivity|assumption|assumption|rewrite Hconf; exact Ht]. }
  pose proof (geocoder_updates_no_record env (Some configured) w) as G.
  destruct (geocode_with_fuzzy_matching env (Some configured) w)
    as [[[found|]|e] w1] eqn:Hg; cbn [fst snd] in G |- *.
  - rewrite (AvailabilityFacts.eta_of_configured_base env l address c w
               configured found w1 Hq Hb Hconf Ht Hg).
    pose proof (E (Int 0) (Some configured) (Some found)
                  (snd (emit (AvailabilityFacts.base_address_update
                                w l configured found) w1))) as H.
    unfold no_record_update in H, G. rewrite H.
    cbn [snd emit trace]. rewrite record_updates_app, G. reflexivity.
  - rewrite app_nil_r. unfold calculate_locksmith_eta. rewrite Hq, Hb.
    unfold bind at 1. unfold get_world at 1. cbv beta iota.
    fold (AvailabilityFacts.configured_base_address w). rewrite Hconf.
    cbn [opt_truthy get_or]. rewrite Ht. cbn [negb].
    unfold bind at 1. rewrite Hg.
    unfold bind at 1. unfold ret at 1. cbv beta iota.
    pose proof (E (Int 0) (Some configured) None w1) as H.
    unfold AvailabilityFacts.with_workload in H.
    unfold no_record_update in *. rewrite <- G. exact H.
  - rewrite app_nil_r. unfold calculate_locksmith_eta. rewrite Hq, Hb.
    unfold bind at 1. unfold get_world at 1. cbv beta iota.
    fold (AvailabilityFacts.configured_base_address w). rewrite Hconf.
    cbn [opt_truthy get_or]. rewrite Ht. cbn [negb].
    unfold bind at 1. rewrite Hg. exact G.
Qed.

End DispatchCoverage.

(* ================================================================== *)
(** ** Where the Dispatcher departs from its specification *)

Module DispatchDefects.
Import PyStr Py PyMath Config Data Runtime Metrics AddressUtils TravelTime.
Import DynamoUtils GeocoderFacts TravelTimeFacts ResolutionFacts.
Import AvailabilityFacts DispatcherFacts DispatchInvariants DispatchCoverage.

(** *** A technician evaluation that raises *)

Definition key_kept (w w' : World) : Prop :=
  _here_api_key w' = _here_api_key w.

Lemma try_variations_keep_key env api_key vs i w :
  key_kept w (snd (try_variations env api_key i vs w)).
Proof.
  apply (keeps_try_variations env key_kept); unfold key_kept;
    intros; try reflexivity; congruence.
Qed.

(** When the Geocoder returns coordinates, a key is in the cache. *)
Lemma geocoder_success_caches_key env address w c w1 :
  geocode_with_fuzzy_matching env address w = (Ok (Some c), w1) ->
  opt_truthy (_here_api_key w1) = true.
Proof.
  destruct address as [a|]; [|intros H; discriminate H].
  destruct (truthy a) eqn:Ha.
  2:{ unfold geocode_with_fuzzy_matching. rewrite Ha.
      intros H. discriminate H. }
  rewrite (geocoder_entry env w a Ha).
  destruct (get_here_api_key env (entered w (Some a))) as [[k|e] w0] eqn:Hk;
    [|intros H; discriminate H].
  destruct k as [key|]; cbn [opt_truthy negb]; [|intros H; discriminate H].
  destruct (truthy key) eqn:Hkey; cbn [negb]; [|intros H; discriminate H].
  intros H.
  pose proof (try_variations_keep_key env (Some key) (variations a) 0 w0) as K.
  rewrite H in K. unfold key_kept in K. cbn [snd] in K.
  rewrite K, (get_here_api_key_cached env _ Hk). exact Hkey.
Qed.

(** The values of [sin], [cos] and [pow] that the C library returns at the
    arguments of the haversine formula for [near_norilsk] and
    [its_antipode]. *)
Definition c_library_at_antipodes (lm : Libm) : Prop :=
  libm_sin lm half_dlat = (-0x1.df9d5e3df0197p-1)%float
  /\ libm_cos lm lat1_rad = 0x1.6667f1c19dc42p-2%float
  /\ libm_cos lm lat2_rad = 0x1.6667f1c19dc42p-2%float
  /\ libm_sin lm half_dlon = (-1)%float
  /\ libm_pow lm 0x1.df9d5e3df0197p-1%float 2%float
     = 0x1.c14723b44194ap-1%float.

(** With a key in the cache the estimator asks for a route, and raises when
    none is given. *)
Lemma estimator_raises_with_cached_key env w origin_address dest_address :
  opt_truthy (_here_api_key w) = true ->
  (forall h, here_route env h near_norilsk its_antipode = None) ->
  c_library_at_antipodes (libm env) ->
  calculate_travel_time_with_coords env origin_address dest_address
    (Some near_norilsk) (Some its_antipode) w
  = (Raise ValueError, snd (emit (Http_route near_norilsk its_antipode) w)).
Proof.
  intros Hkey Hroute (Hs1 & Hc1 & Hc2 & Hs2 & Hp).
  unfold calculate_travel_time_with_coords, coords_or_geocode.
  unfold bind at 1. rewrite get_here_api_key_cases, Hkey.
  unfold bind at 1. unfold ret at 1. unfold bind at 1. unfold ret at 1.
  rewrite Hkey. unfold bind at 1.
  unfold here_routing_minutes. run_step. rewrite Hroute.
  rewrite fallback_with_coords.
  rewrite (haversine_near_antipodes (libm env) Hs1 Hc1 Hc2 Hs2 Hp).
  reflexivity.
Qed.

(** The coordinates on the last job of the queue. *)
Definition last_job_coords (l : Locksmith) : option coords :=
  match jobQueue l with
  | [] => None
  | first_job :: _ => job_coords (last (jobQueue l) first_job)
  end.

(** C1, at a failing input: the target address resolves to [its_antipode],
    the last job of the first technician's queue lies at [near_norilsk], and
    the routing provider gives no duration for the pair.  The Dispatcher then
    returns no technician at all: the evaluation of that technician raises
    [ValueError], find_earliest_locksmith raises it right after the routing
    request, and no write to the availability cache is attempted.  The
    hypothesis on the C library is the five values it returns at the
    arguments of the haversine formula. *)
Theorem C1_dispatch_raises_before_cache_write env w l rest address w1 :
  geocode_with_fuzzy_matching env address w = (Ok (Some its_antipode), w1) ->
  last_job_coords l = Some near_norilsk ->
  (forall h, here_route env h near_norilsk its_antipode = None) ->
  c_library_at_antipodes (libm env) ->
  find_earliest_locksmith env (l :: rest) address w
  = (Raise ValueError, snd (emit (Http_route near_norilsk its_antipode) w1))
  /\ cache_writes
       (trace (snd (find_earliest_locksmith env (l :: rest) address w)))
     = cache_writes (trace w).
Proof.
  intros Hg Hlast Hroute Hlibm.
  assert (Hrun : find_earliest_locksmith env (l :: rest) address w
                 = (Raise ValueError,
                    snd (emit (Http_route near_norilsk its_antipode) w1))).
  { rewrite (dispatch_shares_resolution env w l rest address
               (Some its_antipode) w1 Hg).
    unfold dispatch_with. unfold bind at 1. cbn [earliest_loop].
    unfold bind at 1.
    unfold last_job_coords in Hlast.
    destruct (jobQueue l) as [|first_job others] eqn:Hq; [discriminate Hlast|].
    rewrite (eta_of_queue env l address (Some its_antipode) w1 first_job
               others Hq).
    rewrite Hq, Hlast.
    rewrite (estimator_raises_with_cached_key env w1 _ address
               (geocoder_success_caches_key env address w its_antipode w1 Hg)
               Hroute Hlibm).
    reflexivity. }
  split; [exact Hrun|].
  rewrite Hrun. cbn [snd emit trace].
  rewrite cache_writes_app, app_nil_r.
  pose proof (geocoder_writes_no_cache env address w) as G.
  rewrite Hg in G. exact G.
Qed.

(** A technician whose last job lies near Norilsk, a job at the antipode, and
    a routing provider that gives no duration. *)
Definition env_antipodal_job : Env :=
  {| ssm_get_parameter := fun _ => Ok (Some (of_string "here-api-key"));
     here_geocode := fun _ _ => Some its_antipode;
     here_route := fun _ _ _ => None;
     datetime_now := fun _ => [];
     time_time := fun _ => 0%Z;
     libm := libm_at_antipodes |}.

Definition locksmith_near_norilsk : Locksmith :=
  {| locksmithId := Some (of_string "LS-1");
     jobQueue :=
       [ {| estimatedTime := Some 20%float; travelTime := Some 10%float;
            arrived := Some true;
            job_address := Some (of_string "1 Talnakhskaya St");
            latitude := Some (fst near_norilsk);
            longitude := Some (snd near_norilsk) |} ];
     base_address := None |}.

Lemma C1_witness :
  fst (find_earliest_locksmith env_antipodal_job [locksmith_near_norilsk]
         (Some (of_string "99 Far Side Road")) fresh_world)
  = Raise ValueError
  /\ cache_writes
       (trace (snd (find_earliest_locksmith env_antipodal_job
                      [locksmith_near_norilsk]
                      (Some (of_string "99 Far Side Road")) fresh_world)))
     = [].
Proof.
  destruct (C1_dispatch_raises_before_cache_write env_antipodal_job
              fresh_world locksmith_near_norilsk []
              (Some (of_string "99 Far Side Road"))
              (snd (geocode_with_fuzzy_matching env_antipodal_job
                      (Some (of_string "99 Far Side Road")) fresh_world)))
    as [Hrun Hcache].
  - vm_compute. reflexivity.
  - reflexivity.
  - intros h. reflexivity.
  - repeat split; vm_compute; reflexivity.
  - split; [rewrite Hrun; reflexivity|exact Hcache].
Defined.

(** *** The target address resolved again *)

(** How many times the Geocoder has been entered for [address]. *)
Definition resolved (address : str) (w : World) : nat :=
  resolutions_of address (geocoder_calls (trace w)).

Definition resolved_grows (address : str) (w w' : World) : Prop :=
  resolved address w <= resolved address w'.

Lemma resolved_emit address e w :
  resolved_grows address w (snd (emit e w)).
Proof.
  unfold resolved_grows, resolved. cbn [snd emit trace].
  rewrite geocoder_calls_app, resolutions_of_app. lia.
Qed.

Lemma resolved_append address m w :
  resolved_grows address w (snd (append_metric m w)).
Proof. unfold resolved_grows, resolved. cbn [snd append_metric trace]. lia. Qed.

Lemma resolved_key env address w :
  resolved_grows address w (snd (get_here_api_key env w)).
Proof.
  unfold resolved_grows, resolved.
  rewrite (proj1 (get_here_api_key_frame env w)). lia.
Qed.

Lemma resolved_entry env address w :
  resolved address (snd (geocode_with_fuzzy_matching env (Some address) w))
  = resolved address w + 1.
Proof.
  unfold resolved. rewrite (proj1 (geocoder_logs env (Some address) w)).
  rewrite resolutions_of_app. cbn [resolutions_of].
  rewrite eqb_refl. lia.
Qed.

Lemma bind_continues {A B} (R : World -> World -> Prop) (c : M A)
    (f : A -> M B) w :
  (forall w0, R w0 w0) ->
  (forall a, keeps R (f a)) ->
  R (snd (c w)) (snd (bind c f w)).
Proof.
  intros Hrefl Hf. unfold bind.
  destruct (c w) as [[a|e] w']; cbn [snd]; [apply Hf|apply Hrefl].
Qed.

Section Grows.

Variable env : Env.
Variable address : str.

Let R := resolved_grows address.

Lemma grows_refl w : R w w.
Proof. unfold R, resolved_grows. lia. Qed.

Lemma grows_trans w1 w2 w3 : R w1 w2 -> R w2 w3 -> R w1 w3.
Proof. unfold R, resolved_grows. lia. Qed.

Lemma grows_fallback oa da oc dc :
  keeps R (calculate_travel_time_fallback env oa da oc dc).
Proof.
  apply (keeps_fallback env R grows_refl grows_trans);
    try (intros; apply resolved_emit).
  - intros m w. apply resolved_append.
  - intros w. apply resolved_key.
Qed.

Lemma grows_route_or_fallback oa da k o d :
  keeps R (route_or_fallback env oa da k o d).
Proof.
  unfold route_or_fallback.
  apply (keeps_bind R grows_trans).
  - destruct (opt_truthy k).
    + apply (keeps_here_routing_minutes env R grows_refl grows_trans).
      intros; apply resolved_emit.
    + intros w. apply grows_refl.
  - intros [minutes|]; [intros w; apply grows_refl|apply grows_fallback].
Qed.

Lemma grows_earliest_loop da c locksmiths best :
  keeps R (earliest_loop env locksmiths da c best).
Proof.
  apply (keeps_earliest_loop env R grows_refl grows_trans);
    try (intros; apply resolved_emit).
  - intros m w. apply resolved_append.
  - intros w. apply resolved_key.
Qed.

Lemma grows_update_next_available_cache company id travel c da :
  keeps R (update_next_available_cache env company id travel c da).
Proof.
  apply (keeps_update_next_available_cache env R grows_refl grows_trans).
  intros; apply resolved_emit.
Qed.

(** An estimate towards an unresolved target from an origin with
    coordinates enters the Geocoder for the target as soon as the key is
    retrieved. *)
Lemma estimator_resolves_target oa o w k w1 :
  get_here_api_key env w = (Ok k, w1) ->
  resolved address w + 1
  <= resolved address
       (snd (calculate_travel_time_with_coords env oa (Some address)
               (Some o) None w)).
Proof.
  intros Hk.
  assert (Hrun : calculate_travel_time_with_coords env oa (Some address)
                   (Some o) None w
                 = bind (geocode_with_fuzzy_matching env (Some address))
                     (fun dest_coords =>
                        match dest_coords with
                        | None =>
                            calculate_travel_time_fallback env oa
                              (Some address) None None
                        | Some dest =>
                            route_or_fallback env oa (Some address) k o dest
                        end) w1).
  { unfold calculate_travel_time_with_coords, coords_or_geocode.
    unfold bind at 1. rewrite Hk.
    unfold bind at 1. unfold ret at 1. reflexivity. }
  rewrite Hrun.
  pose proof (bind_continues R
                (geocode_with_fuzzy_matching env (Some address))
                (fun dest_coords =>
                   match dest_coords with
                   | None =>
                       calculate_travel_time_fallback env oa
                         (Some address) None None
                   | Some dest =>
                       route_or_fallback env oa (Some address) k o dest
                   end) w1 grows_refl) as Hcont.
  unfold R, resolved_grows in Hcont.
  rewrite resolved_entry in Hcont.
  pose proof (resolved_key env address w) as Hkey.
  rewrite Hk in Hkey. unfold resolved_grows in Hkey. cbn [snd] in Hkey.
  eapply Nat.le_trans; [|apply Hcont].
  - lia.
  - intros [dest|]; [apply grows_route_or_fallback|apply grows_fallback].
Qed.

Lemma evaluation_resolves_target l w k w1 :
  origin_stored l = true ->
  get_here_api_key env w = (Ok k, w1) ->
  resolved address w + 1
  <= resolved address
       (snd (calculate_locksmith_eta env l (Some address) None w)).
Proof.
  intros Hstored Hk.
  assert (Hwith : forall workload oa o,
             resolved address w + 1
             <= resolved address
                  (snd (with_workload workload
                          (calculate_travel_time_with_coords env oa
                             (Some address) (Some o) None w)))).
  { intros workload oa o.
    pose proof (estimator_resolves_target oa o w k w1 Hk) as H.
    unfold with_workload.
    destruct (calculate_travel_time_with_coords env oa (Some address)
                (Some o) None w) as [[t|e] w']; exact H. }
  unfold origin_stored in Hstored.
  destruct (jobQueue l) as [|first_job others] eqn:Hq.
  - destruct (base_address l) as [base|] eqn:Hb; [|discriminate Hstored].
    destruct (ba_coords base) as [o|] eqn:Ho; [|discriminate Hstored].
    rewrite (eta_of_cached_base env l (Some address) None w base Hq Hb), Ho.
    apply Hwith.
  - destruct (job_coords (last (first_job :: others) first_job)) as [o|]
      eqn:Ho; [|discriminate Hstored].
    rewrite (eta_of_queue env l (Some address) None w first_job others Hq).
    rewrite Hq, Ho. apply Hwith.
Qed.

End Grows.

(** C6, at a failing input: the resolution of the target address before the
    loop fails, and the first technician's origin has coordinates on the
    record.  As soon as the key is retrieved, the evaluation of that
    technician enters the Geocoder for the target address again: over the
    whole request the target is resolved at least twice, not once. *)
Theorem C6_failed_target_resolved_again env w l rest address w1 k w2 :
  geocode_with_fuzzy_matching env (Some address) w = (Ok None, w1) ->
  origin_stored l = true ->
  get_here_api_key env w1 = (Ok k, w2) ->
  resolved address w + 2
  <= resolved address
       (snd (find_earliest_locksmith env (l :: rest) (Some address) w)).
Proof.
  intros Hg Hstored Hk.
  rewrite (dispatch_shares_resolution env w l rest (Some address) None w1 Hg).
  pose proof (resolved_entry env address w) as Hfirst.
  rewrite Hg in Hfirst. cbn [snd] in Hfirst.
  pose proof (evaluation_resolves_target env address l w1 k w2 Hstored Hk)
    as Hsecond.
  unfold dispatch_with.
  pose proof (bind_continues (resolved_grows address)
                (earliest_loop env (l :: rest) (Some address) None
                   initial_earliest)
                (fun best =>
                   bind (update_next_available_cache env (CURRENT_COMPANY w)
                           (earliest_locksmith_id best)
                           (earliest_travel_time best) None (Some address))
                     (fun _ =>
                        ret (earliest_locksmith_id best, earliest_eta best)))
                w1 (grows_refl address)) as Hcache.
  cbn [earliest_loop] in Hcache |- *.
  pose proof (bind_continues (resolved_grows address)
                (calculate_locksmith_eta env l (Some address) None)
                (fun result =>
                   earliest_loop env rest (Some address) None
                     (consider initial_earliest l result))
                w1 (grows_refl address)) as Hloop.
  unfold resolved_grows in Hcache, Hloop.
  eapply Nat.le_trans; [|apply Hcache].
  - eapply Nat.le_trans; [|apply Hloop].
    + lia.
    + intros result. apply grows_earliest_loop.
  - intros best.
    apply (keeps_bind (resolved_grows address) (grows_trans address)).
    + apply grows_update_next_available_cache.
    + intros _ w0. apply grows_refl.
Qed.

Lemma C6_witness :
  resolved (of_string "5 Pine St") fresh_world + 2
  <= resolved (of_string "5 Pine St")
       (snd (find_earliest_locksmith env_provider_resolves_nothing
               [located_locksmith] (Some (of_string "5 Pine St"))
               fresh_world)).
Proof.
  apply (C6_failed_target_resolved_again env_provider_resolves_nothing
           fresh_world located_locksmith [] (of_string "5 Pine St")
           (snd (geocode_with_fuzzy_matching env_provider_resolves_nothing
                   (Some (of_string "5 Pine St")) fresh_world))
           (Some (of_string "here-api-key"))
           (snd (geocode_with_fuzzy_matching env_provider_resolves_nothing
                   (Some (of_string "5 Pine St")) fresh_world))).
  - vm_compute. reflexivity.
  - reflexivity.
  - vm_compute. reflexivity.
Defined.

End DispatchDefects.

(** *** The handler *)

Module HandlerCoverage.
Import PyStr Py PyMath Config Data Runtime Metrics AddressUtils TravelTime.
Import DynamoUtils LambdaFunction.
Import GeocoderFacts GeocoderCoverage DispatchCoverage DispatchDefects.

(** The handler's dispatch: the table that was scanned, the technicians the
    scan gave, and the outcome of [find_earliest_locksmith] on them. *)
Record dispatched (env : Env) (cloud : Cloud)
    (new_job_address company_name : option str) (p : Process)
    (table_name : str) (locksmiths : list Locksmith)
    (outcome : Res (option str * eta_t)) (w' : World) : Prop := {
  has_address : opt_truthy new_job_address = true;
  has_company : opt_truthy company_name = true;
  has_table :
    dict_get COMPANY_TABLE_MAPPING (get_or company_name []) = Some table_name;
  has_locksmiths :
    dynamo_scan cloud (cloud_log p) table_name = Some locksmiths;
  some_locksmith : locksmiths <> [];
  dispatch_outcome :
    find_earliest_locksmith env locksmiths new_job_address
      (set_current_company company_name (world p)) = (outcome, w')
}.

(** What a metric and the item written for it have in common. *)
Definition metric_fields (m : MetricEvent) : str * str * bool :=
  (timestamp m, variation_type m, success m).

Definition item_fields (i : MetricItem) : str * str * bool :=
  (mi_timestamp i, mi_variationType i, mi_success i).

(** The loop of the batch: one [put_item] per metric, in order, up to the
    first that raises. *)
Lemma put_metrics_calls cloud : forall metrics log,
  exists items,
    snd (put_metrics cloud metrics log) = log ++ map Batch_put_item items
    /\ match fst (put_metrics cloud metrics log) with
       | None => map item_fields items = map metric_fields metrics
       | Some _ =>
           exists rest,
             map item_fields items ++ rest = map metric_fields metrics
       end.
Proof.
  induction metrics as [|m metrics IH]; intros log.
  - exists []. cbn. rewrite app_nil_r. split; reflexivity.
  - cbn [put_metrics].
    destruct (batch_put_item cloud log (metric_item cloud log m)) as [e|].
    + exists [metric_item cloud log m]. cbn [fst snd map]. split; [reflexivity|].
      exists (map metric_fields metrics). reflexivity.
    + destruct (IH (log ++ [Batch_put_item (metric_item cloud log m)]))
        as (items & Hlog & Hfields).
      exists (metric_item cloud log m :: items). split.
      * rewrite Hlog, <- app_assoc. reflexivity.
      * destruct (fst (put_metrics cloud metrics _)).
        -- destruct Hfields as (rest & Hrest). exists rest.
           cbn [map app]. rewrite Hrest. reflexivity.
        -- cbn [map]. rewrite Hfields. reflexivity.
Qed.

(** The metrics handed to asynchronous invocations, in order. *)
Fixpoint handed_over (log : list CloudEvent) : list (list MetricEvent) :=
  match log with
  | [] => []
  | Thread_invoke_async metrics :: rest => metrics :: handed_over rest
  | _ :: rest => handed_over rest
  end.

Lemma handed_over_app log more :
  handed_over (log ++ more) = handed_over log ++ handed_over more.
Proof.
  induction log as [|e log IH]; [reflexivity|].
  destruct e; cbn; rewrite IH; reflexivity.
Qed.

Lemma handed_over_puts items : handed_over (map Batch_put_item items) = [].
Proof. induction items as [|i items IH]; [reflexivity|exact IH]. Qed.

(** The answers to a metrics batch, by case: the process variables are
    never touched, and no metrics are handed over. *)
Lemma batch_cases cloud metrics p :
  let r := process_metrics_batch cloud metrics p in
  world (snd r) = world p
  /\ handed_over (cloud_log (snd r)) = handed_over (cloud_log p)
  /\ ((metrics = [] /\ snd r = p
       /\ fst r = {| statusCode := 200; body := No_metrics_to_process |})
      \/ (metrics <> []
          /\ exists items,
               cloud_log (snd r)
               = cloud_log p ++ [Batch_writer] ++ map Batch_put_item items
                 ++ [Batch_writer_exit]
               /\ map item_fields items = map metric_fields metrics
               /\ fst r = {| statusCode := 200;
                             body := Processed_metrics (List.length metrics) |})
      \/ (metrics <> []
          /\ exists message,
               fst r = {| statusCode := 500;
                          body := Error_processing_metrics message |})).
Proof.
  cbv zeta. unfold process_metrics_batch.
  destruct metrics as [|m metrics].
  - split; [reflexivity|]. split; [reflexivity|]. left. repeat split.
  - assert (Hne : m :: metrics <> []) by discriminate.
    destruct (batch_writer cloud (cloud_log p)) as [e|].
    + split; [reflexivity|]. split.
      * cbn [snd cloud_log]. rewrite handed_over_app. apply app_nil_r.
      * right. right. split; [exact Hne|]. exists e. reflexivity.
    + destruct (put_metrics_calls cloud (m :: metrics)
                  (cloud_log p ++ [Batch_writer])) as (items & Hlog & Hfields).
      destruct (put_metrics cloud (m :: metrics) (cloud_log p ++ [Batch_writer]))
        as [raised written].
      cbn [fst snd] in Hlog, Hfields |- *.
      split; [reflexivity|]. split.
      * cbn [cloud_log]. rewrite Hlog, !handed_over_app, handed_over_puts.
        cbn [handed_over]. rewrite !app_nil_r. reflexivity.
      * destruct (batch_writer_exit cloud written) as [e|].
        -- right. right. split; [exact Hne|]. exists e. reflexivity.
        -- destruct raised as [e|].
           ++ right. right. split; [exact Hne|]. exists e. reflexivity.
           ++ right. left. split; [exact Hne|]. exists items.
              split; [|split; [exact Hfields|reflexivity]].
              cbn [cloud_log]. rewrite Hlog, <- !app_assoc. reflexivity.
Qed.

(** The handler's answers to a request, by case. *)
Lemma handler_cases env cloud a c context p :
  let r := lambda_handler env cloud (Get_eta a c) context p in
  ((statusCode (fst r) = 400%Z \/ statusCode (fst r) = 404%Z)
   /\ trace (world (snd r)) = trace (world p)
   /\ _metrics_to_record (world (snd r)) = _metrics_to_record (world p)
   /\ _here_api_key (world (snd r)) = _here_api_key (world p)
   /\ (cloud_log (snd r) = cloud_log p
       \/ exists table_name,
            cloud_log (snd r) = cloud_log p ++ [Dynamo_scan table_name]))
  \/ (exists table_name locksmiths e w',
        dispatched env cloud a c p table_name locksmiths (Raise e) w'
        /\ fst r = {| statusCode := 500; body := Internal_server_error e |}
        /\ snd r = {| world := w';
                      cloud_log := cloud_log p ++ [Dynamo_scan table_name] |})
  \/ (exists table_name locksmiths id eta w',
        dispatched env cloud a c p table_name locksmiths (Ok (id, eta)) w'
        /\ fst r = {| statusCode := 200; body := Earliest_locksmith id eta |}
        /\ snd r = flush_metrics cloud context
                     {| world := w';
                        cloud_log := cloud_log p ++ [Dynamo_scan table_name] |}).
Proof.
  unfold lambda_handler.
  destruct (opt_truthy a) eqn:Ha; cbn [negb].
  2:{ left. cbn. repeat split; auto. }
  destruct (opt_truthy c) eqn:Hc; cbn [negb].
  2:{ left. cbn. repeat split; auto. }
  cbv zeta.
  destruct (dict_get COMPANY_TABLE_MAPPING (get_or c [])) as [table_name|]
    eqn:Ht; cbn [opt_truthy negb].
  2:{ left. cbn. repeat split; auto. }
  destruct (truthy table_name) eqn:Htt; cbn [negb].
  2:{ left. cbn. repeat split; auto. }
  unfold get_locksmiths. cbn [get_or world cloud_log].
  destruct (dynamo_scan cloud (cloud_log p) table_name) as [locksmiths|]
    eqn:Hscan.
  2:{ left. cbn. repeat split; eauto. }
  destruct locksmiths as [|l ls].
  1:{ left. cbn. repeat split; eauto. }
  destruct (find_earliest_locksmith env (l :: ls) a
              (set_current_company c (world p))) as [[[id eta]|e] w'] eqn:Hd.
  - right. right. exists table_name, (l :: ls), id, eta, w'.
    split; [|split; reflexivity].
    constructor; try assumption. discriminate.
  - right. left. exists table_name, (l :: ls), e, w'.
    split; [|split; reflexivity].
    constructor; try assumption. discriminate.
Qed.

(** X10: an event the handler answers with 400 or 404 has resolved no
    address, called no provider, written no cache entry, recorded no metric
    and handed over no metrics: beside the company variable, the only thing
    that can have happened is the one scan of the technicians' table. *)
Theorem handler_rejection_is_silent env cloud event context p :
  let r := lambda_handler env cloud event context p in
  statusCode (fst r) = 400%Z \/ statusCode (fst r) = 404%Z ->
  trace (world (snd r)) = trace (world p)
  /\ _metrics_to_record (world (snd r)) = _metrics_to_record (world p)
  /\ _here_api_key (world (snd r)) = _here_api_key (world p)
  /\ (cloud_log (snd r) = cloud_log p
      \/ exists table_name,
           cloud_log (snd r) = cloud_log p ++ [Dynamo_scan table_name]).
Proof.
  intros r Hstatus. destruct event as [metrics|a c].
  - exfalso. subst r. cbn [lambda_handler] in Hstatus.
    destruct (batch_cases cloud metrics p)
      as (_ & _ & [(_ & _ & Hr)|[(_ & items & _ & _ & Hr)|(_ & message & Hr)]]);
      rewrite Hr in Hstatus; cbn in Hstatus; destruct Hstatus; discriminate.
  - pose proof (handler_cases env cloud a c context p) as HC.
    cbv zeta in HC. fold r in HC.
    destruct HC as [(_ & H)|[(t & ls & e & w' & _ & Hr & _)
                            |(t & ls & id & eta & w' & _ & Hr & _)]].
    + exact H.
    + rewrite Hr in Hstatus. cbn in Hstatus. destruct Hstatus; discriminate.
    + rewrite Hr in Hstatus. cbn in Hstatus. destruct Hstatus; discriminate.
Qed.

Definition empty_cloud : Cloud :=
  {| dynamo_scan := fun _ _ => Some [];
     thread_starts := fun _ => true;
     batch_writer := fun _ => None;
     batch_put_item := fun _ _ => None;
     batch_writer_exit := fun _ => None;
     batch_time := fun _ => 0%Z |}.

Definition fresh_process : Process :=
  {| world := fresh_world; cloud_log := [] |}.

Lemma handler_rejection_witness :
  trace (world (snd (lambda_handler env_without_credential empty_cloud
                       (Get_eta (Some (of_string "7 Elm Road"))
                          (Some (of_string "QuickFix")))
                       None fresh_process)))
  = trace (world fresh_process).
Proof.
  apply (handler_rejection_is_silent env_without_credential empty_cloud
           (Get_eta (Some (of_string "7 Elm Road"))
              (Some (of_string "QuickFix")))
           None fresh_process).
  right. reflexivity.
Defined.

(** X11: when the handler answers 500, the metrics are not flushed: the
    buffer holds what it held before and what the request recorded until it
    failed, and nothing is handed over.  For a request, the dispatch over
    the scanned technicians has raised, and the body carries its exception;
    for a metrics batch, writing the batch has raised, and the process
    variables are as they were. *)
Theorem handler_failure_keeps_metrics env cloud event context p :
  let r := lambda_handler env cloud event context p in
  statusCode (fst r) = 500%Z ->
  extends (_metrics_to_record (world p)) (_metrics_to_record (world (snd r)))
  /\ handed_over (cloud_log (snd r)) = handed_over (cloud_log p)
  /\ match event with
     | Get_eta a c =>
         exists table_name locksmiths e,
           dispatched env cloud a c p table_name locksmiths (Raise e)
             (world (snd r))
           /\ body (fst r) = Internal_server_error e
           /\ cloud_log (snd r) = cloud_log p ++ [Dynamo_scan table_name]
     | Record_metrics_batch metrics =>
         metrics <> []
         /\ world (snd r) = world p
         /\ exists message, body (fst r) = Error_processing_metrics message
     end.
Proof.
  intros r Hstatus. destruct event as [metrics|a c].
  - subst r. cbn [lambda_handler] in *.
    destruct (batch_cases cloud metrics p)
      as (Hw & Hh & [(_ & _ & Hr)|[(_ & items & _ & _ & Hr)
                                  |(Hne & message & Hr)]]);
      try (rewrite Hr in Hstatus; discriminate Hstatus).
    split; [rewrite Hw; apply extends_refl|].
    split; [exact Hh|].
    split; [exact Hne|]. split; [exact Hw|].
    exists message. rewrite Hr. reflexivity.
  - pose proof (handler_cases env cloud a c context p) as HC.
    cbv zeta in HC. fold r in HC.
    destruct HC as [([H|H] & _)|[(t & ls & e & w' & D & Hr & Hp)
                                |(t & ls & id & eta & w' & _ & Hr & _)]].
    + rewrite H in Hstatus. discriminate Hstatus.
    + rewrite H in Hstatus. discriminate Hstatus.
    + rewrite Hr, Hp. cbn [world cloud_log body]. split; [|split].
      * pose proof (dispatch_framed env ls a
                      (set_current_company c (world p))) as F.
        destruct D as [_ _ _ _ _ Hd]. rewrite Hd in F.
        exact (proj1 (proj2 F)).
      * rewrite handed_over_app. apply app_nil_r.
      * exists t, ls, e. split; [exact D|split; reflexivity].
    + rewrite Hr in Hstatus. discriminate Hstatus.
Qed.

(** X12: when the handler answers 200 to a request, the body carries what
    the dispatch over the scanned technicians returned, and the metrics
    buffer is empty afterwards.  If moreover the context is absent or leaves
    at least 100 ms and the thread starts, every metric of the buffer, those
    of earlier requests that were not flushed included, is in the payload
    handed over; with less than 100 ms left nothing is handed over.  When it
    answers 200 to a metrics batch, the process variables are as they were,
    and either the batch was empty and nothing was done, or one item was
    put per metric, in order, with the metric's time stamp, variant tag and
    success flag, and the writer was left. *)
Theorem handler_success_flushes env cloud event context p :
  let r := lambda_handler env cloud event context p in
  statusCode (fst r) = 200%Z ->
  match event with
  | Get_eta a c =>
      _metrics_to_record (world (snd r)) = []
      /\ exists table_name locksmiths id eta w',
           dispatched env cloud a c p table_name locksmiths (Ok (id, eta)) w'
           /\ body (fst r) = Earliest_locksmith id eta
           /\ extends (_metrics_to_record (world p)) (_metrics_to_record w')
           /\ let scanned := cloud_log p ++ [Dynamo_scan table_name] in
              cloud_log (snd r)
              = if match context with
                   | Some remaining => (remaining <? 100)%Z
                   | None => false
                   end
                then scanned
                else
                  match _metrics_to_record w' with
                  | [] => scanned
                  | _ :: _ =>
                      if thread_starts cloud scanned
                      then scanned
                           ++ [Thread_invoke_async (_metrics_to_record w')]
                      else scanned
                  end
  | Record_metrics_batch metrics =>
      world (snd r) = world p
      /\ ((metrics = [] /\ cloud_log (snd r) = cloud_log p
           /\ body (fst r) = No_metrics_to_process)
          \/ (metrics <> []
              /\ body (fst r) = Processed_metrics (List.length metrics)
              /\ exists items,
                   cloud_log (snd r)
                   = cloud_log p ++ [Batch_writer]
                     ++ map Batch_put_item items ++ [Batch_writer_exit]
                   /\ map item_fields items = map metric_fields metrics))
  end.
Proof.
  intros r Hstatus. destruct event as [metrics|a c].
  - subst r. cbn [lambda_handler] in *.
    destruct (batch_cases cloud metrics p)
      as (Hw & _ & [(He & Hp & Hr)|[(Hne & items & Hlog & Hf & Hr)
                                   |(_ & message & Hr)]]).
    + split; [exact Hw|]. left. rewrite Hp, Hr. repeat split. exact He.
    + split; [exact Hw|]. right. split; [exact Hne|].
      split; [rewrite Hr; reflexivity|].
      exists items. split; assumption.
    + rewrite Hr in Hstatus. discriminate Hstatus.
  - pose proof (handler_cases env cloud a c context p) as HC.
    cbv zeta in HC. fold r in HC.
    destruct HC as [([H|H] & _)|[(t & ls & e & w' & _ & Hr & _)
                                |(t & ls & id & eta & w' & D & Hr & Hp)]].
    + rewrite H in Hstatus. discriminate Hstatus.
    + rewrite H in Hstatus. discriminate Hstatus.
    + rewrite Hr in Hstatus. discriminate Hstatus.
    + rewrite Hr, Hp. cbn [body].
      assert (F : extends (_metrics_to_record (world p))
                    (_metrics_to_record w')).
      { pose proof (dispatch_framed env ls a
                      (set_current_company c (world p))) as F.
        destruct D as [_ _ _ _ _ Hd]. rewrite Hd in F.
        exact (proj1 (proj2 F)). }
      split.
      * unfold flush_metrics. cbn [world cloud_log].
        destruct (_metrics_to_record w') eqn:E; [exact E|].
        destruct context as [remaining|];
          [destruct (remaining <? 100)%Z|]; reflexivity.
      * exists t, ls, id, eta, w'.
        split; [exact D|]. split; [reflexivity|]. split; [exact F|].
        cbv zeta. unfold flush_metrics. cbn [world cloud_log].
        destruct (_metrics_to_record w') eqn:E;
          (destruct context as [remaining|];
           [destruct (remaining <? 100)%Z|]; reflexivity).
Qed.

Definition cloud_one_locksmith : Cloud :=
  {| dynamo_scan := fun _ _ => Some [locksmith_near_norilsk];
     thread_starts := fun _ => true;
     batch_writer := fun _ => None;
     batch_put_item := fun _ _ => None;
     batch_writer_exit := fun _ => None;
     batch_time := fun _ => 0%Z |}.

Lemma handler_failure_witness :
  extends (_metrics_to_record (world fresh_process))
    (_metrics_to_record
       (world (snd (lambda_handler env_antipodal_job cloud_one_locksmith
                      (Get_eta (Some (of_string "99 Far Side Road"))
                         (Some (of_string "QuickFix")))
                      None fresh_process)))).
Proof.
  destruct (handler_failure_keeps_metrics env_antipodal_job cloud_one_locksmith
              (Get_eta (Some (of_string "99 Far Side Road"))
                 (Some (of_string "QuickFix"))) None fresh_process)
    as [H _]; [vm_compute; reflexivity|exact H].
Defined.

(** The same technician with a routing provider that answers 600 seconds. *)
Definition env_routed : Env :=
  {| ssm_get_parameter := fun _ => Ok (Some (of_string "here-api-key"));
     here_geocode := fun _ _ => Some TravelTimeFacts.its_antipode;
     here_route := fun _ _ _ => Some 600%float;
     datetime_now := fun _ => [];
     time_time := fun _ => 0%Z;
     libm := TravelTimeFacts.libm_at_antipodes |}.

Lemma handler_success_witness :
  _metrics_to_record
    (world (snd (lambda_handler env_routed cloud_one_locksmith
                   (Get_eta (Some (of_string "99 Far Side Road"))
                      (Some (of_string "QuickFix"))) (Some 2500%Z)
                   fresh_process)))
  = [].
Proof.
  destruct (handler_success_flushes env_routed cloud_one_locksmith
              (Get_eta (Some (of_string "99 Far Side Road"))
                 (Some (of_string "QuickFix"))) (Some 2500%Z) fresh_process)
    as [H _]; [vm_compute; reflexivity|exact H].
Defined.

End HandlerCoverage.

(** *** The lifetime of the cached key *)

Module KeyLifetime.
Import PyStr Py PyMath Config Data Runtime Metrics AddressUtils TravelTime.
Import DynamoUtils LambdaFunction.
Import GeocoderFacts GeocoderCoverage DispatchInvariants DispatchCoverage.
Import HandlerCoverage.

(** The worlds a process can be in after [w]: the functions of the modules
    have been called, any number of times, in any order and with any
    arguments, and events have been handled. *)
Inductive later (env : Env) (w : World) : World -> Prop :=
| later_now : later env w w
| later_get_here_api_key w' :
    later env w w' -> later env w (snd (get_here_api_key env w'))
| later_record_geocoding_success w' variation ok :
    later env w w' ->
    later env w (snd (record_geocoding_success env variation ok w'))
| later_geocode_address w' address api_key :
    later env w w' ->
    later env w (snd (geocode_address env address api_key w'))
| later_geocode_with_fuzzy_matching w' address :
    later env w w' ->
    later env w (snd (geocode_with_fuzzy_matching env address w'))
| later_calculate_travel_time_with_coords w' oa da oc dc :
    later env w w' ->
    later env w (snd (calculate_travel_time_with_coords env oa da oc dc w'))
| later_calculate_travel_time_fallback w' oa da oc dc :
    later env w w' ->
    later env w (snd (calculate_travel_time_fallback env oa da oc dc w'))
| later_calculate_locksmith_eta w' locksmith address c :
    later env w w' ->
    later env w (snd (calculate_locksmith_eta env locksmith address c w'))
| later_update_next_available_cache w' company id travel c address :
    later env w w' ->
    later env w
      (snd (update_next_available_cache env company id travel c address w'))
| later_find_earliest_locksmith w' locksmiths address :
    later env w w' ->
    later env w (snd (find_earliest_locksmith env locksmiths address w'))
| later_flush_metrics w' cloud context log :
    later env w w' ->
    later env w
      (world (flush_metrics cloud context {| world := w'; cloud_log := log |}))
| later_lambda_handler w' cloud event context log :
    later env w w' ->
    later env w
      (world (snd (lambda_handler env cloud event context
                     {| world := w'; cloud_log := log |}))).

(** A key in the cache stays there. *)
Definition key_stays (w w' : World) : Prop :=
  opt_truthy (_here_api_key w) = true -> _here_api_key w' = _here_api_key w.

Lemma key_stays_refl w : key_stays w w.
Proof. intros _. reflexivity. Qed.

Lemma key_stays_trans w1 w2 w3 :
  key_stays w1 w2 -> key_stays w2 w3 -> key_stays w1 w3.
Proof.
  intros H12 H23 H1. pose proof (H12 H1) as K12.
  rewrite <- K12 in H1. rewrite (H23 H1). exact K12.
Qed.

Lemma key_stays_emit e w : key_stays w (snd (emit e w)).
Proof. intros _. reflexivity. Qed.

Lemma key_stays_append m w : key_stays w (snd (append_metric m w)).
Proof. intros _. reflexivity. Qed.

Lemma key_stays_key env w : key_stays w (snd (get_here_api_key env w)).
Proof. intros H. rewrite get_here_api_key_cases, H. reflexivity. Qed.

Ltac key_stays_steps env :=
  first [ exact key_stays_refl
        | exact key_stays_trans
        | exact key_stays_append
        | exact (key_stays_key env)
        | intros; apply key_stays_emit ].

Lemma key_stays_dispatch env locksmiths address w :
  key_stays w (snd (find_earliest_locksmith env locksmiths address w)).
Proof.
  apply (keeps_find_earliest_locksmith env key_stays); key_stays_steps env.
Qed.

Lemma key_stays_flush cloud context p :
  _here_api_key (world (flush_metrics cloud context p))
  = _here_api_key (world p).
Proof.
  unfold flush_metrics.
  destruct (_metrics_to_record (world p)); [reflexivity|].
  destruct context as [remaining|]; [destruct (remaining <? 100)%Z|];
    reflexivity.
Qed.

Lemma key_stays_handler env cloud event context p :
  key_stays (world p) (world (snd (lambda_handler env cloud event context p))).
Proof.
  destruct event as [metrics|a c].
  - cbn [lambda_handler].
    rewrite (proj1 (batch_cases cloud metrics p)). apply key_stays_refl.
  - pose proof (handler_cases env cloud a c context p) as HC.
    cbv zeta in HC.
    destruct HC as [(_ & _ & _ & H & _)
                   |[(t & ls & e & w' & D & _ & Hp)
                    |(t & ls & id & eta & w' & D & _ & Hp)]].
    + intros _. exact H.
    + rewrite Hp. cbn [world].
      pose proof (key_stays_dispatch env ls a
                    (set_current_company c (world p))) as K.
      destruct D as [_ _ _ _ _ Hd]. rewrite Hd in K. exact K.
    + rewrite Hp. intros H. rewrite key_stays_flush. cbn [world].
      pose proof (key_stays_dispatch env ls a
                    (set_current_company c (world p))) as K.
      destruct D as [_ _ _ _ _ Hd]. rewrite Hd in K. exact (K H).
Qed.

Lemma later_key_stays env w w' : later env w w' -> key_stays w w'.
Proof.
  induction 1 as [|w' _ IH|w' variation ok _ IH|w' address api_key _ IH
                 |w' address _ IH|w' oa da oc dc _ IH|w' oa da oc dc _ IH
                 |w' l address c _ IH|w' company id travel c address _ IH
                 |w' ls address _ IH|w' cloud context log _ IH
                 |w' cloud event context log _ IH];
    [apply key_stays_refl|eapply key_stays_trans; [exact IH|]..].
  - apply key_stays_key.
  - apply (keeps_record_geocoding_success env key_stays);
      key_stays_steps env.
  - apply (keeps_geocode_address env key_stays); key_stays_steps env.
  - apply (keeps_geocoder env key_stays); key_stays_steps env.
  - apply (keeps_estimator env key_stays); key_stays_steps env.
  - apply (keeps_fallback env key_stays); key_stays_steps env.
  - apply (keeps_calculate_locksmith_eta env key_stays); key_stays_steps env.
  - apply (keeps_update_next_available_cache env key_stays);
      key_stays_steps env.
  - apply key_stays_dispatch.
  - intros _. apply (key_stays_flush cloud context
                       {| world := w'; cloud_log := log |}).
  - apply (key_stays_handler env cloud event context
             {| world := w'; cloud_log := log |}).
Qed.

Lemma store_calls_asked w :
  store_calls (trace (asked w)) = S (store_calls (trace w)).
Proof.
  unfold asked. cbn [snd emit trace]. rewrite store_calls_app. cbn. lia.
Qed.

(** X1: once [get_here_api_key] has returned a non-empty key, every later
    call, whatever the process has done in between (any calls of the
    modules' functions, any events handled), returns that key from the
    cache: it does not call the parameter store and changes nothing,
    whatever the store would answer.  A failed retrieval (a [ClientError] or
    an exception that propagates) is not cached: the cache is left as it was
    and the store has been called once. *)
Theorem api_key_cached_after_first_success env w :
  (forall key w1 w',
      get_here_api_key env w = (Ok (Some key), w1) -> truthy key = true ->
      later env w1 w' ->
      forall env', get_here_api_key env' w' = (Ok (Some key), w'))
  /\ (forall outcome w1,
        get_here_api_key env w = (outcome, w1) ->
        outcome = Ok None \/ (exists e, outcome = Raise e) ->
        _here_api_key w1 = _here_api_key w
        /\ store_calls (trace w1) = S (store_calls (trace w))).
Proof.
  split.
  - intros key w1 w' Hk Hkey Hlater env'.
    pose proof (get_here_api_key_cached env w Hk) as Hc.
    assert (Hw' : _here_api_key w' = Some key).
    { rewrite <- Hc. apply (later_key_stays env w1 w' Hlater).
      rewrite Hc. exact Hkey. }
    rewrite get_here_api_key_cases, Hw'. cbn [opt_truthy]. rewrite Hkey.
    reflexivity.
  - intros outcome w1. rewrite get_here_api_key_cases.
    destruct (opt_truthy (_here_api_key w)) eqn:Hc.
    + intros H [Hn|(e & He)]; injection H as <- <-.
      * injection Hn as Hn. rewrite Hn in Hc. discriminate Hc.
      * discriminate He.
    + destruct (ssm_get_parameter env (trace w)) as [[value|]|e];
        intros H Hfail; injection H as <- <-.
      * destruct Hfail as [Hn|(e & He)]; discriminate.
      * split; [reflexivity|apply store_calls_asked].
      * split; [reflexivity|apply store_calls_asked].
Qed.

Lemma api_key_cached_witness :
  get_here_api_key env_without_credential
    (world (snd (lambda_handler GeocoderFacts.env_only_no_unit
                   cloud_one_locksmith
                   (Get_eta (Some (of_string "99 Far Side Road"))
                      (Some (of_string "QuickFix")))
                   None {| world := world_with_key; cloud_log := [] |})))
  = (Ok (Some (of_string "here-api-key")),
     world (snd (lambda_handler GeocoderFacts.env_only_no_unit
                   cloud_one_locksmith
                   (Get_eta (Some (of_string "99 Far Side Road"))
                      (Some (of_string "QuickFix")))
                   None {| world := world_with_key; cloud_log := [] |}))).
Proof.
  apply (proj1 (api_key_cached_after_first_success
                  GeocoderFacts.env_only_no_unit fresh_world)
           (of_string "here-api-key") world_with_key).
  - reflexivity.
  - reflexivity.
  - apply later_lambda_handler, later_now.
Defined.

End KeyLifetime.

(** *** What a dispatch can cost *)

Module CostCoverage.
Import PyStr Re Py PyMath Config Data Runtime Metrics AddressUtils TravelTime.
Import DynamoUtils GeocoderFacts TravelTimeFacts.

(** Every event has a weight; the bounds [C], [S], [H], [R], [U], [P] are
    the most a Geocoder entry, a call of the parameter store, a geocoding
    request, a routing request, an update of a technician's record and a
    cache write can weigh. *)
Section Cost.

Variable env : Env.
Variable weight : Event -> nat.
Variables C S H R U P : nat.
Hypothesis weight_call :
  forall a, weight (Call_geocode_with_fuzzy_matching a) <= C.
Hypothesis weight_store : weight Ssm_get_parameter <= S.
Hypothesis weight_geocode : forall a, weight (Http_geocode a) <= H.
Hypothesis weight_route : forall o d, weight (Http_route o d) <= R.
Hypothesis weight_update : forall t l b, weight (Dynamo_update_item t l b) <= U.
Hypothesis weight_put : forall item, weight (Dynamo_put_item item) <= P.

Fixpoint total (t : list Event) : nat :=
  match t with
  | [] => 0
  | e :: rest => weight e + total rest
  end.

Lemma total_app t u : total (t ++ u) = total t + total u.
Proof. induction t as [|e t IH]; [reflexivity|]. cbn. rewrite IH. lia. Qed.

(** [c] adds events of total weight at most [k]. *)
Definition costs {A} (k : nat) (c : M A) : Prop :=
  forall w, total (trace (snd (c w))) <= total (trace w) + k.

Lemma costs_le {A} k k' (c : M A) : k <= k' -> costs k c -> costs k' c.
Proof. intros Hk Hc w. specialize (Hc w). lia. Qed.

Lemma costs_ret {A} (a : A) : costs 0 (ret a).
Proof. intros w. cbn. lia. Qed.

Lemma costs_lift {A} (r : Res A) : costs 0 (lift r).
Proof. intros w. cbn. lia. Qed.

Lemma costs_get_world : costs 0 get_world.
Proof. intros w. cbn. lia. Qed.

Lemma costs_append m : costs 0 (append_metric m).
Proof. intros w. cbn. lia. Qed.

Lemma costs_emit e : costs (weight e) (emit e).
Proof. intros w. cbn [snd emit trace]. rewrite total_app. cbn. lia. Qed.

Lemma costs_bind {A B} k1 k2 (c : M A) (f : A -> M B) :
  costs k1 c -> (forall a, costs k2 (f a)) -> costs (k1 + k2) (bind c f).
Proof.
  intros Hc Hf w. unfold bind. specialize (Hc w).
  destruct (c w) as [[a|e] w']; cbn [snd] in *; [|lia].
  specialize (Hf a w'). lia.
Qed.

Ltac free_step :=
  first [ apply costs_ret | apply costs_lift | apply costs_get_world
        | apply costs_append
        | apply (costs_bind 0 0); [|intros ?] ].

Lemma costs_key : costs S (get_here_api_key env).
Proof.
  intros w. rewrite get_here_api_key_cases.
  destruct (opt_truthy (_here_api_key w)); [cbn; lia|].
  destruct (ssm_get_parameter env (trace w)) as [[v|]|e];
    cbn [snd set_here_api_key asked emit trace];
    rewrite total_app; cbn; lia.
Qed.

Lemma costs_record_geocoding_success variation ok :
  costs 0 (record_geocoding_success env variation ok).
Proof. unfold record_geocoding_success. repeat free_step. Qed.

Lemma costs_geocode_address address api_key :
  costs H (geocode_address env address api_key).
Proof.
  unfold geocode_address.
  destruct (negb (truthy address) || negb (opt_truthy api_key))%bool.
  - apply (costs_le 0); [lia|apply costs_ret].
  - apply (costs_bind 0 H); [apply costs_get_world|intros w0].
    apply (costs_le (weight (Http_geocode address) + 0));
      [pose proof (weight_geocode address); lia|].
    apply costs_bind; [apply costs_emit|intros _; apply costs_ret].
Qed.

Lemma costs_try_variations api_key : forall vs i,
  costs (List.length vs * H) (try_variations env api_key i vs).
Proof.
  induction vs as [|v vs IH]; intros i; [apply costs_ret|].
  cbn [try_variations List.length Nat.mul].
  destruct (negb (truthy v)).
  - apply (costs_le (List.length vs * H)); [lia|apply IH].
  - apply costs_bind; [apply costs_geocode_address|intros [c|]].
    + apply (costs_le 0); [lia|].
      apply (costs_bind 0 0);
        [apply costs_record_geocoding_success|intros _; apply costs_ret].
    + apply (costs_bind 0 (List.length vs * H));
        [apply costs_record_geocoding_success|intros _; apply IH].
Qed.

(** The most one entry of the Geocoder can weigh. *)
Definition G : nat := C + S + 6 * H.

Lemma costs_geocoder address :
  costs G (geocode_with_fuzzy_matching env address).
Proof.
  unfold geocode_with_fuzzy_matching, G.
  apply (costs_le (weight (Call_geocode_with_fuzzy_matching address)
                   + (S + 6 * H)));
    [pose proof (weight_call address); lia|].
  apply costs_bind; [apply costs_emit|intros _].
  destruct address as [a|]; [|apply (costs_le 0); [lia|apply costs_ret]].
  destruct (negb (truthy a)); [apply (costs_le 0); [lia|apply costs_ret]|].
  apply costs_bind; [apply costs_key|intros api_key].
  destruct (negb (opt_truthy api_key));
    [apply (costs_le 0); [lia|apply costs_ret]|].
  apply (costs_try_variations api_key (variations a) 0).
Qed.

Lemma costs_coords_or_geocode given address :
  costs G (coords_or_geocode env given address).
Proof.
  unfold coords_or_geocode. destruct given.
  - apply (costs_le 0); [lia|apply costs_ret].
  - apply costs_geocoder.
Qed.

Lemma costs_haversine oa da origin dest :
  costs 0 (calculate_travel_time_fallback env oa da (Some origin) (Some dest)).
Proof. intros w. rewrite fallback_with_coords. cbn. lia. Qed.

Lemma costs_fallback oa da oc dc :
  costs (G + G) (calculate_travel_time_fallback env oa da oc dc).
Proof.
  unfold calculate_travel_time_fallback.
  apply costs_bind; [apply costs_coords_or_geocode|intros [[lat1 lon1]|]].
  2:{ apply (costs_le 0); [lia|apply costs_ret]. }
  apply (costs_le (G + 0)); [lia|].
  apply costs_bind; [apply costs_coords_or_geocode|intros [[lat2 lon2]|]].
  2:{ apply costs_ret. }
  cbv zeta. repeat free_step.
Qed.

Lemma costs_here_routing_minutes origin dest :
  costs R (here_routing_minutes env origin dest).
Proof.
  unfold here_routing_minutes.
  apply (costs_bind 0 R); [apply costs_get_world|intros w0].
  apply (costs_le (weight (Http_route origin dest) + 0));
    [pose proof (weight_route origin dest); lia|].
  apply costs_bind; [apply costs_emit|intros _].
  destruct (here_route env (trace w0) origin dest) as [secs|];
    [|apply costs_ret].
  destruct (math_ceil (secs / 60)); apply costs_ret.
Qed.

(** The most one travel estimate can weigh. *)
Definition T : nat := S + 4 * G + R.

Lemma costs_estimator oa da oc dc :
  costs T (calculate_travel_time_with_coords env oa da oc dc).
Proof.
  unfold calculate_travel_time_with_coords, T.
  apply (costs_le (S + (G + (3 * G + R)))); [lia|].
  apply costs_bind; [apply costs_key|intros api_key].
  apply costs_bind; [apply costs_coords_or_geocode|intros [origin|]].
  2:{ apply (costs_le (G + G)); [lia|apply costs_fallback]. }
  apply (costs_le (G + (2 * G + R))); [lia|].
  apply costs_bind; [apply costs_coords_or_geocode|intros [dest|]].
  2:{ apply (costs_le (G + G)); [lia|apply costs_fallback]. }
  apply (costs_le (R + 0)); [lia|].
  apply costs_bind.
  - destruct (opt_truthy api_key);
      [apply costs_here_routing_minutes
      |apply (costs_le 0); [lia|apply costs_ret]].
  - intros [minutes|]; [apply costs_ret|apply costs_haversine].
Qed.

(** The most the evaluation of one technician can weigh. *)
Definition E : nat := G + U + T.

Lemma costs_calculate_locksmith_eta l address c :
  costs E (calculate_locksmith_eta env l address c).
Proof.
  unfold calculate_locksmith_eta, E.
  apply (costs_bind 0 (G + U + T)); [apply costs_get_world|intros w0].
  cbv zeta.
  assert (HT : forall workload oa oc,
             costs T (bind (calculate_travel_time_with_coords env oa address
                              oc c)
                        (fun t => lift (eta_result workload t)))).
  { intros workload oa oc. apply (costs_le (T + 0)); [lia|].
    apply costs_bind; [apply costs_estimator|intros t; apply costs_lift]. }
  destruct (jobQueue l) as [|first_job rest].
  2:{ apply (costs_le T); [lia|apply HT]. }
  destruct (base_address l) as [base|].
  1:{ apply (costs_le T); [lia|apply HT]. }
  match goal with
  | |- costs _ (if ?b then _ else _) => destruct b
  end.
  1:{ apply (costs_le 0); [lia|apply costs_ret]. }
  rewrite <- Nat.add_assoc.
  apply costs_bind; [apply costs_geocoder|intros found].
  apply costs_bind; [|intros _; apply HT].
  destruct found as [c0|]; [|apply (costs_le 0); [lia|apply costs_ret]].
  eapply costs_le; [|apply costs_emit]. apply weight_update.
Qed.

Lemma costs_update_next_available_cache company id travel c address :
  costs P (update_next_available_cache env company id travel c address).
Proof.
  unfold update_next_available_cache.
  apply (costs_bind 0 P); [apply costs_get_world|intros w0].
  eapply costs_le; [|apply costs_emit]. apply weight_put.
Qed.

Lemma costs_earliest_loop address c : forall locksmiths best,
  costs (List.length locksmiths * E)
    (earliest_loop env locksmiths address c best).
Proof.
  induction locksmiths as [|l ls IH]; intros best; [apply costs_ret|].
  cbn [earliest_loop List.length Nat.mul].
  apply costs_bind; [apply costs_calculate_locksmith_eta|intros result].
  apply IH.
Qed.

Lemma costs_find_earliest_locksmith locksmiths address :
  costs (G + List.length locksmiths * E + P)
    (find_earliest_locksmith env locksmiths address).
Proof.
  unfold find_earliest_locksmith.
  destruct locksmiths as [|l ls]; [apply (costs_le 0); [lia|apply costs_ret]|].
  set (n := List.length (l :: ls)).
  apply (costs_bind 0 (G + n * E + P)); [apply costs_get_world|intros w0].
  cbv zeta. rewrite <- !Nat.add_assoc.
  apply costs_bind; [apply costs_geocoder|intros c].
  apply costs_bind; [apply costs_earliest_loop|intros best].
  apply (costs_le (P + 0)); [lia|].
  apply costs_bind;
    [apply costs_update_next_available_cache|intros _; apply costs_ret].
Qed.

End Cost.

(** The number of events of a kind. *)
Definition count_events (kind : Event -> bool) (t : list Event) : nat :=
  total (fun e => if kind e then 1 else 0) t.

Definition is_geocoder_entry (e : Event) : bool :=
  match e with Call_geocode_with_fuzzy_matching _ => true | _ => false end.
Definition is_store_call (e : Event) : bool :=
  match e with Ssm_get_parameter => true | _ => false end.
Definition is_geocoding_request (e : Event) : bool :=
  match e with Http_geocode _ => true | _ => false end.
Definition is_routing_request (e : Event) : bool :=
  match e with Http_route _ _ => true | _ => false end.
Definition is_record_update (e : Event) : bool :=
  match e with Dynamo_update_item _ _ _ => true | _ => false end.
Definition is_cache_write (e : Event) : bool :=
  match e with Dynamo_put_item _ => true | _ => false end.

(** X16: what a dispatch over [n] technicians can cost, whether it returns
    or raises: at most [1 + 5 n] entries of the Geocoder, [6 (1 + 5 n)]
    geocoding requests, [n] routing requests, [1 + 6 n] calls of the
    parameter store, [n] updates of technicians' records and one cache
    write. *)
Theorem dispatch_cost_bounds env locksmiths new_job_address w :
  let n := List.length locksmiths in
  let t := trace w in
  let t' := trace (snd (find_earliest_locksmith env locksmiths
                          new_job_address w)) in
  count_events is_geocoder_entry t'
    <= count_events is_geocoder_entry t + (1 + 5 * n)
  /\ count_events is_geocoding_request t'
     <= count_events is_geocoding_request t + 6 * (1 + 5 * n)
  /\ count_events is_routing_request t'
     <= count_events is_routing_request t + n
  /\ count_events is_store_call t' <= count_events is_store_call t + (1 + 6 * n)
  /\ count_events is_record_update t' <= count_events is_record_update t + n
  /\ count_events is_cache_write t' <= count_events is_cache_write t + 1.
Proof.
  cbv zeta. unfold count_events.
  repeat split.
  - pose proof (costs_find_earliest_locksmith env
                  (fun e => if is_geocoder_entry e then 1 else 0)
                  1 0 0 0 0 0) as B.
    eapply Nat.le_trans; [apply B; intros; cbn; lia|].
    unfold G, E, T, G. lia.
  - pose proof (costs_find_earliest_locksmith env
                  (fun e => if is_geocoding_request e then 1 else 0)
                  0 0 1 0 0 0) as B.
    eapply Nat.le_trans; [apply B; intros; cbn; lia|].
    unfold G, E, T, G. lia.
  - pose proof (costs_find_earliest_locksmith env
                  (fun e => if is_routing_request e then 1 else 0)
                  0 0 0 1 0 0) as B.
    eapply Nat.le_trans; [apply B; intros; cbn; lia|].
    unfold G, E, T, G. lia.
  - pose proof (costs_find_earliest_locksmith env
                  (fun e => if is_store_call e then 1 else 0)
                  0 1 0 0 0 0) as B.
    eapply Nat.le_trans; [apply B; intros; cbn; lia|].
    unfold G, E, T, G. lia.
  - pose proof (costs_find_earliest_locksmith env
                  (fun e => if is_record_update e then 1 else 0)
                  0 0 0 0 1 0) as B.
    eapply Nat.le_trans; [apply B; intros; cbn; lia|].
    unfold G, E, T, G. lia.
  - pose proof (costs_find_earliest_locksmith env
                  (fun e => if is_cache_write e then 1 else 0)
                  0 0 0 0 0 1) as B.
    eapply Nat.le_trans; [apply B; intros; cbn; lia|].
    unfold G, E, T, G. lia.
Qed.

End CostCoverage.

(* ================================================================== *)
(** ** The order of Python numbers and the selection of the earliest *)

Module NumberOrder.
Import Py PyMath.
Local Open Scope Z_scope.

(** Where a number lies: below every finite number, at a multiple of
    [2^-1074] (every finite binary64 number and every [int] is one), or
    above every finite number. *)
Inductive place : Type :=
| Below
| At (units : Z)
| Above.

Definition place_lt (a b : place) : Prop :=
  match a, b with
  | Below, Below => False
  | Below, _ => True
  | At x, At y => x < y
  | At _, Above => True
  | _, _ => False
  end.

Definition place_of_float (f : spec_float) : option place :=
  match f with
  | S754_nan => None
  | S754_infinity s => Some (if s then Below else Above)
  | S754_zero _ => Some (At 0)
  | S754_finite s m e => Some (At (cond_Zopp s (Zpos m) * 2 ^ (e + 1074)))
  end.

(** [None] is NaN. *)
Definition place_of (a : number) : option place :=
  match a with
  | Int z => Some (At (z * 2 ^ 1074))
  | Float f => place_of_float (Prim2SF f)
  end.

(** [a < b] as a proposition. *)
Definition number_less (a b : number) : Prop :=
  exists x y, place_of a = Some x /\ place_of b = Some y /\ place_lt x y.

Lemma place_lt_irrefl x : ~ place_lt x x.
Proof. destruct x; cbn; lia. Qed.

Lemma place_lt_trans x y z : place_lt x y -> place_lt y z -> place_lt x z.
Proof. destruct x, y, z; cbn; lia. Qed.

Lemma place_lt_total x y : place_lt x y \/ x = y \/ place_lt y x.
Proof.
  destruct x as [|x|], y as [|y|]; cbn; auto.
  destruct (Z.lt_trichotomy x y) as [H|[H|H]]; auto.
  right. left. congruence.
Qed.

Lemma digits2_pos_bounds m :
  2 ^ (Zpos (digits2_pos m) - 1) <= Zpos m < 2 ^ Zpos (digits2_pos m).
Proof.
  induction m as [m IH|m IH|]; cbn [digits2_pos];
    [rewrite Pos2Z.inj_succ; change (Zpos m~1) with (2 * Zpos m + 1)
    |rewrite Pos2Z.inj_succ; change (Zpos m~0) with (2 * Zpos m)
    |change (1 <= 1 < 2); lia];
    (replace (Z.succ (Zpos (digits2_pos m)) - 1)
       with (Z.succ (Zpos (digits2_pos m) - 1)) by lia;
     rewrite !Z.pow_succ_r by lia;
     destruct IH as [Hlo Hhi];
     set (a := 2 ^ (Zpos (digits2_pos m) - 1)) in *;
     set (b := 2 ^ Zpos (digits2_pos m)) in *;
     clearbody a b; lia).
Qed.

(** What [valid_binary] says of a finite number. *)
Lemma bounded_canonical m e :
  bounded prec emax m e = true ->
  -1074 <= e
  /\ Zpos m < 2 ^ 53
  /\ (e = -1074 \/ 2 ^ 52 <= Zpos m).
Proof.
  unfold bounded, canonical_mantissa, fexp, emin, prec, emax.
  intros H. apply andb_prop in H as [H _]. apply Z.eqb_eq in H.
  pose proof (digits2_pos_bounds m) as [Hlo Hhi].
  assert (Hd : Zpos (digits2_pos m) <= 53) by lia.
  split; [lia|]. split.
  - eapply Z.lt_le_trans; [exact Hhi|].
    apply Z.pow_le_mono_r; lia.
  - destruct (Z.eq_dec e (-1074)) as [He|He]; [left; exact He|right].
    assert (Hd' : Zpos (digits2_pos m) = 53) by lia.
    rewrite Hd' in Hlo. exact Hlo.
Qed.

Lemma units_lt m1 e1 m2 e2 :
  bounded prec emax m1 e1 = true -> bounded prec emax m2 e2 = true ->
  e1 < e2 ->
  Zpos m1 * 2 ^ (e1 + 1074) < Zpos m2 * 2 ^ (e2 + 1074).
Proof.
  intros B1 B2 He.
  destruct (bounded_canonical m1 e1 B1) as (E1 & M1 & _).
  destruct (bounded_canonical m2 e2 B2) as (E2 & _ & [N2|N2]); [lia|].
  assert (Hp : 0 < 2 ^ (e1 + 1074)) by (apply Z.pow_pos_nonneg; lia).
  assert (Hq : 2 * 2 ^ (e1 + 1074) <= 2 ^ (e2 + 1074)).
  { rewrite <- Z.pow_succ_r by lia. apply Z.pow_le_mono_r; lia. }
  change (2 ^ 53) with 9007199254740992 in M1.
  change (2 ^ 52) with 4503599627370496 in N2.
  nia.
Qed.

Definition place_compare (a b : place) : comparison :=
  match a, b with
  | Below, Below => Eq
  | Below, _ => Lt
  | At _, Below => Gt
  | At x, At y => Z.compare x y
  | At _, Above => Lt
  | Above, Above => Eq
  | Above, _ => Gt
  end.

Lemma place_compare_lt a b : place_compare a b = Lt <-> place_lt a b.
Proof.
  destruct a as [|x|], b as [|y|]; cbn; try (split; [discriminate|tauto]);
    try (split; [intros _; exact I|reflexivity]).
  apply Z.compare_lt_iff.
Qed.

Lemma units_positive m e :
  bounded prec emax m e = true -> 0 < Zpos m * 2 ^ (e + 1074).
Proof.
  intros B. destruct (bounded_canonical m e B) as (E & _ & _).
  apply Z.mul_pos_pos; [reflexivity|]. apply Z.pow_pos_nonneg; lia.
Qed.

Lemma cond_units s m e :
  cond_Zopp s (Zpos m) * 2 ^ (e + 1074)
  = if s then - (Zpos m * 2 ^ (e + 1074)) else Zpos m * 2 ^ (e + 1074).
Proof. destruct s; cbn [cond_Zopp]; [apply Z.mul_opp_l|reflexivity]. Qed.

Lemma finite_compare m1 e1 m2 e2 :
  bounded prec emax m1 e1 = true -> bounded prec emax m2 e2 = true ->
  match Z.compare e1 e2 with
  | Lt => Lt
  | Gt => Gt
  | Eq => Pos.compare_cont Eq m1 m2
  end
  = Z.compare (Zpos m1 * 2 ^ (e1 + 1074)) (Zpos m2 * 2 ^ (e2 + 1074)).
Proof.
  intros B1 B2. destruct (Z.compare_spec e1 e2) as [He|He|He].
  - subst e2. destruct (bounded_canonical m1 e1 B1) as (E & _ & _).
    assert (P : 0 < 2 ^ (e1 + 1074)) by (apply Z.pow_pos_nonneg; lia).
    change (Pos.compare_cont Eq m1 m2) with (Zpos m1 ?= Zpos m2).
    destruct (Z.compare_spec (Zpos m1) (Zpos m2)) as [Hm|Hm|Hm]; symmetry.
    + rewrite Hm. apply Z.compare_refl.
    + apply Z.compare_lt_iff. apply Z.mul_lt_mono_pos_r; assumption.
    + apply Z.compare_gt_iff. apply Z.mul_lt_mono_pos_r; assumption.
  - symmetry. apply Z.compare_lt_iff. apply units_lt; assumption.
  - symmetry. apply Z.compare_gt_iff. apply units_lt; assumption.
Qed.

(** The comparison of two floats is the comparison of their places. *)
Lemma SFcompare_place x y :
  FloatAxioms.valid_binary x = true -> FloatAxioms.valid_binary y = true ->
  SFcompare x y
  = match place_of_float x, place_of_float y with
    | Some px, Some py => Some (place_compare px py)
    | _, _ => None
    end.
Proof.
  intros Vx Vy.
  destruct x as [sx|sx| |sx mx ex], y as [sy|sy| |sy my ey];
    unfold FloatAxioms.valid_binary in Vx, Vy; cbn [valid_binary] in Vx, Vy;
    cbn [SFcompare place_of_float place_compare];
    try reflexivity;
    try (destruct sx; reflexivity);
    try (destruct sy; reflexivity);
    try (destruct sx, sy; reflexivity).
  - pose proof (units_positive my ey Vy) as P. rewrite cond_units.
    f_equal. destruct sy; symmetry;
      [apply Z.compare_gt_iff|apply Z.compare_lt_iff]; lia.
  - pose proof (units_positive mx ex Vx) as P. rewrite cond_units.
    f_equal. destruct sx; symmetry;
      [apply Z.compare_lt_iff|apply Z.compare_gt_iff]; lia.
  - pose proof (units_positive mx ex Vx) as Px.
    pose proof (units_positive my ey Vy) as Py.
    rewrite !cond_units. f_equal.
    destruct sx, sy.
    + rewrite Z.compare_opp, <- (finite_compare my ey mx ex Vy Vx).
      rewrite (Z.compare_antisym ey ex), (Pos.compare_cont_antisym mx my Eq).
      destruct (ey ?= ex); reflexivity.
    + symmetry. apply Z.compare_lt_iff. lia.
    + symmetry. apply Z.compare_gt_iff. lia.
    + apply finite_compare; assumption.
Qed.

Lemma float_lt_place x y :
  (x <? y)%float = true
  <-> exists px py,
        place_of_float (Prim2SF x) = Some px
        /\ place_of_float (Prim2SF y) = Some py /\ place_lt px py.
Proof.
  rewrite ltb_spec. unfold SFltb.
  rewrite (SFcompare_place _ _ (Prim2SF_valid x) (Prim2SF_valid y)).
  destruct (place_of_float (Prim2SF x)) as [px|],
           (place_of_float (Prim2SF y)) as [py|];
    try (split; [discriminate|intros (? & ? & H1 & H2 & _); discriminate]).
  split.
  - intros H. exists px, py. repeat split. apply place_compare_lt.
    destruct (place_compare px py); try discriminate H. reflexivity.
  - intros (? & ? & H1 & H2 & H3). injection H1 as <-. injection H2 as <-.
    apply place_compare_lt in H3. rewrite H3. reflexivity.
Qed.

Lemma scaled_lt a b q : 0 < q -> (a < b <-> a * q < b * q).
Proof. intros Hq. apply Z.mul_lt_mono_pos_r. exact Hq. Qed.

(** An [int] against a finite float [n * 2^e], as the comparison computes
    it and in units of [2^-1074]. *)
Lemma two_to_1074 k :
  Zpos k <= 1074 -> 2 ^ 1074 = 2 ^ Zpos k * 2 ^ (Zneg k + 1074).
Proof.
  intros Hk. rewrite <- Z.pow_add_r by lia. f_equal. lia.
Qed.

Lemma int_lt_units z n e :
  -1074 <= e ->
  match e with
  | Zneg k => z * Z.pow_pos 2 k <? n
  | _ => z <? n * 2 ^ e
  end = true
  <-> z * 2 ^ 1074 < n * 2 ^ (e + 1074).
Proof.
  intros He. destruct e as [|k|k]; rewrite Z.ltb_lt.
  - change (2 ^ 0) with 1. rewrite Z.mul_1_r.
    apply scaled_lt. reflexivity.
  - rewrite Z.pow_add_r, Z.mul_assoc by lia.
    apply scaled_lt. reflexivity.
  - change (Z.pow_pos 2 k) with (2 ^ Zpos k).
    rewrite (two_to_1074 k), Z.mul_assoc by lia.
    apply scaled_lt. apply Z.pow_pos_nonneg; lia.
Qed.

Lemma units_lt_int z n e :
  -1074 <= e ->
  match e with
  | Zneg k => n <? z * Z.pow_pos 2 k
  | _ => n * 2 ^ e <? z
  end = true
  <-> n * 2 ^ (e + 1074) < z * 2 ^ 1074.
Proof.
  intros He. destruct e as [|k|k]; rewrite Z.ltb_lt.
  - change (2 ^ 0) with 1. rewrite Z.mul_1_r.
    apply scaled_lt. reflexivity.
  - rewrite Z.pow_add_r, Z.mul_assoc by lia.
    apply scaled_lt. reflexivity.
  - change (Z.pow_pos 2 k) with (2 ^ Zpos k).
    rewrite (two_to_1074 k), Z.mul_assoc by lia.
    apply scaled_lt. apply Z.pow_pos_nonneg; lia.
Qed.

Lemma valid_exponent s m e :
  FloatAxioms.valid_binary (S754_finite s m e) = true -> -1074 <= e.
Proof. intros V. exact (proj1 (bounded_canonical m e V)). Qed.

(** The code's comparison is the order of the places. *)
Lemma number_lt_less a b : number_lt a b = true <-> number_less a b.
Proof.
  unfold number_less. destruct a as [x|x], b as [y|y]; cbn [number_lt place_of].
  - rewrite Z.ltb_lt. split.
    + intros H. eexists _, _. repeat split.
      cbn. apply scaled_lt; [reflexivity|exact H].
    + intros (? & ? & H1 & H2 & H3). injection H1 as <-. injection H2 as <-.
      cbn in H3. apply scaled_lt in H3; [exact H3|reflexivity].
  - unfold int_lt_float. pose proof (Prim2SF_valid y) as V.
    destruct (Prim2SF y) as [s|s| |s m e]; cbn [place_of_float].
    + split; [intros H|intros (p & q & H1 & H2 & H3)].
      * eexists _, _. repeat split. cbn. apply Z.ltb_lt in H.
        apply (scaled_lt x 0 (2 ^ 1074)); [reflexivity|exact H].
      * injection H1 as <-. injection H2 as <-. cbn in H3. apply Z.ltb_lt.
        apply (scaled_lt x 0 (2 ^ 1074)); [reflexivity|exact H3].
    + split; [intros H|intros (p & q & H1 & H2 & H3)].
      * eexists _, _. repeat split.
        destruct s; cbn in *; [discriminate H|exact I].
      * injection H1 as <-. injection H2 as <-.
        destruct s; cbn in *; [destruct H3|reflexivity].
    + split; [discriminate|intros (? & ? & _ & H & _); discriminate H].
    + cbv zeta. rewrite (int_lt_units x _ e (valid_exponent s m e V)).
      split; [intros H|intros (p & q & H1 & H2 & H3)].
      * eexists _, _. repeat split. exact H.
      * injection H1 as <-. injection H2 as <-. exact H3.
  - unfold float_lt_int. pose proof (Prim2SF_valid x) as V.
    destruct (Prim2SF x) as [s|s| |s m e]; cbn [place_of_float].
    + split; [intros H|intros (p & q & H1 & H2 & H3)].
      * eexists _, _. repeat split. cbn. apply Z.ltb_lt in H.
        apply (scaled_lt 0 y (2 ^ 1074)); [reflexivity|exact H].
      * injection H1 as <-. injection H2 as <-. cbn in H3. apply Z.ltb_lt.
        apply (scaled_lt 0 y (2 ^ 1074)); [reflexivity|exact H3].
    + split; [intros H|intros (p & q & H1 & H2 & H3)].
      * eexists _, _. repeat split.
        destruct s; cbn in *; [exact I|discriminate H].
      * injection H1 as <-. injection H2 as <-.
        destruct s; cbn in *; [reflexivity|destruct H3].
    + split; [discriminate|intros (? & ? & H & _); discriminate H].
    + cbv zeta. rewrite (units_lt_int y _ e (valid_exponent s m e V)).
      split; [intros H|intros (p & q & H1 & H2 & H3)].
      * eexists _, _. repeat split. exact H.
      * injection H1 as <-. injection H2 as <-. exact H3.
  - apply float_lt_place.
Qed.

Lemma number_lt_not_less a b : number_lt a b = false <-> ~ number_less a b.
Proof.
  rewrite <- number_lt_less. destruct (number_lt a b); split; congruence.
Qed.

Lemma number_less_irrefl a : ~ number_less a a.
Proof.
  intros (x & y & Hx & Hy & H). rewrite Hx in Hy. injection Hy as <-.
  exact (place_lt_irrefl x H).
Qed.

Lemma number_less_trans a b c :
  number_less a b -> number_less b c -> number_less a c.
Proof.
  intros (x & y & Hx & Hy & H1) (y' & z & Hy' & Hz & H2).
  rewrite Hy in Hy'. injection Hy' as <-.
  exists x, z. repeat split; try assumption.
  exact (place_lt_trans x y z H1 H2).
Qed.

Lemma number_less_asym a b : number_less a b -> ~ number_less b a.
Proof.
  intros H1 H2. exact (number_less_irrefl a (number_less_trans _ _ _ H1 H2)).
Qed.

(** [a < c] and not [b < c] give [a < b], unless [b] is NaN. *)
Lemma number_less_below a b c :
  number_less a c -> ~ number_less b c ->
  number_less a b \/ place_of b = None.
Proof.
  intros (x & z & Hx & Hz & H1) Hb.
  destruct (place_of b) as [y|] eqn:Hy; [left|right; reflexivity].
  exists x, y. repeat split; try assumption.
  destruct (place_lt_total y z) as [H|[H|H]].
  - exfalso. apply Hb. exists y, z. repeat split; assumption.
  - subst z. exact H1.
  - exact (place_lt_trans x z y H1 H).
Qed.

(** NaN, in the code's terms. *)
Definition not_a_number (a : number) : bool :=
  match a with
  | Int _ => false
  | Float f => is_nan f
  end.

Lemma place_of_nan a : place_of a = None <-> not_a_number a = true.
Proof.
  destruct a as [z|f]; cbn [place_of not_a_number]; [split; discriminate|].
  rewrite FloatFacts.is_nan_spec.
  destruct (Prim2SF f) as [s|s| |s m e]; cbn; split; congruence.
Qed.
End NumberOrder.

(** *** The selection *)

Module SelectionCoverage.
Import PyStr Py PyMath Config Data Runtime Metrics AddressUtils TravelTime.
Import DynamoUtils GeocoderFacts NumberOrder.

(** The state of the loop after the technicians [ls], whose evaluations gave
    [rs], starting from [best]. *)
Definition select (best : Earliest) (ls : list Locksmith)
    (rs : list (eta_t * Z)) : Earliest :=
  fold_left (fun b lr => consider b (fst lr) (snd lr)) (combine ls rs) best.

(** The loop's state for the technician at position [i]. *)
Definition entry_at (ls : list Locksmith) (rs : list (eta_t * Z)) (i : nat)
    (e : Earliest) : Prop :=
  exists l r,
    nth_error ls i = Some l /\ nth_error rs i = Some r
    /\ e = {| earliest_eta := fst r;
              earliest_locksmith_id := locksmithId l;
              earliest_travel_time := snd r |}.

(** [i] is the first position whose ETA is the minimum of [rs]: [eta] is
    below every earlier ETA that is a number, and no ETA is below [eta]. *)
Definition first_minimum (rs : list (eta_t * Z)) (i : nat) (eta : eta_t)
  : Prop :=
  (forall j r, j < i -> nth_error rs j = Some r ->
     eta_lt eta (fst r) = true \/ not_a_number (fst r) = true)
  /\ (forall j r, nth_error rs j = Some r -> eta_lt (fst r) eta = false).

Lemma select_spec ls : forall rs best,
  List.length rs = List.length ls ->
  (select best ls rs = best
   /\ forall r, In r rs -> eta_lt (fst r) (earliest_eta best) = false)
  \/ (exists i,
        entry_at ls rs i (select best ls rs)
        /\ eta_lt (earliest_eta (select best ls rs)) (earliest_eta best) = true
        /\ first_minimum rs i (earliest_eta (select best ls rs))).
Proof.
  unfold first_minimum, eta_lt.
  induction ls as [|l ls IH]; intros rs best Hlen.
  - destruct rs; [|discriminate Hlen]. left. split; [reflexivity|].
    intros r [].
  - destruct rs as [|r rs]; [discriminate Hlen|].
    injection Hlen as Hlen.
    unfold select. cbn [combine fold_left fst snd].
    fold (select (consider best l r) ls rs).
    specialize (IH rs (consider best l r) Hlen).
    unfold consider, eta_lt in *.
    destruct (number_lt (fst r) (earliest_eta best)) eqn:E.
    + destruct IH as [[Hs Hall]|(i & Hentry & Hless & Hfirst & Hmin)].
      * right. exists 0. rewrite Hs. cbn [earliest_eta] in *.
        split; [exists l, r; repeat split|].
        split; [exact E|]. split.
        -- intros j r' Hj. lia.
        -- intros [|j] r' Hr'; cbn in Hr'.
           ++ injection Hr' as <-. apply number_lt_not_less.
              apply number_less_irrefl.
           ++ apply Hall. eapply nth_error_In. exact Hr'.
      * right. exists (S i). cbn [earliest_eta] in Hless.
        split; [destruct Hentry as (l' & r' & H1 & H2 & H3);
                exists l', r'; repeat split; assumption|].
        split.
        { apply number_lt_less. apply number_lt_less in Hless, E.
          eapply number_less_trans; eassumption. }
        split.
        -- intros [|j] r' Hj Hr'; cbn in Hr'.
           ++ injection Hr' as <-. left. exact Hless.
           ++ apply (Hfirst j r'); [lia|exact Hr'].
        -- intros [|j] r' Hr'; cbn in Hr'.
           ++ injection Hr' as <-. apply number_lt_not_less.
              apply number_less_asym. apply number_lt_less. exact Hless.
           ++ apply (Hmin j r'). exact Hr'.
    + destruct IH as [[Hs Hall]|(i & Hentry & Hless & Hfirst & Hmin)].
      * left. split; [exact Hs|].
        intros r' [<-|Hin]; [exact E|apply Hall; exact Hin].
      * right. exists (S i).
        split; [destruct Hentry as (l' & r' & H1 & H2 & H3);
                exists l', r'; repeat split; assumption|].
        split; [exact Hless|].
        assert (Hr : number_lt (earliest_eta (select best ls rs)) (fst r)
                     = true
                     \/ not_a_number (fst r) = true).
        { apply number_lt_less in Hless. apply number_lt_not_less in E.
          destruct (number_less_below _ _ _ Hless E) as [H|H].
          - left. apply number_lt_less. exact H.
          - right. apply place_of_nan. exact H. }
        split.
        -- intros [|j] r' Hj Hr'; cbn in Hr'.
           ++ injection Hr' as <-. exact Hr.
           ++ apply (Hfirst j r'); [lia|exact Hr'].
        -- intros [|j] r' Hr'; cbn in Hr'.
           ++ injection Hr' as <-.
              destruct Hr as [Hr|Hr].
              ** apply number_lt_not_less. apply number_less_asym.
                 apply number_lt_less. exact Hr.
              ** apply number_lt_not_less.
                 intros (x & y & Hx & _). apply place_of_nan in Hr.
                 congruence.
           ++ apply (Hmin j r'). exact Hr'.
Qed.


(** The evaluations of the technicians, one after the other. *)
Fixpoint evaluate_all (env : Env) (locksmiths : list Locksmith)
    (new_job_address : option str) (new_job_coords : option coords)
    : M (list (eta_t * Z)) :=
  match locksmiths with
  | [] => ret []
  | locksmith :: rest =>
      bind (calculate_locksmith_eta env locksmith new_job_address new_job_coords)
        (fun result =>
           bind (evaluate_all env rest new_job_address new_job_coords)
             (fun results => ret (result :: results)))
  end.

Lemma evaluate_all_length env address c : forall ls w rs w',
  evaluate_all env ls address c w = (Ok rs, w') ->
  List.length rs = List.length ls.
Proof.
  induction ls as [|l ls IH]; intros w rs w' H.
  - injection H as <- _. reflexivity.
  - cbn [evaluate_all] in H. unfold bind in H.
    destruct (calculate_locksmith_eta env l address c w) as [[r|e] w1];
      [|discriminate H].
    destruct (evaluate_all env ls address c w1) as [[rs1|e] w2] eqn:E;
      [|discriminate H].
    injection H as <- _. cbn [List.length]. f_equal. exact (IH _ _ _ E).
Qed.

(** The loop is the selection over the evaluations' results. *)
Lemma loop_as_selection env address c : forall ls best w,
  earliest_loop env ls address c best w
  = match evaluate_all env ls address c w with
    | (Ok rs, w') => (Ok (select best ls rs), w')
    | (Raise e, w') => (Raise e, w')
    end.
Proof.
  induction ls as [|l ls IH]; intros best w; [reflexivity|].
  cbn [earliest_loop evaluate_all]. unfold bind.
  destruct (calculate_locksmith_eta env l address c w) as [[r|e] w1];
    [|reflexivity].
  rewrite IH.
  destruct (evaluate_all env ls address c w1) as [[rs|e] w2]; reflexivity.
Qed.

(** X18: when the resolution of the target and the evaluation of every
    technician return, the Dispatcher returns the identifier and the ETA of
    the first technician that attains the minimum ETA: its ETA is strictly
    below every earlier ETA (that is a number) and no ETA is below it, so
    ties keep the first.  When no ETA is below infinity it returns [None]
    and infinity.  In both cases it then writes one cache entry, with the
    selected identifier and its travel time, and that is the last thing it
    does.  ETAs are compared as Python compares an [int] and a [float]. *)
Theorem dispatcher_selects_first_minimum env w l ls address new_job_coords w1
    results w2 :
  geocode_with_fuzzy_matching env address w = (Ok new_job_coords, w1) ->
  evaluate_all env (l :: ls) address new_job_coords w1 = (Ok results, w2) ->
  exists winner item,
    find_earliest_locksmith env (l :: ls) address w
    = (Ok (earliest_locksmith_id winner, earliest_eta winner),
       snd (emit (Dynamo_put_item item) w2))
    /\ ci_companyName item = CURRENT_COMPANY w
    /\ ci_locksmithId item = earliest_locksmith_id winner
    /\ ci_travelTime item = earliest_travel_time winner
    /\ ((forall r, In r results -> eta_lt (fst r) Infinite = false) ->
        winner = initial_earliest)
    /\ ((exists r, In r results /\ eta_lt (fst r) Infinite = true) ->
        exists i,
          entry_at (l :: ls) results i winner
          /\ first_minimum results i (earliest_eta winner)).
Proof.
  intros Hg Hev.
  exists (select initial_earliest (l :: ls) results).
  unfold find_earliest_locksmith.
  unfold bind at 1. unfold get_world at 1. cbv beta iota.
  unfold bind at 1. rewrite Hg.
  unfold bind at 1. rewrite loop_as_selection, Hev.
  unfold update_next_available_cache. unfold bind, get_world, emit, ret.
  cbv beta iota.
  eexists. split; [reflexivity|].
  cbn [ci_companyName ci_locksmithId ci_travelTime].
  repeat (split; [reflexivity|]).
  pose proof (evaluate_all_length env address new_job_coords (l :: ls) w1
                results w2 Hev) as Hlen.
  destruct (select_spec (l :: ls) results initial_earliest Hlen)
    as [[Hs Hall]|(i & Hentry & Hless & Hfirst)].
  - split; [intros _; exact Hs|].
    intros (r & Hin & Hfin). exfalso.
    specialize (Hall r Hin). cbn [initial_earliest earliest_eta] in Hall.
    congruence.
  - split.
    + intros Hinf. exfalso.
      destruct Hentry as (l' & r & _ & Hr & Hw). rewrite Hw in Hless.
      cbn [earliest_eta initial_earliest] in Hless.
      rewrite (Hinf r (nth_error_In _ _ Hr)) in Hless. discriminate Hless.
    + intros _. exists i. split; assumption.
Qed.

(** An idle technician whose record holds a base address with coordinates,
    after a busy one: the idle one is the earliest. *)
Definition based_locksmith : Locksmith :=
  {| locksmithId := Some (of_string "L-4");
     jobQueue := [];
     base_address :=
       Some {| ba_address := of_string "1614 10th St S, Arlington, VA 22204";
               ba_coords :=
                 Some (0x1.36e147ae147aep+5, -0x1.3451eb851eb85p+6)%float |} |}.

Definition two_locksmiths : list Locksmith :=
  [DispatcherFacts.located_locksmith; based_locksmith].

Definition pine_street : option str := Some (of_string "5 Pine St").

Definition pine_street_resolved : World :=
  snd (geocode_with_fuzzy_matching DispatcherFacts.env_provider_resolves_all
         pine_street fresh_world).

Definition both_evaluated : World :=
  snd (evaluate_all DispatcherFacts.env_provider_resolves_all two_locksmiths
         pine_street
         (Some (0x1.36e147ae147aep+5, -0x1.3451eb851eb85p+6)%float)
         pine_street_resolved).

Lemma dispatcher_selects_first_minimum_witness :
  exists winner item,
    find_earliest_locksmith DispatcherFacts.env_provider_resolves_all
      two_locksmiths pine_street fresh_world
    = (Ok (earliest_locksmith_id winner, earliest_eta winner),
       snd (emit (Dynamo_put_item item) both_evaluated))
    /\ ci_locksmithId item = earliest_locksmith_id winner
    /\ exists i,
         entry_at two_locksmiths [(Float 30, 10%Z); (Int 10, 10%Z)] i winner
         /\ first_minimum [(Float 30, 10%Z); (Int 10, 10%Z)] i
              (earliest_eta winner).
Proof.
  destruct (dispatcher_selects_first_minimum
              DispatcherFacts.env_provider_resolves_all fresh_world
              DispatcherFacts.located_locksmith [based_locksmith] pine_street
              (Some (0x1.36e147ae147aep+5, -0x1.3451eb851eb85p+6)%float)
              pine_street_resolved
              [(Float 30, 10%Z); (Int 10, 10%Z)] both_evaluated)
    as (winner & item & Hrun & _ & Hid & _ & _ & Hmin).
  - vm_compute. reflexivity.
  - vm_compute. reflexivity.
  - exists winner, item. split; [exact Hrun|]. split; [exact Hid|].
    apply Hmin. exists (Int 10, 10%Z). split; [right; left; reflexivity|].
    reflexivity.
Defined.

End SelectionCoverage.
